(** * Noteman rich-text pipeline: HTML -> Markdown -> Notion blocks

    A shallow embedding of [src/markdown/parser.ts] (the block tokenizer,
    the inline span segmentor and the language tag normalizer) and of
    [extension/html-to-markdown.js] (the HTML normalizer and its plain-text
    fallback), followed by the properties the design document states about
    them. Around these, the code that feeds and calls them is embedded as
    well: the formatting of a captured selection and the merge of the page
    lists ([extension/content.js]), the duplicate filter of the
    [/searchable-pages] route, the page identifiers of the Notion client,
    the authentication middleware and the URL normalization of the options
    page, with the properties the code itself shows.

    Conventions of the embedding.
    - A JavaScript string is a [string]; each [ascii] is read as one UTF-16
      code unit in the range 0..255, so the whitespace class, the line
      terminators and [toLowerCase] are the ECMAScript ones cut down to that
      range.
    - A [while] loop over [lines[i]] becomes a recursive function over the
      suffix of [lines] that starts at index [i]; [i++] is "drop the head".
    - The main loop of [markdownToBlocks] can fail to advance [i], so it is
      run with fuel and answers [None] when the fuel runs out.
    - DOM nodes are a tree; the browser's HTML parser is a parameter. *)

From stdpp Require Import base list strings gmap pretty.
From Stdlib Require Import Ascii Lia Sorted.

(* ================================================================= *)
(** ** JavaScript string primitives *)
(* ================================================================= *)

Module JS.

Definition LF : ascii := "010"%char.
Definition CR : ascii := "013"%char.

(** The one-character string ["\n"]. *)
Definition nl : string := String LF "".

Definition codeUnit (c : ascii) : N := N_of_ascii c.

Definition inRange (lo hi : N) (c : ascii) : bool :=
  ((lo <=? codeUnit c) && (codeUnit c <=? hi))%N.

(** [\s] and [String.prototype.trim]: WhiteSpace and LineTerminator,
    i.e. TAB, LF, VT, FF, CR, SP and NBSP below 256. *)
Definition isWhiteSpace (c : ascii) : bool :=
  inRange 9 13 c || (codeUnit c =? 32)%N || (codeUnit c =? 160)%N.

(** The characters the regex [.] refuses (no [s] flag): LF and CR. *)
Definition isLineTerminator (c : ascii) : bool :=
  (codeUnit c =? 10)%N || (codeUnit c =? 13)%N.

(** [.] *)
Definition dot (c : ascii) : bool := negb (isLineTerminator c).

(** [\d] *)
Definition isDigit (c : ascii) : bool := inRange 48 57 c.

(** [\w] *)
Definition isWordChar (c : ascii) : bool :=
  isDigit c || inRange 65 90 c || inRange 97 122 c || (codeUnit c =? 95)%N.

Definition toLowerChar (c : ascii) : ascii :=
  if inRange 65 90 c
     || (inRange 192 222 c && negb (codeUnit c =? 215)%N)
  then ascii_of_N (codeUnit c + 32)
  else c.

(** [s.toLowerCase()] *)
Fixpoint toLowerCase (s : string) : string :=
  match s with
  | "" => ""
  | String c s' => String (toLowerChar c) (toLowerCase s')
  end.

(** [s.startsWith(p)] *)
Fixpoint startsWith (s p : string) {struct p} : bool :=
  match p, s with
  | "", _ => true
  | String _ _, "" => false
  | String a p', String b s' => (a =? b)%char && startsWith s' p'
  end.

(** [s.slice(n)] for [n >= 0] *)
Fixpoint sliceFrom (n : nat) (s : string) : string :=
  match n, s with
  | 0, _ => s
  | S _, "" => ""
  | S n', String _ s' => sliceFrom n' s'
  end.

(** [s.slice(0, n)] *)
Fixpoint sliceTo (n : nat) (s : string) : string :=
  match n, s with
  | 0, _ => ""
  | S _, "" => ""
  | S n', String c s' => String c (sliceTo n' s')
  end.

(** [s.slice(a, b)] for [0 <= a]; empty when [b <= a]. *)
Definition slice (a b : nat) (s : string) : string :=
  sliceTo (b - a) (sliceFrom a s).

Definition isEmpty (s : string) : bool :=
  match s with "" => true | _ => false end.

(** Truthiness of a string, and [a || b] on strings. *)
Definition truthy (s : string) : bool := negb (isEmpty s).
Definition orElse (a b : string) : string := if truthy a then a else b.

Fixpoint trimStart (s : string) : string :=
  match s with
  | "" => ""
  | String c s' => if isWhiteSpace c then trimStart s' else s
  end.

Fixpoint trimEnd (s : string) : string :=
  match s with
  | "" => ""
  | String c s' =>
      let t := trimEnd s' in
      if isWhiteSpace c && isEmpty t then "" else String c t
  end.

(** [s.trim()] *)
Definition trim (s : string) : string := trimEnd (trimStart s).

(** [s.split(sep)] for a one-character separator; never empty. *)
Fixpoint split (sep : ascii) (s : string) : list string :=
  match s with
  | "" => [""]
  | String c s' =>
      match split sep s' with
      | l :: ls => if (c =? sep)%char then "" :: l :: ls else String c l :: ls
      | [] => [String c ""]
      end
  end.

(** [l.join(sep)] *)
Fixpoint join (sep : string) (l : list string) : string :=
  match l with
  | [] => ""
  | [x] => x
  | x :: l' => x +:+ sep +:+ join sep l'
  end.

(** [s.replace(/c/g, r)]: every occurrence of the character [c]. *)
Fixpoint replaceChar (c : ascii) (r : string) (s : string) : string :=
  match s with
  | "" => ""
  | String a s' =>
      if (a =? c)%char then r +:+ replaceChar c r s'
      else String a (replaceChar c r s')
  end.

(** The values the modelled code can meet where TypeScript says
    [string]: a property read can give [undefined] or an inherited
    object, and [htmlToMarkdown] is called with anything. *)
Inductive Value : Type :=
| VUndefined
| VNull
| VBoolean (b : bool)
| VNumber (n : Z)
| VString (s : string)
| VObject (name : string).

Definition toBoolean (v : Value) : bool :=
  match v with
  | VUndefined | VNull => false
  | VBoolean b => b
  | VNumber n => negb (n =? 0)%Z
  | VString s => truthy s
  | VObject _ => true
  end.

(** [a || b] *)
Definition orValue (a b : Value) : Value := if toBoolean a then a else b.

Definition isString (v : Value) : bool :=
  match v with VString _ => true | _ => false end.

(** Own and inherited properties of an object literal with string
    values: the names [Object.prototype] defines answer a function or an
    object, every other missing key answers [undefined]. *)
Definition objectPrototype : gset string :=
  list_to_set
    [ "constructor"; "__defineGetter__"; "__defineSetter__";
      "hasOwnProperty"; "__lookupGetter__"; "__lookupSetter__";
      "isPrototypeOf"; "propertyIsEnumerable"; "toString"; "valueOf";
      "__proto__"; "toLocaleString" ].

Definition getProperty (o : gmap string string) (k : string) : Value :=
  match o !! k with
  | Some v => VString v
  | None => if bool_decide (k ∈ objectPrototype) then VObject k else VUndefined
  end.

(** [set.has(v)] for a [Set<string>] *)
Definition setHas (s : gset string) (v : Value) : bool :=
  match v with
  | VString x => bool_decide (x ∈ s)
  | _ => false
  end.

End JS.

(* ================================================================= *)
(** ** src/markdown/parser.ts *)
(* ================================================================= *)

Module Parser.
Import JS.

(** *** mapLanguage *)

Definition mapping : gmap string string :=
  list_to_map
    [ ("js", "javascript"); ("ts", "typescript"); ("py", "python");
      ("rb", "ruby"); ("sh", "bash"); ("yml", "yaml"); ("md", "markdown") ].

Definition validLanguages : gset string :=
  list_to_set
    [ "abap"; "arduino"; "bash"; "basic"; "c"; "clojure"; "coffeescript";
      "cpp"; "csharp"; "css"; "dart"; "diff"; "docker"; "elixir"; "elm";
      "erlang"; "flow"; "fortran"; "fsharp"; "gherkin"; "glsl"; "go";
      "graphql"; "groovy"; "haskell"; "html"; "java"; "javascript"; "json";
      "julia"; "kotlin"; "latex"; "less"; "lisp"; "livescript"; "lua";
      "makefile"; "markdown"; "markup"; "matlab"; "mermaid"; "nix";
      "objective-c"; "ocaml"; "pascal"; "perl"; "php"; "plain text";
      "powershell"; "prolog"; "protobuf"; "python"; "r"; "reason"; "ruby";
      "rust"; "sass"; "scala"; "scheme"; "scss"; "shell"; "sql"; "swift";
      "typescript"; "vb.net"; "verilog"; "vhdl"; "visual basic";
      "webassembly"; "xml"; "yaml" ].

Definition mapLanguage (lang : string) : string :=
  let normalized := toLowerCase lang in
  let mapped := orValue (getProperty mapping normalized) (VString normalized) in
  if setHas validLanguages mapped
  then match mapped with VString s => s | _ => "plain text" end
  else "plain text".

(** *** The regular expressions of parseInlineFormatting

    A pattern is run at one position of the text: it sees the character
    before that position (for the lookbehind) and the text from that
    position on, and answers the length of [match[0]] with the two
    capture groups. *)

Definition RegExp : Type :=
  option ascii → string → option (nat * string * string).

(** [X+?] followed by the rest [k] of the pattern. The backtracking
    matcher takes one [X], tries [k], and takes one more [X] only when
    [k] failed. The answer is how many characters [X+?] took, with the
    answer of [k]. *)
Fixpoint lazyPlus {A} (X : ascii → bool) (k : string → option A)
    (s : string) : option (nat * A) :=
  match s with
  | "" => None
  | String c s' =>
      if X c then
        match k s' with
        | Some a => Some (1, a)
        | None =>
            match lazyPlus X k s' with
            | Some (n, a) => Some (S n, a)
            | None => None
            end
        end
      else None
  end.

(** A literal at the end of a pattern. *)
Definition lit (p : string) (s : string) : option unit :=
  if startsWith s p then Some () else None.

(** [opener], then [.+?] (lazy, one or more), then [closer] *)
Definition delimited (opener closer : string) : RegExp := λ _ s,
  if startsWith s opener then
    let body := sliceFrom (String.length opener) s in
    match lazyPlus dot (lit closer) body with
    | Some (n, _) =>
        Some (String.length opener + n + String.length closer,
              sliceTo n body, "")
    | None => None
    end
  else None.

(** bold italic: three stars, [.+?], three stars *)
Definition reBoldItalic : RegExp := delimited "***" "***".
(** bold: two stars, [.+?], two stars *)
Definition reBold : RegExp := delimited "**" "**".
(** italic with underscores: [_], [.+?], [_] *)
Definition reUnderscore : RegExp := delimited "_" "_".
(** inline code: a backtick, [.+?], a backtick *)
Definition reCode : RegExp := delimited "`" "`".

Definition isStar (c : ascii) : bool := (c =? "*")%char.
Definition notStar (c : ascii) : bool := negb (isStar c).

(** The end of the italic pattern: a star that no star follows. *)
Definition starNotStar (s : string) : option unit :=
  match s with
  | String c r => if isStar c && negb (startsWith r "*") then Some () else None
  | "" => None
  end.

(** The italic pattern: a star that no star precedes, one or more
    non-star characters (lazy), and a star that no star follows. *)
Definition reItalic : RegExp := λ prev s,
  match s with
  | String c body =>
      if isStar c && negb (from_option isStar false prev) then
        match lazyPlus notStar starNotStar body with
        | Some (n, _) => Some (1 + n + 1, sliceTo n body, "")
        | None => None
        end
      else None
  | "" => None
  end.

(** The end of the link pattern: [](], one or more characters (lazy)
    and a closing parenthesis. *)
Definition linkTail (s : string) : option (nat * unit) :=
  if startsWith s "](" then lazyPlus dot (lit ")") (sliceFrom 2 s) else None.

(** The link pattern: an opening bracket, one or more characters (lazy),
    then the end above. *)
Definition reLink : RegExp := λ _ s,
  match s with
  | String c body =>
      if (c =? "[")%char then
        match lazyPlus dot linkTail body with
        | Some (n1, (n2, _)) =>
            Some (1 + n1 + 2 + n2 + 1,
                  sliceTo n1 body, sliceTo n2 (sliceFrom (n1 + 2) body))
        | None => None
        end
      else None
  | "" => None
  end.

(** One element of [text.matchAll(re)]. *)
Record RegExpMatch : Type := mkRegExpMatch {
  index : nat;          (* match.index *)
  matchLength : nat;    (* match[0].length *)
  group1 : string;      (* match[1] *)
  group2 : string       (* match[2] *)
}.

(** [text.matchAll(re)] for a global pattern that matches no empty
    string: the leftmost match at or after [lastIndex], then on from its
    end. [s] is the text from index [i] on, [prev] the character before
    it, [skip] what is left of the last match. *)
Fixpoint scan (re : RegExp) (prev : option ascii) (i skip : nat)
    (s : string) : list RegExpMatch :=
  match s with
  | "" => []
  | String c s' =>
      match skip with
      | S k => scan re (Some c) (S i) k s'
      | 0 =>
          match re prev s with
          | Some (len, g1, g2) =>
              mkRegExpMatch i len g1 g2 :: scan re (Some c) (S i) (len - 1) s'
          | None => scan re (Some c) (S i) 0 s'
          end
      end
  end.

Definition matchAll (re : RegExp) (text : string) : list RegExpMatch :=
  scan re None 0 0 text.

(** *** parseInlineFormatting *)

Record Annotations : Type := mkAnnotations {
  bold : bool;
  italic : bool;
  code : bool;
  strikethrough : bool;
  underline : bool;
  color : string
}.

(** [RichTextItem]: [{ type: 'text', text: { content, link? }, annotations? }] *)
Record RichTextItem : Type := mkRichTextItem {
  content : string;
  link : option string;
  annotations : option Annotations
}.

(** An element of [allMatches]. *)
Record Match : Type := mkMatch {
  m_start : nat;
  m_end : nat;
  m_content : string;
  m_bold : option bool;
  m_italic : option bool;
  m_code : option bool;
  m_link : option string
}.

Definition candidate (b i c : option bool) (withLink : bool)
    (m : RegExpMatch) : Match :=
  {| m_start := index m;
     m_end := index m + matchLength m;
     m_content := group1 m;
     m_bold := b; m_italic := i; m_code := c;
     m_link := if withLink then Some (group2 m) else None |}.

(** [allMatches.some(m => m.start <= a && m.end >= b)] *)
Definition covered (allMatches : list Match) (a b : nat) : bool :=
  existsb (λ m, (m_start m <=? a) && (b <=? m_end m)) allMatches.

(** One [for (const match of text.matchAll(re))] loop: push the
    candidate, unless ([check]) an earlier one covers it. *)
Definition pushMatches (check : bool) (mk : RegExpMatch → Match)
    (allMatches : list Match) (ms : list RegExpMatch) : list Match :=
  fold_left
    (λ all m,
      if check && covered all (index m) (index m + matchLength m)
      then all
      else all ++ [mk m])
    ms allMatches.

Definition allMatches (text : string) : list Match :=
  let all := [] in
  let all := pushMatches false (candidate (Some true) (Some true) None false)
               all (matchAll reBoldItalic text) in
  let all := pushMatches true (candidate (Some true) None None false)
               all (matchAll reBold text) in
  let all := pushMatches true (candidate None (Some true) None false)
               all (matchAll reItalic text) in
  let all := pushMatches true (candidate None (Some true) None false)
               all (matchAll reUnderscore text) in
  let all := pushMatches true (candidate None None (Some true) false)
               all (matchAll reCode text) in
  let all := pushMatches true (candidate None None None true)
               all (matchAll reLink text) in
  all.

(** [allMatches.sort((a, b) => a.start - b.start)]: the sort of an
    array is stable, ties keep their order of insertion. *)
Fixpoint insertByStart (m : Match) (l : list Match) : list Match :=
  match l with
  | [] => [m]
  | x :: l' =>
      if m_start m <=? m_start x then m :: l else x :: insertByStart m l'
  end.

Definition sortByStart (l : list Match) : list Match :=
  foldr insertByStart [] l.

Definition plain (s : string) : RichTextItem :=
  {| content := s; link := None; annotations := None |}.

Definition richTextOf (m : Match) : RichTextItem :=
  {| content := m_content m;
     annotations :=
       Some {| bold := default false (m_bold m);
               italic := default false (m_italic m);
               code := default false (m_code m);
               strikethrough := false;
               underline := false;
               color := "default" |};
     link :=
       match m_link m with
       | Some url => if truthy url then Some url else None
       | None => None
       end |}.

(** The body of [for (const match of allMatches)], on [(pos, result)]. *)
Definition buildStep (text : string) (st : nat * list RichTextItem)
    (m : Match) : nat * list RichTextItem :=
  let '(pos, result) := st in
  if m_start m <? pos then st
  else
    let result :=
      if pos <? m_start m then
        let plainText := slice pos (m_start m) text in
        if truthy plainText then result ++ [plain plainText] else result
      else result in
    (m_end m, result ++ [richTextOf m]).

Definition parseInlineFormatting (text : string) : list RichTextItem :=
  let sorted := sortByStart (allMatches text) in
  let '(pos, result) := fold_left (buildStep text) sorted (0, []) in
  let result :=
    if pos <? String.length text
    then result ++ [plain (sliceFrom pos text)]
    else result in
  if length result =? 0 then result ++ [plain text] else result.

(** *** markdownToBlocks *)

(** [BlockObjectRequest], as far as the tokenizer builds it. A bullet
    item without a [children] field has [children = []]: the tokenizer
    never writes an empty [children] array. *)
#[warnings="-register-all"]
Inductive Block : Type :=
| Paragraph (rich_text : list RichTextItem)
| Heading1 (rich_text : list RichTextItem)
| Heading2 (rich_text : list RichTextItem)
| Heading3 (rich_text : list RichTextItem)
| BulletedListItem (rich_text : list RichTextItem) (children : list Block)
| NumberedListItem (rich_text : list RichTextItem)
| Code (rich_text : list RichTextItem) (language : string)
| Quote (rich_text : list RichTextItem).

(** The length of the longest prefix of characters in class [X]. *)
Fixpoint leading (X : ascii → bool) (s : string) : nat :=
  match s with
  | "" => 0
  | String c s' => if X c then S (leading X s') else 0
  end.

Definition isBulletMarker (c : ascii) : bool :=
  (c =? "-")%char || (c =? "*")%char.

(** The bullet pattern: at the start of the line, [-] or a star, then one
    whitespace character. *)
Definition testBullet (line : string) : bool :=
  match line with
  | String c (String w _) => isBulletMarker c && isWhiteSpace w
  | _ => false
  end.

(** The nested bullet pattern: at the start of the line, two or more
    whitespace characters (greedy), a bullet marker, one whitespace
    character. The marker is no whitespace, so the greedy run is the whole
    leading whitespace. [Some r]: the line matches and [r] is the line
    with the match removed. *)
Definition matchNestedBullet (line : string) : option string :=
  let n := leading isWhiteSpace line in
  if 2 <=? n then
    match sliceFrom n line with
    | String c (String w r) =>
        if isBulletMarker c && isWhiteSpace w then Some r else None
    | _ => None
    end
  else None.

(** The nested quote pattern: at the start of the line, one or more
    whitespace characters (greedy), [>], and one whitespace character if
    there is one. *)
Definition matchNestedQuote (line : string) : option string :=
  let n := leading isWhiteSpace line in
  if 1 <=? n then
    match sliceFrom n line with
    | String c r =>
        if (c =? ">")%char then
          match r with
          | String w r' => if isWhiteSpace w then Some r' else Some r
          | "" => Some r
          end
        else None
    | "" => None
    end
  else None.

(** The numbered item pattern: at the start of the line, one or more
    digits (greedy), a full stop, one whitespace character. *)
Definition matchNumbered (line : string) : option string :=
  let n := leading isDigit line in
  if 1 <=? n then
    match sliceFrom n line with
    | String c (String w r) =>
        if (c =? ".")%char && isWhiteSpace w then Some r else None
    | _ => None
    end
  else None.

Definition testNumbered (line : string) : bool :=
  match matchNumbered line with Some _ => true | None => false end.

(** [while (i < lines.length && cond(lines[i])) { acc.push(f(lines[i])); i++; }]
    with [g line = Some (f line)] when [cond line] holds: what was pushed
    and the lines from the final [i] on. *)
Fixpoint collectWhile {A} (g : string → option A) (lines : list string)
    : list A * list string :=
  match lines with
  | [] => ([], [])
  | l :: rest =>
      match g l with
      | Some a => let '(acc, r) := collectWhile g rest in (a :: acc, r)
      | None => ([], lines)
      end
  end.

Definition codeLine (l : string) : option string :=
  if startsWith l "```" then None else Some l.

Definition nestedBullet (l : string) : option Block :=
  match matchNestedBullet l with
  | Some subItemText =>
      Some (BulletedListItem (parseInlineFormatting subItemText) [])
  | None => None
  end.

Definition quoteLine (l : string) : option string :=
  if startsWith l "> " then Some (sliceFrom 2 l) else None.

Definition paragraphLine (l : string) : option string :=
  if negb (isEmpty (trim l))
     && negb (startsWith l "#")
     && negb (startsWith l "```")
     && negb (startsWith l "> ")
     && negb (testBullet l)
     && negb (testNumbered l)
  then Some l else None.

(** The quote child of a bullet item:
    [if (nestedQuoteLines.length > 0) children.push({ type: 'quote', ... })] *)
Definition quoteChild (nestedQuoteLines : list string) : list Block :=
  if 0 <? length nestedQuoteLines
  then [Quote (parseInlineFormatting (join nl nestedQuoteLines))]
  else [].

(** The bullet run,
    [while (i < lines.length && bullet.test(lines[i])) { ... }]: one pass of
    the body takes the item's line, then the nested bullets, then the nested
    quote lines. A pass takes at least one line, so [length lines] passes
    are always enough and [fuel] only makes the recursion structural. *)
Fixpoint bulletItems (fuel : nat) (lines : list string)
    : list Block * list string :=
  match fuel, lines with
  | S fuel', l :: rest =>
      if testBullet l then
        let itemText := sliceFrom 2 l in
        let '(nested, rest1) := collectWhile nestedBullet rest in
        let '(nestedQuoteLines, rest2) := collectWhile matchNestedQuote rest1 in
        let children := nested ++ quoteChild nestedQuoteLines in
        let '(blocks, rest3) := bulletItems fuel' rest2 in
        (BulletedListItem (parseInlineFormatting itemText) children :: blocks,
         rest3)
      else ([], lines)
  | _, _ => ([], lines)
  end.

Definition bulletRun (lines : list string) : list Block * list string :=
  bulletItems (length lines) lines.

(** One pass of the body of [while (i < lines.length)], from the line at
    [i] = the head of [lines]: the blocks it pushes and the lines from the
    new [i] on. *)
Definition iteration (lines : list string) : list Block * list string :=
  match lines with
  | [] => ([], [])
  | line :: rest =>
      if isEmpty (trim line) then ([], rest)
      else if startsWith line "```" then
        let language := orElse (trim (sliceFrom 3 line)) "plain text" in
        let '(codeLines, rest1) := collectWhile codeLine rest in
        ([Code [plain (join nl codeLines)] (mapLanguage language)],
         tail rest1)
      else if startsWith line "# " then
        ([Heading1 (parseInlineFormatting (sliceFrom 2 line))], rest)
      else if startsWith line "## " then
        ([Heading2 (parseInlineFormatting (sliceFrom 3 line))], rest)
      else if startsWith line "### " then
        ([Heading3 (parseInlineFormatting (sliceFrom 4 line))], rest)
      else if testBullet line then bulletRun lines
      else if testNumbered line then
        let '(items, rest1) := collectWhile matchNumbered lines in
        (map (λ item, NumberedListItem (parseInlineFormatting item)) items,
         rest1)
      else if startsWith line "> " then
        let '(quoteLines, rest1) := collectWhile quoteLine lines in
        ([Quote (parseInlineFormatting (join nl quoteLines))], rest1)
      else
        let '(paragraphLines, rest1) := collectWhile paragraphLine lines in
        (if 0 <? length paragraphLines
         then [Paragraph (parseInlineFormatting (join " " paragraphLines))]
         else [],
         rest1)
  end.

(** [while (i < lines.length) { ... }]: [None] when [fuel] passes did not
    reach the end of [lines]. *)
Fixpoint loop (fuel : nat) (lines : list string) (blocks : list Block)
    : option (list Block) :=
  match lines with
  | [] => Some blocks
  | _ :: _ =>
      match fuel with
      | 0 => None
      | S fuel' =>
          let '(pushed, rest) := iteration lines in
          loop fuel' rest (blocks ++ pushed)
      end
  end.

Definition markdownToBlocks (fuel : nat) (markdown : string)
    : option (list Block) :=
  loop fuel (split LF markdown) [].

End Parser.

(* ================================================================= *)
(** ** extension/html-to-markdown.js *)
(* ================================================================= *)

Module Html.
Import JS.

(** A DOM node: a text node, an element, or a node of another type
    (a comment, say). [attributes] holds name and value. *)
#[warnings="-register-all"]
Inductive Node : Type :=
| TextNode (data : string)
| ElementNode (tagName : string) (attributes : list (string * string))
    (childNodes : list Node)
| OtherNode (data : string).

(** [el.tagName.toLowerCase() === name] for one of [names] *)
Definition tagIn (tag : string) (names : list string) : bool :=
  existsb (String.eqb tag) names.

(** [el.getAttribute(name)]; [None] is [null]. *)
Fixpoint getAttribute (name : string) (attributes : list (string * string))
    : option string :=
  match attributes with
  | [] => None
  | (k, v) :: rest => if String.eqb k name then Some v else getAttribute name rest
  end.

(** [node.textContent] *)
Fixpoint textContent (node : Node) : string :=
  match node with
  | TextNode data => data
  | ElementNode _ _ childNodes =>
      fold_left (λ result child, result +:+ textContent child) childNodes ""
  | OtherNode _ => ""
  end.

(** The first element with this tag among a node and its descendants, in
    document order. *)
Fixpoint firstElement (tag : string) (node : Node) : option Node :=
  match node with
  | ElementNode tagName _ childNodes =>
      if String.eqb (toLowerCase tagName) tag then Some node
      else
        foldr (λ child found,
                 match firstElement tag child with
                 | Some e => Some e
                 | None => found
                 end)
          None childNodes
  | _ => None
  end.

(** [el.querySelector(tag)]: descendants only. *)
Definition querySelector (tag : string) (el : Node) : option Node :=
  match el with
  | ElementNode _ _ childNodes =>
      foldr (λ child found,
               match firstElement tag child with
               | Some e => Some e
               | None => found
               end)
        None childNodes
  | _ => None
  end.

(** [className.match(/language-(\w+)/)?.[1]]: the leftmost [language-]
    that a word character follows, with all the word characters after it. *)
Fixpoint matchLanguage (className : string) : option string :=
  match className with
  | "" => None
  | String _ rest =>
      let token := sliceFrom 9 className in
      if startsWith className "language-" && (0 <? Parser.leading isWordChar token)
      then Some (sliceTo (Parser.leading isWordChar token) token)
      else matchLanguage rest
  end.

(** [processNode], given the child nodes of [node] and its lower-cased tag
    name (the only thing [processElement] asks of a parent). *)
Definition processNodeWith (processElement : string → Node → string)
    (parentTag : string) (childNodes : list Node) : string :=
  fold_left
    (λ result child,
      match child with
      | TextNode data => result +:+ data
      | ElementNode _ _ _ => result +:+ processElement parentTag child
      | OtherNode _ => result
      end)
    childNodes "".

(** [processList] *)
Definition processListWith (processElement : string → Node → string)
    (type : string) (childNodes : list Node) : string :=
  fst
    (fold_left
       (λ '(result, index) child,
         match child with
         | ElementNode tagName _ grandChildren =>
             if String.eqb (toLowerCase tagName) "li" then
               let prefix :=
                 if String.eqb type "ol" then pretty index +:+ ". " else "- " in
               let content :=
                 trim (processNodeWith processElement "li" grandChildren) in
               (result +:+ prefix +:+ content +:+ nl, S index)
             else (result, index)
         | _ => (result, index)
         end)
       childNodes ("", 1)).

(** The [cells] array of one [tr]: its [td] and [th] children, rendered,
    trimmed, with every pipe escaped. *)
Definition cellsWith (processElement : string → Node → string)
    (trChildren : list Node) : list string :=
  fold_left
    (λ cells cell,
      match cell with
      | ElementNode tagName _ cellChildren =>
          let tag := toLowerCase tagName in
          if String.eqb tag "td" || String.eqb tag "th" then
            cells ++ [replaceChar "|" "\|"
                        (trim (processNodeWith processElement tag cellChildren))]
          else cells
      | _ => cells
      end)
    trChildren [].

(** The [cells] arrays of the [tr] elements among a node and its
    descendants, in document order. *)
Fixpoint trCellsWith (processElement : string → Node → string) (node : Node)
    : list (list string) :=
  match node with
  | ElementNode tagName _ childNodes =>
      (if String.eqb (toLowerCase tagName) "tr"
       then [cellsWith processElement childNodes]
       else [])
      ++ flat_map (trCellsWith processElement) childNodes
  | _ => []
  end.

(** The collecting loop of [processTable], on [(rows, maxCols)]. *)
Definition collectRow (st : list (list string) * nat) (cells : list string)
    : list (list string) * nat :=
  let '(rows, maxCols) := st in
  if 0 <? length cells
  then (rows ++ [cells], Nat.max maxCols (length cells))
  else st.

(** [while (row.length < maxCols) row.push('')] *)
Definition padRow (maxCols : nat) (row : list string) : list string :=
  row ++ replicate (maxCols - length row) "".

Definition emitRow (row : list string) : string :=
  "| " +:+ join " | " row +:+ " |" +:+ nl.

(** [processTable], from the [cells] arrays of
    [tableEl.querySelectorAll('tr')]. *)
Definition renderTable (trCells : list (list string)) : string :=
  let '(rows, maxCols) := fold_left collectRow trCells ([], 0) in
  match map (padRow maxCols) rows with
  | [] => ""
  | first :: others =>
      let result := emitRow first in
      let result := result +:+ emitRow (map (λ _, "---") first) in
      fold_left (λ result row, result +:+ emitRow row) others result
  end.

Definition processTableWith (processElement : string → Node → string)
    (childNodes : list Node) : string :=
  renderTable (flat_map (trCellsWith processElement) childNodes).

(** [processElement]; [parentTag] is
    [el.parentElement.tagName.toLowerCase()]. *)
Fixpoint processElement (parentTag : string) (el : Node) {struct el} : string :=
  match el with
  | ElementNode tagName attributes childNodes =>
      let tag := toLowerCase tagName in
      let C := processNodeWith processElement tag childNodes in
      if tagIn tag ["strong"; "b"] then "**" +:+ C +:+ "**"
      else if tagIn tag ["em"; "i"] then "*" +:+ C +:+ "*"
      else if tagIn tag ["code"] then
        if String.eqb parentTag "pre" then C else "`" +:+ C +:+ "`"
      else if tagIn tag ["a"] then
        match getAttribute "href" attributes with
        | Some href =>
            if truthy href && negb (startsWith href "javascript:")
            then "[" +:+ C +:+ "](" +:+ href +:+ ")"
            else C
        | None => C
        end
      else if tagIn tag ["br"] then nl
      else if tagIn tag ["p"] then C +:+ nl +:+ nl
      else if tagIn tag ["div"] then C +:+ nl
      else if tagIn tag ["h1"] then "# " +:+ C +:+ nl +:+ nl
      else if tagIn tag ["h2"] then "## " +:+ C +:+ nl +:+ nl
      else if tagIn tag ["h3"] then "### " +:+ C +:+ nl +:+ nl
      else if tagIn tag ["h4"] then "#### " +:+ C +:+ nl +:+ nl
      else if tagIn tag ["h5"] then "##### " +:+ C +:+ nl +:+ nl
      else if tagIn tag ["h6"] then "###### " +:+ C +:+ nl +:+ nl
      else if tagIn tag ["ul"] then
        processListWith processElement "ul" childNodes +:+ nl
      else if tagIn tag ["ol"] then
        processListWith processElement "ol" childNodes +:+ nl
      else if tagIn tag ["li"] then C
      else if tagIn tag ["pre"] then
        let codeEl := querySelector "code" el in
        let lang :=
          match codeEl with
          | Some (ElementNode _ codeAttributes _) =>
              default ""
                (matchLanguage (default "" (getAttribute "class" codeAttributes)))
          | _ => ""
          end in
        let code :=
          match codeEl with
          | Some e => textContent e
          | None => textContent el
          end in
        nl +:+ "```" +:+ lang +:+ nl +:+ code +:+ nl +:+ "```" +:+ nl
      else if tagIn tag ["blockquote"] then
        let inner := trim C in
        let lines := map (λ line, "> " +:+ line) (split LF inner) in
        join nl lines +:+ nl +:+ nl
      else if tagIn tag ["hr"] then nl +:+ "---" +:+ nl +:+ nl
      else if tagIn tag ["script"; "style"; "noscript"; "template"] then ""
      else if tagIn tag ["img"] then
        let alt := default "" (getAttribute "alt" attributes) in
        let src := default "" (getAttribute "src" attributes) in
        if truthy alt then "[" +:+ alt +:+ "]"
        else if truthy src then "[image: " +:+ src +:+ "]"
        else ""
      else if tagIn tag ["table"] then
        processTableWith processElement childNodes +:+ nl +:+ nl
      else if tagIn tag ["tr"; "td"; "th"; "thead"; "tbody"; "tfoot"] then C
      else C
  | _ => ""
  end.

(** [processNode(node)] *)
Definition processNode (node : Node) : string :=
  match node with
  | ElementNode tagName _ childNodes =>
      processNodeWith processElement (toLowerCase tagName) childNodes
  | _ => ""
  end.

Definition processList (listEl : Node) (type : string) : string :=
  match listEl with
  | ElementNode _ _ childNodes => processListWith processElement type childNodes
  | _ => ""
  end.

Definition processTable (tableEl : Node) : string :=
  match tableEl with
  | ElementNode _ _ childNodes => processTableWith processElement childNodes
  | _ => ""
  end.

(** The offset of the first [c] in [s]. *)
Fixpoint indexOf (c : ascii) (s : string) : option nat :=
  match s with
  | "" => None
  | String a s' => if (a =? c)%char then Some 0 else S <$> indexOf c s'
  end.

(** Removing every match of the tag pattern ([<], then characters other
    than [>], then [>]); [skip] characters of the last match are still to
    be dropped. *)
Fixpoint stripTagsFrom (skip : nat) (s : string) : string :=
  match s with
  | "" => ""
  | String c s' =>
      match skip with
      | S k => stripTagsFrom k s'
      | 0 =>
          if (c =? "<")%char then
            match indexOf ">" s' with
            | Some n => stripTagsFrom (S n) s'
            | None => String c (stripTagsFrom 0 s')
            end
          else String c (stripTagsFrom 0 s')
      end
  end.

Definition stripTags (html : string) : string := stripTagsFrom 0 html.

(** What a block of statements comes to: a value, or a thrown
    exception. *)
Inductive Completion (A : Type) : Type :=
| Normal (a : A)
| Throw.
Arguments Normal {A} a.
Arguments Throw {A}.

(** [try { body } catch (e) { handler }] *)
Definition tryCatch {A} (body handler : Completion A) : Completion A :=
  match body with
  | Normal a => Normal a
  | Throw => handler
  end.

Section Document.

(** [const temp = document.createElement('div'); temp.innerHTML = html]:
    the child nodes the browser's parser gives [temp], or [None] when the
    DOM interface throws (there is no [document], say). *)
Variable parseFragment : string → option (list Node).

Definition createTemp (html : string) : Completion Node :=
  match parseFragment html with
  | Some childNodes => Normal (ElementNode "DIV" [] childNodes)
  | None => Throw
  end.

(** A [div] that is in no document is not rendered, and then [innerText]
    is [textContent]. *)
Definition innerText (node : Node) : string := textContent node.

Definition stripHtml (html : string) : Completion string :=
  tryCatch
    (match createTemp html with
     | Normal temp =>
         Normal (orElse (textContent temp) (orElse (innerText temp) ""))
     | Throw => Throw
     end)
    (Normal (stripTags html)).

(** The [try] block of [htmlToMarkdown]: the HTML normalizer. The
    traversal of the tree is taken to complete; the exhaustion of the call
    stack on a very deeply nested tree, which the [catch] would route to
    [stripHtml] like a failure of the parser, is not modelled. *)
Definition normalize (html : string) : Completion string :=
  match createTemp html with
  | Normal temp => Normal (trim (processNode temp))
  | Throw => Throw
  end.

Definition htmlToMarkdown (html : Value) : Completion string :=
  if negb (toBoolean html) || negb (isString html) then Normal ""
  else
    match html with
    | VString s => tryCatch (normalize s) (stripHtml s)
    | _ => Normal ""
    end.

End Document.

End Html.

Import JS Parser Html.

(* ================================================================= *)
(** ** Vocabulary of the design document *)
(* ================================================================= *)

(** *** Language tags *)

(** The alias-substituted lower-casing of a tag. *)
Definition aliased (lang : string) : string :=
  default (toLowerCase lang) (mapping !! toLowerCase lang).

(** *** Spans and their source intervals

    [parseInlineFormatting] returns the items only. [spans] is the same
    loop with a ghost record of the interval of [text] each item was cut
    from; [spans_erase] below shows that forgetting the intervals gives
    [parseInlineFormatting] back. *)

Record Span : Type := mkSpan {
  spanStart : nat;
  spanEnd : nat;
  spanItem : RichTextItem
}.

Definition spanStep (text : string) (st : nat * list Span) (m : Match)
    : nat * list Span :=
  let '(pos, result) := st in
  if m_start m <? pos then st
  else
    let result :=
      if pos <? m_start m then
        let plainText := slice pos (m_start m) text in
        if truthy plainText
        then result ++ [mkSpan pos (m_start m) (plain plainText)]
        else result
      else result in
    (m_end m, result ++ [mkSpan (m_start m) (m_end m) (richTextOf m)]).

Definition spans (text : string) : list Span :=
  let sorted := sortByStart (allMatches text) in
  let '(pos, result) := fold_left (spanStep text) sorted (0, []) in
  let result :=
    if pos <? String.length text
    then result ++ [mkSpan pos (String.length text) (plain (sliceFrom pos text))]
    else result in
  if length result =? 0
  then result ++ [mkSpan 0 (String.length text) (plain text)]
  else result.

(** [p] lies wholly before [q]. *)
Definition before (p q : Span) : Prop :=
  spanStart p < spanStart q ∧ spanEnd p ≤ spanStart q.

(** The candidates that survive the overlap rule: one that starts before
    the end [pos] of the last emitted one is dropped, any other is emitted
    whole. *)
Fixpoint emitted (pos : nat) (sorted : list Match) : list Match :=
  match sorted with
  | [] => []
  | m :: rest =>
      if m_start m <? pos then emitted pos rest
      else m :: emitted (m_end m) rest
  end.

Definition wholeSpan (m : Match) : Span :=
  mkSpan (m_start m) (m_end m) (richTextOf m).

Definition formatted (sp : Span) : bool :=
  match annotations (spanItem sp) with Some _ => true | None => false end.

(** The text a span was cut from. *)
Definition sourceOf (text : string) (sp : Span) : string :=
  slice (spanStart sp) (spanEnd sp) text.

Definition concatSources (text : string) (l : list Span) : string :=
  foldr (λ sp rest, sourceOf text sp +:+ rest) "" l.

Definition concatContents (rich_text : list RichTextItem) : string :=
  foldr (λ item rest, content item +:+ rest) "" rich_text.

(** A plain span holds its source; a formatted span holds its source
    without the delimiters around it. *)
Definition faithful (text : string) (sp : Span) : Prop :=
  match annotations (spanItem sp) with
  | None => content (spanItem sp) = sourceOf text sp
  | Some _ =>
      ∃ pre post, pre ≠ "" ∧ post ≠ ""
        ∧ sourceOf text sp = pre +:+ content (spanItem sp) +:+ post
  end.

(** Consecutive non-empty intervals from [a] to [b]. *)
Inductive tiles : nat → nat → list Span → Prop :=
| tiles_nil a : tiles a a []
| tiles_cons a b c item l :
    a < b → tiles b c l → tiles a c (mkSpan a b item :: l).

(** A match of length [len] with first group [g] at the front of [s]:
    the matched text is [g] between two non-empty delimiters. *)
Definition wraps (len : nat) (g : string) (s : string) : Prop :=
  ∃ pre post,
    pre ≠ "" ∧ post ≠ "" ∧ len ≤ String.length s
    ∧ sliceTo len s = pre +:+ g +:+ post.

Definition sound (re : RegExp) : Prop :=
  ∀ prev s len g1 g2, re prev s = Some (len, g1, g2) → wraps len g1 s.

Definition goodMatch (text : string) (m : Match) : Prop :=
  m_start m < m_end m ∧ m_end m ≤ String.length text
  ∧ ∃ pre post, pre ≠ "" ∧ post ≠ ""
      ∧ slice (m_start m) (m_end m) text = pre +:+ m_content m +:+ post.

(** The invariant of the building loop of [parseInlineFormatting]. *)
Record built (text : string) (pos : nat) (result : list Span) : Prop := mkBuilt {
  built_tiles : tiles 0 pos result;
  built_bound : pos ≤ String.length text;
  built_faithful : Forall (faithful text) result
}.

(** *** Lines of the tokenizer *)

(** A line that starts with a hash and is no heading of level 1 to 3. *)
Definition stuckLine (line : string) : bool :=
  startsWith line "#"
  && negb (startsWith line "# ")
  && negb (startsWith line "## ")
  && negb (startsWith line "### ").

(** The lines after a run stop a [collectWhile] loop. *)
Definition stopsAt {A} (g : string → option A) (rest : list string) : Prop :=
  match rest with
  | [] => True
  | l :: _ => g l = None
  end.

(** No line feed in a line. *)
Fixpoint noLF (s : string) : bool :=
  match s with
  | "" => true
  | String c s' => negb (c =? LF)%char && noLF s'
  end.

(** [n] spaces. *)
Fixpoint spaces (n : nat) : string :=
  match n with
  | 0 => ""
  | S n' => String " " (spaces n')
  end.

(** The source lines of one bullet item: its own line, the nested bullet
    lines and the nested quote lines, the last two with the text that
    follows their marker. *)
Record ItemSource : Type := mkItemSource {
  itemLine : string;
  nestedSource : list (string * string);
  quoteSource : list (string * string)
}.

Definition wellFormedItem (it : ItemSource) : Prop :=
  testBullet (itemLine it) = true
  ∧ Forall (λ p, matchNestedBullet p.1 = Some p.2) (nestedSource it)
  ∧ Forall (λ p, matchNestedQuote p.1 = Some p.2) (quoteSource it).

Definition itemLines (it : ItemSource) : list string :=
  itemLine it :: map fst (nestedSource it) ++ map fst (quoteSource it).

Definition itemChildren (it : ItemSource) : list Block :=
  map (λ p, BulletedListItem (parseInlineFormatting p.2) []) (nestedSource it)
  ++ match quoteSource it with
     | [] => []
     | _ :: _ =>
         [Quote (parseInlineFormatting (join nl (map snd (quoteSource it))))]
     end.

Definition itemBlock (it : ItemSource) : Block :=
  BulletedListItem (parseInlineFormatting (sliceFrom 2 (itemLine it)))
    (itemChildren it).

(** What follows a bullet run continues neither the run nor its last
    item: it is no bullet line, no nested quote line, and, when the last
    item has no quote lines, no nested bullet line. *)
Definition endsRun (items : list ItemSource) (rest : list string) : Prop :=
  match rest with
  | [] => True
  | l :: _ =>
      testBullet l = false
      ∧ match last items with
        | None => True
        | Some it =>
            matchNestedQuote l = None
            ∧ (quoteSource it = [] → matchNestedBullet l = None)
        end
  end.

(** *** Blocks and their text *)

(** The rich text of a block is what the segmentor made of some text. *)
Definition segmentedText (rich_text : list RichTextItem) : Prop :=
  ∃ text, rich_text = parseInlineFormatting text.

Definition segmentedChild (child : Block) : Prop :=
  match child with
  | BulletedListItem rich_text [] => segmentedText rich_text
  | Quote rich_text => segmentedText rich_text
  | _ => False
  end.

(** A code block holds one plain span; every other block, and every child
    of a bullet item, holds segmented text. *)
Definition segmentedBlock (b : Block) : Prop :=
  match b with
  | Code rich_text _ => ∃ text, rich_text = [plain text]
  | BulletedListItem rich_text children =>
      segmentedText rich_text ∧ Forall segmentedChild children
  | Paragraph rich_text | Heading1 rich_text | Heading2 rich_text
  | Heading3 rich_text | NumberedListItem rich_text | Quote rich_text =>
      segmentedText rich_text
  end.

(** *** Tables *)

(** The [cells] arrays of the rows of a table, in document order. *)
Definition tableCells (tableEl : Node) : list (list string) :=
  match tableEl with
  | ElementNode _ _ childNodes => flat_map (trCellsWith processElement) childNodes
  | _ => []
  end.

Definition survivingRows (trCells : list (list string)) : list (list string) :=
  filter (λ cells, cells ≠ []) trCells.

Definition columnCount (rows : list (list string)) : nat :=
  max_list (map length rows).

(** Every pipe of [s] has a backslash right before it. *)
Fixpoint pipesEscapedFrom (escaped : bool) (s : string) : bool :=
  match s with
  | "" => true
  | String c s' =>
      (negb (c =? "|")%char || escaped) && pipesEscapedFrom (c =? "\")%char s'
  end.

Definition pipesEscaped (s : string) : bool := pipesEscapedFrom false s.

(** The order the sort puts the candidates in. *)
Definition startLe (a b : Match) : Prop := m_start a ≤ m_start b.

(** A [td] or [th] child of a row, and what [processTable] makes of it. *)
Definition isCell (node : Node) : bool :=
  match node with
  | ElementNode tagName _ _ =>
      String.eqb (toLowerCase tagName) "td" || String.eqb (toLowerCase tagName) "th"
  | _ => false
  end.

Definition renderCell (node : Node) : string :=
  replaceChar "|" "\|" (trim (processNode node)).

(** A parser that knows two documents: bold around italic, and italic
    around bold. *)
Definition emphasisParser (html : string) : option (list Node) :=
  if String.eqb html "<strong><em>x</em></strong>"
  then Some [ElementNode "STRONG" [] [ElementNode "EM" [] [TextNode "x"]]]
  else if String.eqb html "<em><strong>x</strong></em>"
  then Some [ElementNode "EM" [] [ElementNode "STRONG" [] [TextNode "x"]]]
  else None.

(** *** Markup, order and tables, written out *)

(** A formatted item: content, the three annotations the segmentor sets,
    and the link. *)
Definition styled (text : string) (b i c : bool) (url : option string)
    : RichTextItem :=
  {| content := text;
     link := url;
     annotations :=
       Some {| bold := b; italic := i; code := c;
               strikethrough := false; underline := false;
               color := "default" |} |}.

(** The source text of a formatted span: its content, not empty, between
    the delimiters of its kind. *)
Inductive markedUp : string → RichTextItem → Prop :=
| marked_bold_italic c :
    c ≠ "" → markedUp ("***" +:+ c +:+ "***") (styled c true true false None)
| marked_bold c :
    c ≠ "" → markedUp ("**" +:+ c +:+ "**") (styled c true false false None)
| marked_star c :
    c ≠ "" → markedUp ("*" +:+ c +:+ "*") (styled c false true false None)
| marked_underscore c :
    c ≠ "" → markedUp ("_" +:+ c +:+ "_") (styled c false true false None)
| marked_code c :
    c ≠ "" → markedUp ("`" +:+ c +:+ "`") (styled c false false true None)
| marked_link c url :
    c ≠ "" → url ≠ "" →
    markedUp ("[" +:+ c +:+ "](" +:+ url +:+ ")")
      (styled c false false false (Some url)).

(** A plain span is the text of its interval and nothing else; a
    formatted span is the text of its interval without its delimiters. *)
Definition exact (text : string) (sp : Span) : Prop :=
  match annotations (spanItem sp) with
  | None => spanItem sp = plain (sourceOf text sp)
  | Some _ => markedUp (sourceOf text sp) (spanItem sp)
  end.

(** A candidate lies in the text and is the markup of its item. *)
Definition exactMatch (text : string) (m : Match) : Prop :=
  m_start m < m_end m ∧ m_end m ≤ String.length text
  ∧ markedUp (slice (m_start m) (m_end m) text) (richTextOf m).

(** A match of length [len] at the front of [s] with the non-empty first
    group [g] between [pre] and [post]. *)
Definition delimitedBy (pre post : string) (len : nat) (g s : string) : Prop :=
  g ≠ "" ∧ len ≤ String.length s ∧ sliceTo len s = pre +:+ g +:+ post.

(** The candidates that start at [k], in their order. *)
Definition startingAt (k : nat) (l : list Match) : list Match :=
  filter (λ m, m_start m = k) l.

(** [m] starts inside [e], which starts no later. *)
Definition startsInside (m e : Match) : Prop :=
  m_start e ≤ m_start m ∧ m_start m < m_end e.

(** The [tr] elements among a node and its descendants, in document
    order. *)
Fixpoint trElements (node : Node) : list Node :=
  match node with
  | ElementNode tagName _ childNodes =>
      (if String.eqb (toLowerCase tagName) "tr" then [node] else [])
      ++ flat_map trElements childNodes
  | _ => []
  end.

(** The cells of a row of the HTML table: its [td] and [th] children,
    rendered. *)
Definition rowCells (tr : Node) : list string :=
  match tr with
  | ElementNode _ _ childNodes => map renderCell (List.filter isCell childNodes)
  | _ => []
  end.

(** The rows of an HTML table. *)
Definition htmlRows (tableEl : Node) : list (list string) :=
  match tableEl with
  | ElementNode _ _ childNodes => map rowCells (flat_map trElements childNodes)
  | _ => []
  end.

(** A row of a Markdown table, written out: a pipe, then for every cell
    a space, the cell, a space and a pipe, then a line feed. *)
Definition rowLine (cells : list string) : string :=
  "|" +:+ foldr (λ cell rest, " " +:+ cell +:+ " |" +:+ rest) nl cells.

(** A Markdown table, written out: the header, the separator with one
    [---] per column, the body. *)
Definition tableMarkdown (rows : list (list string)) (columns : nat) : string :=
  match rows with
  | [] => ""
  | header :: body =>
      rowLine header +:+ rowLine (replicate columns "---")
      +:+ foldr (λ row rest, rowLine row +:+ rest) "" body
  end.

(** The pipes of [s] that have no backslash right before them. *)
Fixpoint barePipesFrom (escaped : bool) (s : string) : nat :=
  match s with
  | "" => 0
  | String c s' =>
      (if (c =? "|")%char && negb escaped then 1 else 0)
      + barePipesFrom (c =? "\")%char s'
  end.

Definition barePipes (s : string) : nat := barePipesFrom false s.

(** A row with empty cells added up to [columns] cells. *)
Definition padded (columns : nat) (row : list string) : list string :=
  row ++ replicate (columns - length row) "".

(* ================================================================= *)
(** ** The clipper around the normalizer, and the server around the
       tokenizer *)
(* ================================================================= *)

(** *** extension/content.js *)

Module Clipper.

(** The double quote character. *)
Definition doubleQuote : ascii := "034"%char.

(** The [sourceLink] of [formatCapturedContent]: the title with a
    backslash put before every bracket, as the text of a link to the
    page. *)
Definition sourceLink (pageTitle pageUrl : string) : string :=
  let escapedTitle := replaceChar "]" "\]" (replaceChar "[" "\[" pageTitle) in
  "[" +:+ escapedTitle +:+ "](" +:+ pageUrl +:+ ")".

Definition formatCapturedContent (markdown pageTitle pageUrl : string) : string :=
  let sourceLink := sourceLink pageTitle pageUrl in
  if negb (truthy (trim markdown)) then "- " +:+ sourceLink
  else
    let blockquoted :=
      join nl (map (λ line, "  > " +:+ line) (split LF markdown)) in
    "- " +:+ sourceLink +:+ nl +:+ blockquoted.

(** [escapeAttr]: the two replacements, one after the other. *)
Definition escapeAttr (text : string) : string :=
  replaceChar "'" "&#39;" (replaceChar doubleQuote "&quot;" text).

End Clipper.

(** *** The route [/searchable-pages] of src/routes/api.ts *)

Module Api.

(** [PageInfo] *)
Record PageInfo : Type := mkPageInfo {
  id : string;
  title : string
}.

(** One call of the callback of [pages.filter], on the [seen] set and
    the pages kept so far. *)
Definition keepUnseen (st : gset string * list PageInfo) (p : PageInfo)
    : gset string * list PageInfo :=
  let '(seen, kept) := st in
  if bool_decide (id p ∈ seen) then (seen, kept)
  else ({[ id p ]} ∪ seen, kept ++ [p]).

(** [uniquePages] *)
Definition uniquePages (pages : list PageInfo) : list PageInfo :=
  (fold_left keepUnseen pages (∅, [])).2.

End Api.

(** *** The overlay of extension/content.js *)

Module Overlay.

(** An element of [allPages]: the page with a [source] field added. *)
Record Suggestion : Type := mkSuggestion {
  page : Api.PageInfo;
  source : string
}.

(** The two loops that fill [allPages]: the recent pages, then the
    searchable pages that were not seen. *)
Definition mergePages (recentPages searchablePages : list Api.PageInfo)
    : list Suggestion :=
  let st :=
    fold_left
      (λ '(seen, allPages) p,
        ({[ Api.id p ]} ∪ seen, allPages ++ [mkSuggestion p "recent"]))
      recentPages ((∅ : gset string), []) in
  let st :=
    fold_left
      (λ '(seen, allPages) p,
        if negb (bool_decide (Api.id p ∈ seen))
        then ({[ Api.id p ]} ∪ seen, allPages ++ [mkSuggestion p "whitelist"])
        else (seen, allPages))
      searchablePages st in
  st.2.

End Overlay.

(** *** Page identifiers: src/notion/client.ts *)

Module Notion.

(** The class of hex digits under the [i] flag: both cases. *)
Definition isHex (c : ascii) : bool :=
  inRange 97 102 c || inRange 48 57 c || inRange 65 70 c.

(** [n] hex digits at the front of [s]: what follows them. *)
Fixpoint hexRun (n : nat) (s : string) : option string :=
  match n with
  | 0 => Some s
  | S n' =>
      match s with
      | String c s' => if isHex c then hexRun n' s' else None
      | "" => None
      end
  end.

(** The whole of [s] is groups of hex digits of these lengths with one
    dash between two groups. *)
Fixpoint hexGroups (groups : list nat) (s : string) : bool :=
  match groups with
  | [] => isEmpty s
  | n :: rest =>
      match hexRun n s with
      | Some r =>
          match rest with
          | [] => isEmpty r
          | _ :: _ =>
              match r with
              | String c r' => (c =? "-")%char && hexGroups rest r'
              | "" => false
              end
          end
      | None => false
      end
  end.

(** The pattern of 32 hex digits, and the pattern of a UUID with its
    dashes, each on the whole string. *)
Definition isPageId (s : string) : bool := hexGroups [32] s.
Definition isUuid (s : string) : bool := hexGroups [8; 4; 4; 4; 12] s.

(** A pattern of fixed length [n] that is anchored at the end only: the
    match is the last [n] characters. *)
Definition takeLast (n : nat) (s : string) : string :=
  sliceFrom (String.length s - n) s.

Definition matchAtEnd (n : nat) (test : string → bool) (s : string)
    : option string :=
  if (n <=? String.length s) && test (takeLast n s)
  then Some (takeLast n s) else None.

(** [s.replace(/-/g, '')] *)
Definition removeDashes (s : string) : string := replaceChar "-" "" s.

Section Url.

(** [new URL(url).pathname]; [None] when the constructor throws. *)
Variable pathname : string → option string.

Definition extractPageIdFromUrl (url : string) : option string :=
  match pathname url with
  | Some path =>
      let found :=
        match matchAtEnd 32 isPageId path with
        | Some g => Some g
        | None => matchAtEnd 36 isUuid path
        end in
      match found with
      | Some g => Some (removeDashes g)
      | None => None
      end
  | None => None
  end.

Definition parsePageIdentifier (input : string) : option string :=
  let trimmed := trim input in
  if isPageId trimmed then Some (toLowerCase trimmed)
  else if isUuid trimmed then Some (toLowerCase (removeDashes trimmed))
  else if startsWith trimmed "http" then extractPageIdFromUrl trimmed
  else None.

End Url.

(** [notionUrl] of the settings page (src/routes/settings.ts) *)
Definition notionUrl (pageId : string) : string :=
  "https://www.notion.so/" +:+ removeDashes pageId.

End Notion.

(** *** src/middleware/auth.ts *)

Module Auth.

(** What the middleware reads of the request. *)
Record Request : Type := mkRequest {
  sessionCookie : option string;   (* getCookie(c, SESSION_COOKIE_NAME) *)
  authorization : option string    (* c.req.header('Authorization') *)
}.

(** How the middleware ends: [next()], after setting the cookie of a new
    session or not; a 401 response with its body; an exception of the
    database. *)
Inductive Response : Type :=
| Next (newSession : option string)
| Unauthorized (body : string)
| Failed.

Section Middleware.

(** [validateSession(c.env.DB, id)] and [createSession(c.env.DB)];
    [None] when the database throws. *)
Variable validateSession : string → option bool.
Variable createSession : option string.
(** [atob]; [None] when it throws. *)
Variable atob : string → option string.
Variable AUTH_PASSWORD : string.

(** Steps 2 to 4 of [authMiddleware]. *)
Definition basicAuth (c : Request) : Response :=
  match authorization c with
  | None => Unauthorized "Unauthorized"
  | Some authHeader =>
      if negb (truthy authHeader) || negb (startsWith authHeader "Basic ")
      then Unauthorized "Unauthorized"
      else
        let base64Credentials := sliceFrom 6 authHeader in
        match atob base64Credentials with
        | None => Unauthorized "Invalid credentials"
        | Some credentials =>
            match indexOf ":" credentials with
            | None => Unauthorized "Invalid credentials"
            | Some colonIndex =>
                let password := sliceFrom (colonIndex + 1) credentials in
                if negb (String.eqb password AUTH_PASSWORD)
                then Unauthorized "Invalid credentials"
                else
                  match createSession with
                  | Some sessionId => Next (Some sessionId)
                  | None => Failed
                  end
            end
        end
  end.

(** [authMiddleware]: how it ends, and whether it deleted the session
    cookie. *)
Definition authMiddleware (c : Request) : Response * bool :=
  match sessionCookie c with
  | Some cookie =>
      if truthy cookie then
        match validateSession cookie with
        | Some true => (Next None, false)
        | Some false => (basicAuth c, true)
        | None => (Failed, false)
        end
      else (basicAuth c, false)
  | None => (basicAuth c, false)
  end.

End Middleware.

End Auth.

(** *** extension/options.js *)

Module Options.

(** Without the slashes at its end: the replacement of the longest run
    of slashes that reaches the end of the string by nothing. *)
Fixpoint dropSlashes (s : string) : string :=
  match s with
  | "" => ""
  | String c s' =>
      let t := dropSlashes s' in
      if (c =? "/")%char && isEmpty t then "" else String c t
  end.

Definition normalizeUrl (url : string) : string := dropSlashes (trim url).

End Options.

Import Clipper Notion.

(** *** Vocabulary for these *)

(** Every character of [s] is in class [X]. *)
Fixpoint allOf (X : ascii → bool) (s : string) : bool :=
  match s with
  | "" => true
  | String c s' => X c && allOf X s'
  end.

(** [c] occurs in [s]. *)
Definition hasChar (c : ascii) (s : string) : bool :=
  match indexOf c s with Some _ => true | None => false end.

(** The last character of a string. *)
Fixpoint lastChar (s : string) : option ascii :=
  match s with
  | "" => None
  | String c "" => Some c
  | String _ s' => lastChar s'
  end.

(** [s.endsWith(c)] for a character *)
Definition endsWith (c : ascii) (s : string) : bool :=
  match lastChar s with Some a => (a =? c)%char | None => false end.

Definition notSpace (c : ascii) : bool := negb (isWhiteSpace c).

Definition concatStrings (l : list string) : string := foldr String.append "" l.

(** A line the tokenizer skips. *)
Definition blankLine (l : string) : bool := isEmpty (trim l).

(** A numbered line, from its digits and its text. *)
Definition numberedLine (p : string * string) : string :=
  p.1 +:+ ". " +:+ p.2.

(** A character that can start a match of one of the six patterns. *)
Definition isOpener (c : ascii) : bool :=
  (c =? "*")%char || (c =? "_")%char || (c =? "`")%char || (c =? "[")%char.

Definition notOpener (c : ascii) : bool := negb (isOpener c).

(** A pattern that matches at no position where a character that is no
    opener stands. *)
Definition closedAt (re : RegExp) : Prop :=
  ∀ prev c s, isOpener c = false → re prev (String c s) = None.

(** The span of a link without other formatting. *)
Definition linkSpan (label url : string) : RichTextItem :=
  {| content := label;
     link := Some url;
     annotations :=
       Some {| bold := false; italic := false; code := false;
               strikethrough := false; underline := false;
               color := "default" |} |}.

(** What may stand in the label and in the URL of a link: no line
    terminator, and not the character that ends the part. *)
Definition labelChar (c : ascii) : bool := dot c && negb (c =? "]")%char.
Definition urlChar (c : ascii) : bool := dot c && negb (c =? ")")%char.

(** No [<] of [s] has a [>] after it: the tag pattern matches nowhere. *)
Fixpoint tagFree (s : string) : bool :=
  match s with
  | "" => true
  | String c s' =>
      (negb (c =? "<")%char || negb (hasChar ">" s')) && tagFree s'
  end.

(** An [li] element child of a list. *)
Definition isItem (node : Node) : bool :=
  match node with
  | ElementNode tagName _ _ => String.eqb (toLowerCase tagName) "li"
  | _ => false
  end.

(** The line of the item with number [n]. *)
Definition itemText (type : string) (n : nat) (li : Node) : string :=
  (if String.eqb type "ol" then pretty n +:+ ". " else "- ")
  +:+ trim (processNode li) +:+ nl.

(** The children of the bullet item a captured selection becomes. *)
Definition selectionChildren (markdown : string) : list Block :=
  if isEmpty (trim markdown) then []
  else [Quote (parseInlineFormatting markdown)].

(** The pages of [pages] whose id is not in [seen] and is not the id of
    an earlier page of [pages]. *)
Fixpoint firstOccurrences (seen : gset string) (pages : list Api.PageInfo)
    : list Api.PageInfo :=
  match pages with
  | [] => []
  | p :: rest =>
      if bool_decide (Api.id p ∈ seen) then firstOccurrences seen rest
      else p :: firstOccurrences ({[ Api.id p ]} ∪ seen) rest
  end.

Definition ids (pages : list Api.PageInfo) : list string := map Api.id pages.

(** The first page of [pages] with the id [x]. *)
Definition firstWithId (x : string) (pages : list Api.PageInfo)
    : option Api.PageInfo :=
  head (filter (λ p, Api.id p = x) pages).

(** A URL parser that knows the links of the settings page. *)
Definition notionPathname (url : string) : option string :=
  if startsWith url "https://www.notion.so/"
  then Some (sliceFrom 21 url) else None.

(** A session store without sessions, and a decoder for payloads that
    are sent as they are. *)
Definition noSession (id : string) : option bool := Some false.
Definition plainPayload (s : string) : option string := Some s.

(* ================================================================= *)
(** ** Strings *)
(* ================================================================= *)

Section Strings.

Lemma append_nil_l (t : string) : "" +:+ t = t.
Proof. reflexivity. Qed.

Lemma append_cons (c : ascii) (s t : string) :
  String c s +:+ t = String c (s +:+ t).
Proof. reflexivity. Qed.

Lemma append_assoc (a b c : string) : (a +:+ b) +:+ c = a +:+ (b +:+ c).
Proof.
  induction a as [|x a IH]; [done|]. by rewrite !append_cons, IH.
Qed.

Lemma append_empty_r (a : string) : a +:+ "" = a.
Proof. induction a as [|x a IH]; [done|]. by rewrite append_cons, IH. Qed.

Lemma length_append (a b : string) :
  String.length (a +:+ b) = String.length a + String.length b.
Proof. induction a as [|x a IH]; [done|]. rewrite append_cons. simpl. by rewrite IH. Qed.

Lemma sliceTo_sliceFrom (n : nat) (s : string) :
  sliceTo n s +:+ sliceFrom n s = s.
Proof.
  revert s. induction n as [|n IH]; intros [|c s]; try done.
  cbn [sliceTo sliceFrom]. by rewrite append_cons, IH.
Qed.

Lemma length_sliceFrom (n : nat) (s : string) :
  String.length (sliceFrom n s) = String.length s - n.
Proof. revert s. induction n as [|n IH]; intros [|c s]; simpl; auto with lia. Qed.

Lemma length_sliceTo (n : nat) (s : string) :
  String.length (sliceTo n s) = Nat.min n (String.length s).
Proof. revert s. induction n as [|n IH]; intros [|c s]; simpl; auto with lia. Qed.

Lemma sliceFrom_sliceFrom (a b : nat) (s : string) :
  sliceFrom a (sliceFrom b s) = sliceFrom (b + a) s.
Proof.
  revert s. induction b as [|b IH]; intros s; [done|].
  destruct s as [|c s]; cbn [sliceFrom Nat.add]; [by destruct a|]. apply IH.
Qed.

Lemma sliceTo_all (n : nat) (s : string) :
  String.length s ≤ n → sliceTo n s = s.
Proof.
  revert s. induction n as [|n IH]; intros [|c s]; simpl; try done; try lia.
  intros H. rewrite IH; [done|lia].
Qed.

Lemma sliceFrom_all (n : nat) (s : string) :
  String.length s ≤ n → sliceFrom n s = "".
Proof.
  revert s. induction n as [|n IH]; intros [|c s]; simpl; try done; try lia.
  intros H. apply IH. lia.
Qed.

Lemma sliceTo_add (n m : nat) (s : string) :
  sliceTo n s +:+ sliceTo m (sliceFrom n s) = sliceTo (n + m) s.
Proof.
  revert s. induction n as [|n IH]; intros s; [done|].
  destruct s as [|c s]; cbn [sliceTo sliceFrom Nat.add].
  - by destruct m.
  - by rewrite append_cons, IH.
Qed.

Lemma sliceTo_append (a b : string) (n : nat) :
  sliceTo (String.length a + n) (a +:+ b) = a +:+ sliceTo n b.
Proof.
  induction a as [|x a IH]; [done|]. rewrite append_cons. simpl.
  by rewrite IH.
Qed.

Lemma sliceFrom_append (a b : string) :
  sliceFrom (String.length a) (a +:+ b) = b.
Proof. induction a as [|x a IH]; [done|]. by rewrite append_cons. Qed.

Lemma startsWith_split (s p : string) :
  startsWith s p = true → s = p +:+ sliceFrom (String.length p) s.
Proof.
  revert s. induction p as [|a p IH]; intros s; [done|].
  destruct s as [|b s]; [done|]. cbn [startsWith].
  intros [->%Ascii.eqb_eq H]%andb_true_iff.
  rewrite append_cons. cbn [String.length sliceFrom]. by rewrite <- IH.
Qed.

Lemma startsWith_head (c a : ascii) (s p : string) :
  startsWith (String c s) (String a p) = true → a = c.
Proof. simpl. intros [H _]%andb_true_iff. by apply Ascii.eqb_eq. Qed.

Lemma slice_split (a b c : nat) (s : string) :
  a ≤ b → b ≤ c → slice a b s +:+ slice b c s = slice a c s.
Proof.
  intros Hab Hbc. unfold slice.
  replace (sliceFrom b s) with (sliceFrom (b - a) (sliceFrom a s)).
  2:{ rewrite sliceFrom_sliceFrom. f_equal. lia. }
  rewrite sliceTo_add. f_equal. lia.
Qed.

Lemma slice_all (s : string) : slice 0 (String.length s) s = s.
Proof. unfold slice. rewrite Nat.sub_0_r. by apply sliceTo_all. Qed.

Lemma slice_to_end (a : nat) (s : string) :
  slice a (String.length s) s = sliceFrom a s.
Proof. unfold slice. apply sliceTo_all. rewrite length_sliceFrom. lia. Qed.

Lemma truthy_length (s : string) : truthy s = true ↔ 0 < String.length s.
Proof. destruct s; simpl; split; auto with lia; done. Qed.

Lemma slice_truthy text a b :
  a < b → b ≤ String.length text → truthy (slice a b text) = true.
Proof.
  intros Hab Hb. apply truthy_length. unfold slice.
  rewrite length_sliceTo, length_sliceFrom. lia.
Qed.

Lemma trim_nonempty (c : ascii) (s : string) :
  isWhiteSpace c = false → isEmpty (trim (String c s)) = false.
Proof.
  intros Hc. unfold trim. cbn [trimStart]. rewrite Hc. cbn [trimEnd].
  by rewrite Hc.
Qed.

Lemma trimEnd_nonspace (s : string) (c : ascii) :
  isWhiteSpace c = false → trimEnd (s +:+ String c "") = s +:+ String c "".
Proof.
  intros Hc. induction s as [|a s IH].
  - rewrite append_nil_l. simpl. by rewrite Hc.
  - rewrite append_cons. cbn [trimEnd]. rewrite IH.
    destruct s; [rewrite append_nil_l|rewrite append_cons]; simpl;
      by rewrite andb_false_r.
Qed.

Lemma trim_stars (C : string) :
  trim ("***" +:+ C +:+ "***") = "***" +:+ C +:+ "***".
Proof.
  unfold trim. change (trimStart ("***" +:+ C +:+ "***")) with ("***" +:+ C +:+ "***").
  replace ("***" +:+ C +:+ "***") with (("***" +:+ C +:+ "**") +:+ "*").
  - by apply trimEnd_nonspace.
  - by rewrite !append_assoc.
Qed.

Lemma split_line (l : string) : noLF l = true → split LF l = [l].
Proof.
  induction l as [|c l IH]; [done|]. simpl. intros [Hc Hl]%andb_true_iff.
  rewrite (IH Hl). apply negb_true_iff in Hc. by rewrite Hc.
Qed.

Lemma split_cons_line (l rest : string) :
  noLF l = true → split LF (l +:+ nl +:+ rest) = l :: split LF rest.
Proof.
  induction l as [|c l IH].
  - intros _. change ("" +:+ nl +:+ rest) with (String LF rest).
    cbn [split]. destruct (split LF rest) eqn:E.
    + by destruct rest as [|c r]; simpl in E; [|destruct (split LF r); destruct (c =? LF)%char].
    + by rewrite Ascii.eqb_refl.
  - cbn [noLF]. intros [Hc Hl]%andb_true_iff. rewrite append_cons. cbn [split].
    rewrite (IH Hl). apply negb_true_iff in Hc. by rewrite Hc.
Qed.

Lemma split_join (lines : list string) :
  lines ≠ [] → Forall (λ l, noLF l = true) lines →
  split LF (join nl lines) = lines.
Proof.
  induction lines as [|l lines IH]; [done|]. intros _ H.
  apply Forall_cons in H as [Hl H]. destruct lines as [|l' lines].
  - simpl. by apply split_line.
  - change (join nl (l :: l' :: lines)) with (l +:+ nl +:+ join nl (l' :: lines)).
    rewrite split_cons_line by done. f_equal. by apply IH.
Qed.

Lemma sliceTo_prefix (a b : string) : sliceTo (String.length a) (a +:+ b) = a.
Proof.
  induction a as [|x a IH]; [done|].
  rewrite append_cons. cbn [String.length sliceTo]. by rewrite IH.
Qed.

Lemma sliceTo_nonempty (n : nat) (s : string) :
  1 ≤ n ≤ String.length s → sliceTo n s ≠ "".
Proof. destruct n, s; simpl; intros; [lia|lia|lia|done]. Qed.

End Strings.

(* ================================================================= *)
(** ** The language tag normalizer *)
(* ================================================================= *)

Section LanguageTag.

Lemma mapping_values_truthy (k v : string) :
  mapping !! k = Some v → truthy v = true.
Proof.
  assert (H : map_Forall (λ _ v, truthy v = true) mapping).
  { apply (bool_decide_unpack _). vm_compute. reflexivity. }
  intros Hk. exact (H k v Hk).
Qed.

Lemma prototype_not_language (k : string) :
  k ∈ objectPrototype → k ∉ validLanguages.
Proof.
  assert (H : set_Forall (λ k, k ∉ validLanguages) objectPrototype).
  { apply (bool_decide_unpack _). vm_compute. reflexivity. }
  intros Hk. exact (H k Hk).
Qed.

Lemma sentinel_valid : "plain text" ∈ validLanguages.
Proof. apply (bool_decide_unpack _). vm_compute. reflexivity. Qed.

Lemma empty_not_language : "" ∉ validLanguages.
Proof. apply (bool_decide_unpack _). vm_compute. reflexivity. Qed.

(** C6. [mapLanguage] lower-cases its input and substitutes it through the
    alias table; when the outcome is in the closed vocabulary it is
    returned, otherwise the [plain text] sentinel is; so the result is
    always in the vocabulary. *)
Theorem mapLanguage_closed_vocabulary (lang : string) :
  (aliased lang ∈ validLanguages → mapLanguage lang = aliased lang)
  ∧ (aliased lang ∉ validLanguages → mapLanguage lang = "plain text")
  ∧ mapLanguage lang ∈ validLanguages.
Proof.
  unfold mapLanguage, aliased, getProperty.
  generalize sentinel_valid empty_not_language prototype_not_language.
  generalize validLanguages as V. intros V HS HE HP.
  destruct (mapping !! toLowerCase lang) as [v|] eqn:Hk; cbn [default].
  - unfold orValue. cbn [toBoolean]. rewrite (mapping_values_truthy _ _ Hk).
    cbn [setHas]. case_bool_decide; tauto.
  - case_bool_decide as Hp.
    + unfold orValue; cbn [toBoolean setHas]. specialize (HP _ Hp). tauto.
    + unfold orValue; cbn [toBoolean]. unfold truthy.
      destruct (toLowerCase lang) as [|c s] eqn:E; cbn [isEmpty negb setHas];
        case_bool_decide; tauto.
Qed.

Lemma mapLanguage_closed_vocabulary_witness :
  aliased "JS" ∈ validLanguages ∧ mapLanguage "JS" = aliased "JS".
Proof.
  assert (H : aliased "JS" ∈ validLanguages).
  { apply (bool_decide_unpack _). vm_compute. reflexivity. }
  split; [exact H|].
  exact (proj1 (mapLanguage_closed_vocabulary "JS") H).
Defined.

End LanguageTag.

(* ================================================================= *)
(** ** The inline span segmentor *)
(* ================================================================= *)

Section Segmentor.

(** *** The patterns match what they say *)

Lemma lazyPlus_sound {A} (X : ascii → bool) (k : string → option A)
    (s : string) (n : nat) (a : A) :
  lazyPlus X k s = Some (n, a) →
  1 ≤ n ≤ String.length s ∧ k (sliceFrom n s) = Some a.
Proof.
  revert n. induction s as [|c s IH]; intros n; [done|].
  cbn [lazyPlus]. destruct (X c); [|done].
  destruct (k s) as [a'|] eqn:Ek.
  - intros [= <- <-]. simpl. split; [lia|done].
  - destruct (lazyPlus X k s) as [[n' a']|]; [|done].
    intros [= <- <-]. destruct (IH n' eq_refl) as [Hn Hk].
    simpl. split; [lia|done].
Qed.

Lemma lit_sound (p s : string) (u : unit) :
  lit p s = Some u → s = p +:+ sliceFrom (String.length p) s.
Proof.
  unfold lit. destruct (startsWith s p) eqn:E; [|done]. intros _.
  by apply startsWith_split.
Qed.

Lemma wraps_intro (pre g post rest : string) (len : nat) :
  pre ≠ "" → post ≠ "" →
  len = String.length pre + String.length g + String.length post →
  wraps len g (pre +:+ g +:+ post +:+ rest).
Proof.
  intros Hpre Hpost ->. exists pre, post. split_and!; try done.
  - rewrite !length_append. lia.
  - rewrite <- Nat.add_assoc, sliceTo_append. f_equal.
    rewrite sliceTo_append. f_equal.
    rewrite <- (Nat.add_0_r (String.length post)), sliceTo_append.
    simpl. by rewrite append_empty_r.
Qed.

Lemma delimited_sound (opener closer : string) :
  opener ≠ "" → closer ≠ "" → sound (delimited opener closer).
Proof.
  intros Ho Hc prev s len g1 g2. unfold delimited.
  destruct (startsWith s opener) eqn:Es; [|done].
  destruct (lazyPlus _ _ _) as [[n u]|] eqn:El; [|done].
  intros [= <- <- <-].
  apply lazyPlus_sound in El as [Hn Hk]. apply lit_sound in Hk.
  apply startsWith_split in Es.
  remember (sliceFrom (String.length opener) s) as body eqn:Eb. clear Eb.
  remember (sliceFrom (String.length closer) (sliceFrom n body)) as rest eqn:Er.
  clear Er. subst s.
  replace (opener +:+ body) with (opener +:+ sliceTo n body +:+ closer +:+ rest)
    by (by rewrite <- Hk, sliceTo_sliceFrom).
  apply wraps_intro; try done.
  rewrite length_sliceTo. lia.
Qed.

Lemma reItalic_sound : sound reItalic.
Proof.
  intros prev s len g1 g2. unfold reItalic.
  destruct s as [|c body]; [done|].
  destruct (isStar c && _); [|done].
  destruct (lazyPlus _ _ _) as [[n u]|] eqn:El; [|done].
  intros [= <- <- <-].
  apply lazyPlus_sound in El as [Hn Hk].
  unfold starNotStar in Hk. destruct (sliceFrom n body) as [|c' r] eqn:Er; [done|].
  replace (String c body)
    with (String c "" +:+ sliceTo n body +:+ String c' "" +:+ r)
    by (rewrite append_cons, append_nil_l; f_equal;
        by rewrite <- (sliceTo_sliceFrom n body) at 2; rewrite Er).
  apply wraps_intro; try done.
  rewrite length_sliceTo. simpl. lia.
Qed.

Lemma reLink_sound : sound reLink.
Proof.
  intros prev s len g1 g2. unfold reLink.
  destruct s as [|c body]; [done|].
  destruct (c =? "[")%char; [|done].
  destruct (lazyPlus _ _ _) as [[n1 [n2 u]]|] eqn:El; [|done].
  intros [= <- <- <-].
  apply lazyPlus_sound in El as [Hn1 Hk].
  unfold linkTail in Hk. destruct (startsWith (sliceFrom n1 body) "](") eqn:Es; [|done].
  apply startsWith_split in Es. cbn [String.length] in Es.
  apply lazyPlus_sound in Hk as [Hn2 Hk]. apply lit_sound in Hk.
  cbn [String.length] in Hk.
  remember (sliceFrom 2 (sliceFrom n1 body)) as tail eqn:Et. clear Et.
  remember (sliceFrom 1 (sliceFrom n2 tail)) as rest eqn:Er. clear Er.
  replace (String c body)
    with (String c "" +:+ sliceTo n1 body
          +:+ ("](" +:+ sliceTo n2 tail +:+ ")") +:+ rest).
  2:{ rewrite append_cons, append_nil_l. f_equal.
      rewrite !append_assoc, <- Hk, sliceTo_sliceFrom, <- Es.
      by rewrite sliceTo_sliceFrom. }
  apply wraps_intro; try done.
  rewrite !length_append, !length_sliceTo. simpl. lia.
Qed.

Lemma scan_sound (re : RegExp) (text : string) :
  sound re →
  ∀ s prev i skip, s = sliceFrom i text →
  Forall (λ r, wraps (matchLength r) (group1 r) (sliceFrom (index r) text))
    (scan re prev i skip s).
Proof.
  intros Hre s. induction s as [|c s IH]; intros prev i skip Hs; [constructor|].
  assert (Hs' : s = sliceFrom (S i) text).
  { rewrite <- Nat.add_1_r, <- sliceFrom_sliceFrom, <- Hs. done. }
  cbn [scan]. destruct skip as [|k]; [|by apply IH].
  destruct (re prev (String c s)) as [[[len g1] g2]|] eqn:E; [|by apply IH].
  constructor; [|by apply IH].
  simpl. rewrite <- Hs. by eapply Hre.
Qed.

Lemma matchAll_sound (re : RegExp) (text : string) :
  sound re →
  Forall (λ r, wraps (matchLength r) (group1 r) (sliceFrom (index r) text))
    (matchAll re text).
Proof. intros Hre. by apply scan_sound. Qed.

Lemma candidate_good (text : string) b i c l (r : RegExpMatch) :
  wraps (matchLength r) (group1 r) (sliceFrom (index r) text) →
  goodMatch text (candidate b i c l r).
Proof.
  intros (pre & post & Hpre & Hpost & Hlen & Hs).
  rewrite length_sliceFrom in Hlen.
  assert (Hpos : 0 < matchLength r).
  { assert (L := f_equal String.length Hs).
    rewrite length_sliceTo, length_sliceFrom, !length_append in L.
    destruct pre; [done|]. simpl in L. lia. }
  unfold goodMatch, candidate. simpl. split_and!; [lia..|].
  exists pre, post. split_and!; try done.
  unfold slice. rewrite <- Hs. f_equal. lia.
Qed.

Lemma pushMatches_good (text : string) (check : bool) b i c l
    (ms : list RegExpMatch) (all : list Match) :
  Forall (λ r, wraps (matchLength r) (group1 r) (sliceFrom (index r) text)) ms →
  Forall (goodMatch text) all →
  Forall (goodMatch text) (pushMatches check (candidate b i c l) all ms).
Proof.
  unfold pushMatches. intros Hms. revert all.
  induction Hms as [|r ms Hr _ IH]; intros all Hall; [done|].
  cbn [fold_left]. apply IH. destruct (check && _); [done|].
  apply Forall_app. split; [done|]. constructor; [|done].
  by apply candidate_good.
Qed.

Lemma allMatches_good (text : string) :
  Forall (goodMatch text) (allMatches text).
Proof.
  unfold allMatches.
  repeat (apply pushMatches_good;
    [apply matchAll_sound;
     first [by apply delimited_sound | apply reItalic_sound | apply reLink_sound]|]).
  constructor.
Qed.

(** *** The sort *)

Lemma insertByStart_Forall (P : Match → Prop) (m : Match) (l : list Match) :
  P m → Forall P l → Forall P (insertByStart m l).
Proof.
  intros Hm Hl. induction Hl as [|x l Hx Hl IH]; simpl.
  - by constructor.
  - destruct (m_start m <=? m_start x); repeat constructor; done.
Qed.

Lemma sortByStart_Forall (P : Match → Prop) (l : list Match) :
  Forall P l → Forall P (sortByStart l).
Proof.
  induction 1 as [|x l Hx _ IH]; simpl; [constructor|].
  by apply insertByStart_Forall.
Qed.

(** sorting *)
Lemma insertByStart_perm (m : Match) (l : list Match) :
  insertByStart m l ≡ₚ m :: l.
Proof.
  induction l as [|x l IH]; simpl; [done|].
  destruct (m_start m <=? m_start x); [done|].
  rewrite IH. apply Permutation_swap.
Qed.

Lemma sortByStart_perm (l : list Match) : sortByStart l ≡ₚ l.
Proof.
  induction l as [|x l IH]; simpl; [done|].
  by rewrite insertByStart_perm, IH.
Qed.

Lemma insertByStart_sorted (m : Match) (l : list Match) :
  Sorted startLe l → Sorted startLe (insertByStart m l).
Proof.
  induction 1 as [|x l Hl IH Hx]; simpl; [repeat constructor|].
  destruct (m_start m <=? m_start x) eqn:E.
  - apply Nat.leb_le in E. repeat constructor; done.
  - apply Nat.leb_gt in E. constructor; [done|].
    destruct l as [|y l]; simpl.
    + constructor. unfold startLe. lia.
    + destruct (m_start m <=? m_start y); constructor.
      * unfold startLe. lia.
      * by inversion Hx.
Qed.

Lemma sortByStart_sorted (l : list Match) : Sorted startLe (sortByStart l).
Proof.
  induction l as [|x l IH]; simpl; [constructor|].
  by apply insertByStart_sorted.
Qed.

(** *** The intervals are ghost state *)

Lemma spanStep_erase (text : string) (pos : nat) (result : list Span) (m : Match) :
  (spanStep text (pos, result) m).1 = (buildStep text (pos, map spanItem result) m).1
  ∧ map spanItem (spanStep text (pos, result) m).2
    = (buildStep text (pos, map spanItem result) m).2.
Proof.
  unfold spanStep, buildStep.
  destruct (m_start m <? pos); [done|].
  destruct (pos <? m_start m); [|by cbn [fst snd]; rewrite map_app].
  destruct (truthy _); cbn [fst snd]; by rewrite !map_app.
Qed.

Lemma spanLoop_erase (text : string) (ms : list Match) (pos : nat) (result : list Span) :
  (fold_left (spanStep text) ms (pos, result)).1
    = (fold_left (buildStep text) ms (pos, map spanItem result)).1
  ∧ map spanItem (fold_left (spanStep text) ms (pos, result)).2
    = (fold_left (buildStep text) ms (pos, map spanItem result)).2.
Proof.
  revert pos result. induction ms as [|m ms IH]; intros pos result; [done|].
  cbn [fold_left].
  destruct (spanStep_erase text pos result m) as [E1 E2].
  destruct (spanStep text (pos, result) m) as [pos' result'].
  destruct (buildStep text (pos, map spanItem result) m) as [pos'' items].
  simpl in E1, E2. subst. apply IH.
Qed.

Lemma spans_erase (text : string) :
  map spanItem (spans text) = parseInlineFormatting text.
Proof.
  unfold spans, parseInlineFormatting.
  destruct (spanLoop_erase text (sortByStart (allMatches text)) 0 []) as [E1 E2].
  destruct (fold_left (spanStep text) _ _) as [pos result].
  destruct (fold_left (buildStep text) _ _) as [pos' items].
  simpl in E1, E2. subst.
  destruct (pos' <? String.length text).
  - rewrite !length_app. simpl. rewrite !Nat.add_1_r. simpl.
    by rewrite map_app.
  - rewrite length_map. destruct result; simpl; done.
Qed.

(** *** The building loop *)

Lemma tiles_le a b l : tiles a b l → a ≤ b.
Proof. induction 1; lia. Qed.

Lemma tiles_app a b c l l' : tiles a b l → tiles b c l' → tiles a c (l ++ l').
Proof. induction 1; intros H'; simpl; [done|]. constructor; auto. Qed.

Lemma tiles_snoc a b c item l :
  tiles a b l → b < c → tiles a c (l ++ [mkSpan b c item]).
Proof.
  intros H Hbc. eapply tiles_app; [done|]. constructor; [done|constructor].
Qed.

Lemma tiles_bounds a b l :
  tiles a b l → Forall (λ sp, a ≤ spanStart sp ∧ spanEnd sp ≤ b) l.
Proof.
  induction 1 as [|a b c item l Hab Hl IH]; constructor.
  - simpl. apply tiles_le in Hl. lia.
  - eapply Forall_impl; [exact IH|]. simpl. intros sp. lia.
Qed.

Lemma tiles_sorted a b l : tiles a b l → StronglySorted before l.
Proof.
  induction 1 as [|a b c item l Hab Hl IH]; constructor; [done|].
  eapply Forall_impl; [exact (tiles_bounds _ _ _ Hl)|].
  unfold before. simpl. intros sp. lia.
Qed.

Lemma tiles_sources text a b l :
  tiles a b l → concatSources text l = slice a b text.
Proof.
  induction 1 as [a|a b c item l Hab Hl IH]; simpl.
  - unfold slice. by rewrite Nat.sub_diag.
  - rewrite IH. unfold sourceOf. simpl. apply slice_split; [lia|].
    by apply tiles_le in Hl.
Qed.

Lemma plain_faithful text a b :
  faithful text (mkSpan a b (plain (slice a b text))).
Proof. reflexivity. Qed.

Lemma wholeSpan_faithful text m : goodMatch text m → faithful text (wholeSpan m).
Proof. intros (_ & _ & pre & post & ? & ? & ?). unfold faithful. simpl. eauto. Qed.

Lemma filter_formatted_app (l l' : list Span) :
  List.filter formatted (l ++ l') = List.filter formatted l ++ List.filter formatted l'.
Proof. apply List.filter_app. Qed.

Lemma spanLoop_built text (ms : list Match) :
  Forall (goodMatch text) ms →
  ∀ pos result, built text pos result →
  built text (fold_left (spanStep text) ms (pos, result)).1
             (fold_left (spanStep text) ms (pos, result)).2
  ∧ List.filter formatted (fold_left (spanStep text) ms (pos, result)).2
    = List.filter formatted result ++ map wholeSpan (emitted pos ms).
Proof.
  induction 1 as [|m ms Hm _ IH]; intros pos result B.
  - simpl. by rewrite app_nil_r.
  - cbn [fold_left emitted]. unfold spanStep at 2 4 6.
    destruct Hm as (Hse & Hend & Hwrap).
    pose proof (wholeSpan_faithful text m (conj Hse (conj Hend Hwrap))) as Fm.
    destruct B as [T Bd F].
    destruct (m_start m <? pos) eqn:E1; [by apply IH|].
    apply Nat.ltb_ge in E1.
    destruct (pos <? m_start m) eqn:E2.
    + apply Nat.ltb_lt in E2. rewrite slice_truthy by lia.
      destruct (IH (m_end m)
        ((result ++ [mkSpan pos (m_start m) (plain (slice pos (m_start m) text))])
           ++ [mkSpan (m_start m) (m_end m) (richTextOf m)])) as [B' E'].
      { split; [|done|].
        - apply tiles_snoc; [|done]. by apply tiles_snoc.
        - apply Forall_app; split; [apply Forall_app; split; [done|]|];
            (constructor; [|constructor]); [apply plain_faithful|exact Fm]. }
      split; [done|]. rewrite E'. rewrite !filter_formatted_app. simpl.
      by rewrite <- !app_assoc.
    + apply Nat.ltb_ge in E2. assert (pos = m_start m) as -> by lia.
      destruct (IH (m_end m)
        (result ++ [mkSpan (m_start m) (m_end m) (richTextOf m)])) as [B' E'].
      { split; [|done|].
        - by apply tiles_snoc.
        - apply Forall_app; split; [done|]. constructor; [exact Fm|constructor]. }
      split; [done|]. rewrite E'. rewrite !filter_formatted_app. simpl.
      by rewrite <- !app_assoc.
Qed.

(** What [spans] returns: the empty text gives one empty plain span, any
    other text is tiled by its spans. *)
Lemma spans_built (text : string) :
  (text = "" ∧ spans text = [mkSpan 0 0 (plain "")])
  ∨ (tiles 0 (String.length text) (spans text)
     ∧ Forall (faithful text) (spans text))
.
Proof.
  unfold spans.
  destruct (spanLoop_built text _
    (sortByStart_Forall _ _ (allMatches_good text)) 0 [])
    as [[T Bd F] _]; [split; [constructor|lia|constructor]|].
  destruct (fold_left _ _ _) as [pos result]. simpl in T, Bd, F.
  destruct (pos <? String.length text) eqn:E.
  - apply Nat.ltb_lt in E. right.
    rewrite length_app. simpl. rewrite Nat.add_1_r. simpl. split.
    + by apply tiles_snoc.
    + apply Forall_app. split; [done|]. repeat constructor.
      rewrite <- slice_to_end. apply plain_faithful.
  - apply Nat.ltb_ge in E. assert (pos = String.length text) as -> by lia.
    destruct result as [|sp result]; simpl.
    + left. inversion T as [a Ha|]. destruct text; [done|]. simpl in *. lia.
    + right. done.
Qed.

Lemma spans_formatted (text : string) :
  List.filter formatted (spans text)
  = map wholeSpan (emitted 0 (sortByStart (allMatches text))).
Proof.
  unfold spans.
  destruct (spanLoop_built text _
    (sortByStart_Forall _ _ (allMatches_good text)) 0 [])
    as [_ E]; [split; [constructor|lia|constructor]|].
  destruct (fold_left _ _ _) as [pos result]. simpl in E.
  destruct (pos <? String.length text).
  - rewrite length_app. simpl. rewrite Nat.add_1_r. simpl.
    rewrite filter_formatted_app, E. simpl. by rewrite app_nil_r.
  - destruct result as [|sp result]; [|done]. simpl in *. by rewrite <- E.
Qed.

Lemma plain_contents text (l : list Span) :
  Forall (faithful text) l →
  Forall (λ item, annotations item = None) (map spanItem l) →
  concatContents (map spanItem l) = concatSources text l.
Proof.
  induction 1 as [|sp l Hsp _ IH]; [done|]. simpl.
  intros [Hn Hl]%Forall_cons. unfold faithful in Hsp. rewrite Hn in Hsp.
  by rewrite Hsp, IH.
Qed.

Lemma spans_sources (text : string) : concatSources text (spans text) = text.
Proof.
  destruct (spans_built text) as [[-> ->]|[T _]]; [done|].
  rewrite (tiles_sources _ _ _ _ T). apply slice_all.
Qed.

Lemma spans_faithful (text : string) : Forall (faithful text) (spans text).
Proof.
  destruct (spans_built text) as [[-> ->]|[_ F]]; [|done].
  repeat constructor.
Qed.

Example partial_overlap_dropped :
  allMatches "**a _b** c_"
    = [mkMatch 0 8 "a _b" (Some true) None None None;
       mkMatch 4 11 "b** c" None (Some true) None None]
  ∧ map (λ sp, (spanStart sp, spanEnd sp, content (spanItem sp)))
      (spans "**a _b** c_")
    = [(0, 8, "a _b"); (8, 11, " c_")].
Proof. split; reflexivity. Qed.

(** *** Blocks hold segmented text *)

Lemma collectWhile_Forall {A} (g : string → option A) (P : A → Prop)
    (lines : list string) :
  (∀ l a, g l = Some a → P a) → Forall P (collectWhile g lines).1.
Proof.
  intros Hg. induction lines as [|l rest IH]; simpl; [constructor|].
  destruct (g l) as [a|] eqn:E; [|constructor].
  destruct (collectWhile g rest) as [acc r]. simpl in *.
  constructor; [by eapply Hg|done].
Qed.

Lemma nestedBullet_segmented (l : string) (child : Block) :
  nestedBullet l = Some child → segmentedChild child.
Proof.
  unfold nestedBullet. destruct (matchNestedBullet l) as [t|]; [|done].
  intros [= <-]. by exists t.
Qed.

Lemma quoteChild_segmented (quoteLines : list string) :
  Forall segmentedChild (quoteChild quoteLines).
Proof.
  unfold quoteChild. destruct (0 <? length quoteLines); repeat constructor.
  by eexists.
Qed.

Lemma bulletItems_segmented (fuel : nat) (lines : list string) :
  Forall segmentedBlock (bulletItems fuel lines).1.
Proof.
  revert lines. induction fuel as [|fuel IH]; intros lines; [by destruct lines|].
  destruct lines as [|l rest]; [constructor|]. cbn [bulletItems].
  destruct (testBullet l); [|constructor].
  pose proof (collectWhile_Forall nestedBullet segmentedChild rest
                nestedBullet_segmented) as Hn.
  destruct (collectWhile nestedBullet rest) as [nested rest1].
  destruct (collectWhile matchNestedQuote rest1) as [qs rest2].
  pose proof (IH rest2) as Hb.
  destruct (bulletItems fuel rest2) as [blocks rest3]. simpl in *.
  constructor; [|done]. split; [by eexists|].
  apply Forall_app. split; [done|apply quoteChild_segmented].
Qed.

Lemma iteration_segmented (lines : list string) :
  Forall segmentedBlock (iteration lines).1.
Proof.
  destruct lines as [|l rest]; [constructor|]. unfold iteration.
  destruct (isEmpty (trim l)); [constructor|].
  destruct (startsWith l "```").
  { destruct (collectWhile codeLine rest). repeat constructor. by eexists. }
  destruct (startsWith l "# "); [repeat constructor; by eexists|].
  destruct (startsWith l "## "); [repeat constructor; by eexists|].
  destruct (startsWith l "### "); [repeat constructor; by eexists|].
  destruct (testBullet l); [apply bulletItems_segmented|].
  destruct (testNumbered l).
  { destruct (collectWhile matchNumbered (l :: rest)) as [items r]. simpl.
    induction items; constructor; [by eexists|done]. }
  destruct (startsWith l "> ").
  { destruct (collectWhile quoteLine (l :: rest)). repeat constructor. by eexists. }
  destruct (collectWhile paragraphLine (l :: rest)) as [ps r]. simpl.
  destruct (0 <? length ps); repeat constructor. by eexists.
Qed.

Lemma loop_segmented (fuel : nat) (lines : list string) (blocks out : list Block) :
  Forall segmentedBlock blocks → loop fuel lines blocks = Some out →
  Forall segmentedBlock out.
Proof.
  revert lines blocks. induction fuel as [|fuel IH]; intros lines blocks Hb.
  - destruct lines; [|done]. by intros [= <-].
  - destruct lines as [|l rest]; [by intros [= <-]|]. cbn [loop].
    pose proof (iteration_segmented (l :: rest)) as Hi.
    destruct (iteration (l :: rest)) as [pushed rest']. simpl in Hi.
    apply IH. by apply Forall_app.
Qed.

Lemma markdownToBlocks_segmented (fuel : nat) (markdown : string) (blocks : list Block) :
  markdownToBlocks fuel markdown = Some blocks → Forall segmentedBlock blocks.
Proof. apply loop_segmented. constructor. Qed.

(** *** The markup of a span, exactly *)

Lemma delimitedBy_intro (pre g post rest : string) (len : nat) :
  g ≠ "" →
  len = String.length pre + String.length g + String.length post →
  delimitedBy pre post len g (pre +:+ g +:+ post +:+ rest).
Proof.
  intros Hg ->. split_and!; [done| |].
  - rewrite !length_append. lia.
  - replace (String.length pre + String.length g + String.length post)
      with (String.length (pre +:+ g +:+ post))
      by (rewrite !length_append; lia).
    rewrite <- (sliceTo_prefix (pre +:+ g +:+ post) rest) at 2.
    by rewrite !append_assoc.
Qed.

Lemma delimited_exact (opener closer : string) prev s len g1 g2 :
  delimited opener closer prev s = Some (len, g1, g2) →
  delimitedBy opener closer len g1 s.
Proof.
  unfold delimited.
  destruct (startsWith s opener) eqn:Es; [|done].
  destruct (lazyPlus _ _ _) as [[n u]|] eqn:El; [|done].
  intros [= <- <- <-].
  apply lazyPlus_sound in El as [Hn Hk]. apply lit_sound in Hk.
  apply startsWith_split in Es.
  remember (sliceFrom (String.length opener) s) as body eqn:Eb. clear Eb.
  pose proof (sliceTo_nonempty n body Hn) as Hne.
  assert (Ln : String.length (sliceTo n body) = n) by (rewrite length_sliceTo; lia).
  remember (sliceFrom (String.length closer) (sliceFrom n body)) as rest eqn:Er.
  clear Er. subst s.
  replace (opener +:+ body) with (opener +:+ sliceTo n body +:+ closer +:+ rest)
    by (by rewrite <- Hk, sliceTo_sliceFrom).
  apply delimitedBy_intro; [done|]. by rewrite Ln.
Qed.

Lemma reItalic_exact prev s len g1 g2 :
  reItalic prev s = Some (len, g1, g2) → delimitedBy "*" "*" len g1 s.
Proof.
  unfold reItalic. destruct s as [|c body]; [done|].
  destruct (isStar c) eqn:Ec; [|done]. cbn [andb].
  destruct (negb _); [|done].
  destruct (lazyPlus _ _ _) as [[n u]|] eqn:El; [|done].
  intros [= <- <- <-].
  apply lazyPlus_sound in El as [Hn Hk].
  pose proof (sliceTo_nonempty n body Hn) as Hne.
  assert (Ln : String.length (sliceTo n body) = n) by (rewrite length_sliceTo; lia).
  unfold starNotStar in Hk. destruct (sliceFrom n body) as [|c' r] eqn:Er; [done|].
  destruct (isStar c') eqn:Ec'; [|done].
  apply Ascii.eqb_eq in Ec, Ec'. subst c c'.
  replace (String "*" body)
    with ("*" +:+ sliceTo n body +:+ "*" +:+ r)
    by (rewrite append_cons, append_nil_l; f_equal;
        by rewrite <- (sliceTo_sliceFrom n body) at 2; rewrite Er).
  apply delimitedBy_intro; [done|]. rewrite Ln. simpl. lia.
Qed.

Lemma reLink_exact prev s len g1 g2 :
  reLink prev s = Some (len, g1, g2) →
  g2 ≠ "" ∧ delimitedBy "[" ("](" +:+ g2 +:+ ")") len g1 s.
Proof.
  unfold reLink. destruct s as [|c body]; [done|].
  destruct (Ascii.eqb_spec c "[") as [->|]; [|done].
  destruct (lazyPlus _ _ _) as [[n1 [n2 u]]|] eqn:El; [|done].
  intros [= <- <- <-].
  apply lazyPlus_sound in El as [Hn1 Hk].
  unfold linkTail in Hk. destruct (startsWith (sliceFrom n1 body) "](") eqn:Es; [|done].
  apply startsWith_split in Es. cbn [String.length] in Es.
  apply lazyPlus_sound in Hk as [Hn2 Hk]. apply lit_sound in Hk.
  cbn [String.length] in Hk.
  replace (sliceFrom (n1 + 2) body) with (sliceFrom 2 (sliceFrom n1 body))
    by apply sliceFrom_sliceFrom.
  remember (sliceFrom 2 (sliceFrom n1 body)) as tail eqn:Et. clear Et.
  pose proof (sliceTo_nonempty n1 body Hn1) as Hne1.
  pose proof (sliceTo_nonempty n2 tail Hn2) as Hne2.
  assert (L1 : String.length (sliceTo n1 body) = n1) by (rewrite length_sliceTo; lia).
  assert (L2 : String.length (sliceTo n2 tail) = n2) by (rewrite length_sliceTo; lia).
  split; [done|].
  remember (sliceFrom 1 (sliceFrom n2 tail)) as rest eqn:Er. clear Er.
  replace (String "[" body)
    with ("[" +:+ sliceTo n1 body
          +:+ ("](" +:+ sliceTo n2 tail +:+ ")") +:+ rest).
  2:{ rewrite append_cons, append_nil_l. f_equal.
      rewrite !append_assoc, <- Hk, sliceTo_sliceFrom, <- Es.
      by rewrite sliceTo_sliceFrom. }
  apply delimitedBy_intro; [done|].
  rewrite !length_append, L1, L2. simpl. lia.
Qed.

Lemma scan_Forall (re : RegExp) (Q : nat → string → string → string → Prop)
    (text : string) :
  (∀ prev s len g1 g2, re prev s = Some (len, g1, g2) → Q len g1 g2 s) →
  ∀ s prev i skip, s = sliceFrom i text →
  Forall (λ r, Q (matchLength r) (group1 r) (group2 r) (sliceFrom (index r) text))
    (scan re prev i skip s).
Proof.
  intros Hre s. induction s as [|c s IH]; intros prev i skip Hs; [constructor|].
  assert (Hs' : s = sliceFrom (S i) text).
  { rewrite <- Nat.add_1_r, <- sliceFrom_sliceFrom, <- Hs. done. }
  cbn [scan]. destruct skip as [|k]; [|by apply IH].
  destruct (re prev (String c s)) as [[[len g1] g2]|] eqn:E; [|by apply IH].
  constructor; [|by apply IH].
  simpl. rewrite <- Hs. by eapply Hre.
Qed.

Lemma delimitedBy_match (text pre post : string) (r : RegExpMatch)
    (mk : RegExpMatch → Match) :
  m_start (mk r) = index r → m_end (mk r) = index r + matchLength r →
  delimitedBy pre post (matchLength r) (group1 r) (sliceFrom (index r) text) →
  pre ≠ "" →
  markedUp (pre +:+ group1 r +:+ post) (richTextOf (mk r)) →
  exactMatch text (mk r).
Proof.
  intros Hs He (Hg & Hlen & Hsl) Hpre Hm.
  rewrite length_sliceFrom in Hlen.
  assert (Hpos : 0 < matchLength r).
  { assert (L := f_equal String.length Hsl).
    rewrite length_sliceTo, length_sliceFrom, !length_append in L.
    destruct pre; [done|]. simpl in L. lia. }
  unfold exactMatch. rewrite Hs, He. split_and!; [lia..|].
  unfold slice. replace (index r + matchLength r - index r) with (matchLength r) by lia.
  by rewrite Hsl.
Qed.

Lemma pushMatches_exact (text : string) (check : bool) (mk : RegExpMatch → Match)
    (ms : list RegExpMatch) (all : list Match) :
  Forall (λ r, exactMatch text (mk r)) ms →
  Forall (exactMatch text) all →
  Forall (exactMatch text) (pushMatches check mk all ms).
Proof.
  unfold pushMatches. intros Hms. revert all.
  induction Hms as [|r ms Hr _ IH]; intros all Hall; [done|].
  cbn [fold_left]. apply IH. destruct (check && _); [done|].
  apply Forall_app. split; [done|]. by constructor.
Qed.

Lemma allMatches_exact (text : string) :
  Forall (exactMatch text) (allMatches text).
Proof.
  unfold allMatches, matchAll, reBoldItalic, reBold, reUnderscore, reCode.
  repeat apply pushMatches_exact; [| | | | | |constructor].
  - eapply Forall_impl.
    + apply (scan_Forall reLink
               (λ len g1 g2 s, g2 ≠ "" ∧ delimitedBy "[" ("](" +:+ g2 +:+ ")") len g1 s)
               text reLink_exact); done.
    + intros r [Hg2 Hd]. cbn beta in Hd.
      eapply delimitedBy_match; [done|done|exact Hd|done|].
      destruct Hd as [Hg1 _]. unfold richTextOf, candidate. cbn.
      unfold truthy. destruct (group2 r) as [|c u] eqn:E; [done|]. cbn.
      by constructor.
  - eapply Forall_impl.
    + apply (scan_Forall _ (λ len g1 g2 s, delimitedBy "`" "`" len g1 s) text
               (delimited_exact "`" "`")); done.
    + intros r Hd. cbn beta in Hd.
      eapply delimitedBy_match; [done|done|exact Hd|done|].
      destruct Hd as [Hg1 _]. by constructor.
  - eapply Forall_impl.
    + apply (scan_Forall _ (λ len g1 g2 s, delimitedBy "_" "_" len g1 s) text
               (delimited_exact "_" "_")); done.
    + intros r Hd. cbn beta in Hd.
      eapply delimitedBy_match; [done|done|exact Hd|done|].
      destruct Hd as [Hg1 _]. by constructor.
  - eapply Forall_impl.
    + apply (scan_Forall _ (λ len g1 g2 s, delimitedBy "*" "*" len g1 s) text
               reItalic_exact); done.
    + intros r Hd. cbn beta in Hd.
      eapply delimitedBy_match; [done|done|exact Hd|done|].
      destruct Hd as [Hg1 _]. by constructor.
  - eapply Forall_impl.
    + apply (scan_Forall _ (λ len g1 g2 s, delimitedBy "**" "**" len g1 s) text
               (delimited_exact "**" "**")); done.
    + intros r Hd. cbn beta in Hd.
      eapply delimitedBy_match; [done|done|exact Hd|done|].
      destruct Hd as [Hg1 _]. by constructor.
  - eapply Forall_impl.
    + apply (scan_Forall _ (λ len g1 g2 s, delimitedBy "***" "***" len g1 s) text
               (delimited_exact "***" "***")); done.
    + intros r Hd. cbn beta in Hd.
      eapply delimitedBy_match; [done|done|exact Hd|done|].
      destruct Hd as [Hg1 _]. by constructor.
Qed.

Lemma spanLoop_exact (text : string) (ms : list Match) :
  Forall (exactMatch text) ms →
  ∀ pos result, Forall (exact text) result →
  Forall (exact text) (fold_left (spanStep text) ms (pos, result)).2.
Proof.
  induction 1 as [|m ms Hm _ IH]; intros pos result F; [done|].
  cbn [fold_left]. unfold spanStep at 2.
  destruct (m_start m <? pos); [by apply IH|].
  assert (Fm : exact text (mkSpan (m_start m) (m_end m) (richTextOf m))).
  { destruct Hm as (_ & _ & Hm). exact Hm. }
  assert (Fp : exact text (mkSpan pos (m_start m) (plain (slice pos (m_start m) text)))).
  { reflexivity. }
  assert (Snoc : ∀ l sp, Forall (exact text) l → exact text sp →
                   Forall (exact text) (l ++ [sp])).
  { intros l sp Hl Hsp. apply Forall_app. split; [done|]. by constructor. }
  destruct (pos <? m_start m); [destruct (truthy _)|]; apply IH; auto.
Qed.

Lemma spans_exact (text : string) : Forall (exact text) (spans text).
Proof.
  unfold spans.
  pose proof (spanLoop_exact text _
    (sortByStart_Forall _ _ (allMatches_exact text)) 0 [] (Forall_nil_2 _)) as F.
  destruct (fold_left _ _ _) as [pos result]. simpl in F.
  assert (Ft : exact text (mkSpan pos (String.length text) (plain (sliceFrom pos text)))).
  { unfold exact, sourceOf. cbn [annotations spanItem plain spanStart spanEnd].
    by rewrite slice_to_end. }
  assert (Fw : exact text (mkSpan 0 (String.length text) (plain text))).
  { unfold exact, sourceOf. cbn [annotations spanItem plain spanStart spanEnd].
    by rewrite slice_all. }
  destruct (pos <? String.length text).
  - rewrite length_app. simpl. rewrite Nat.add_1_r. simpl.
    apply Forall_app. split; [done|]. by repeat constructor.
  - destruct result as [|sp result]; simpl; [by repeat constructor|done].
Qed.

(** *** The order of the candidates *)

Lemma insertByStart_stable (k : nat) (m : Match) (l : list Match) :
  startingAt k (insertByStart m l) = startingAt k (m :: l).
Proof.
  unfold startingAt. induction l as [|x l IH]; [done|]. cbn [insertByStart].
  destruct (m_start m <=? m_start x) eqn:E; [done|].
  apply Nat.leb_gt in E.
  destruct (decide (m_start x = k)) as [Hx|Hx].
  - rewrite (filter_cons_True _ x) by done. rewrite IH.
    assert (Hm : m_start m ≠ k) by lia.
    rewrite !(filter_cons_False _ m) by done.
    by rewrite filter_cons_True.
  - rewrite (filter_cons_False _ x) by done. rewrite IH.
    destruct (decide (m_start m = k)) as [Hm|Hm].
    + rewrite !(filter_cons_True _ m) by done. by rewrite filter_cons_False.
    + rewrite !(filter_cons_False _ m) by done. by rewrite filter_cons_False.
Qed.

Lemma sortByStart_stable (k : nat) (l : list Match) :
  startingAt k (sortByStart l) = startingAt k l.
Proof.
  induction l as [|x l IH]; [done|]. cbn [sortByStart foldr].
  fold (sortByStart l). rewrite insertByStart_stable.
  unfold startingAt in *. destruct (decide (m_start x = k)).
  - rewrite !filter_cons_True by done. by rewrite IH.
  - rewrite !filter_cons_False by done. by rewrite IH.
Qed.

Lemma startLe_trans : Transitive startLe.
Proof. intros a b c. unfold startLe. lia. Qed.

Lemma emitted_or_inside (l : list Match) :
  StronglySorted startLe l →
  ∀ pos m, m ∈ l →
    m ∈ emitted pos l
    ∨ m_start m < pos
    ∨ ∃ e, e ∈ emitted pos l ∧ startsInside m e.
Proof.
  induction 1 as [|x l Hl IH Hx]; intros pos m Hm; [by apply elem_of_nil in Hm|].
  cbn [emitted]. apply elem_of_cons in Hm as [->|Hm].
  - destruct (m_start x <? pos) eqn:E.
    + apply Nat.ltb_lt in E. auto.
    + left. left.
  - destruct (m_start x <? pos) eqn:E.
    + apply IH, Hm.
    + destruct (IH (m_end x) m Hm) as [H|[H|(e & He & Hi)]].
      * left. by right.
      * right. right. exists x. split; [left|].
        rewrite Forall_forall in Hx. specialize (Hx m Hm).
        unfold startLe in Hx. by split.
      * right. right. exists e. split; [by right|done].
Qed.

Lemma emitted_sublist (l : list Match) (pos : nat) : emitted pos l ⊆ l.
Proof.
  revert pos. induction l as [|x l IH]; intros pos; [done|]. cbn [emitted].
  destruct (m_start x <? pos).
  - intros m Hm. right. by eapply IH.
  - intros m [->|Hm]%elem_of_cons; [left|right; by eapply IH].
Qed.

Lemma emitted_spans (text : string) (m : Match) :
  m ∈ emitted 0 (sortByStart (allMatches text)) → wholeSpan m ∈ spans text.
Proof.
  intros Hm.
  assert (H : wholeSpan m ∈ List.filter formatted (spans text)).
  { rewrite spans_formatted. by apply list_elem_of_fmap_2. }
  apply list_elem_of_In, List.filter_In in H as [H _]. by apply list_elem_of_In.
Qed.

Lemma dropped_inside (text : string) (m : Match) :
  m ∈ allMatches text →
  wholeSpan m ∈ spans text
  ∨ ∃ e, e ∈ allMatches text ∧ wholeSpan e ∈ spans text ∧ startsInside m e.
Proof.
  intros Hm.
  assert (Hs : m ∈ sortByStart (allMatches text)) by (by rewrite sortByStart_perm).
  pose proof (Sorted_StronglySorted startLe_trans (sortByStart_sorted (allMatches text))) as S.
  destruct (emitted_or_inside _ S 0 m Hs) as [H|[H|(e & He & Hi)]].
  - left. by apply emitted_spans.
  - lia.
  - right. exists e. split_and!; [|by apply emitted_spans|done].
    apply emitted_sublist in He. by rewrite sortByStart_perm in He.
Qed.

Lemma sorted_pair {A} (R : A → A → Prop) (l : list A) (x y : A) :
  StronglySorted R l → x ∈ l → y ∈ l → x = y ∨ R x y ∨ R y x.
Proof.
  induction 1 as [|a l Hl IH Ha]; intros Hx Hy; [by apply elem_of_nil in Hx|].
  rewrite Forall_forall in Ha.
  apply elem_of_cons in Hx as [->|Hx]; apply elem_of_cons in Hy as [->|Hy]; auto.
Qed.

Lemma emitted_apart (text : string) (m e : Match) :
  wholeSpan m ∈ spans text → wholeSpan e ∈ spans text → startsInside m e →
  wholeSpan m = wholeSpan e.
Proof.
  intros Hm He [H1 H2].
  assert (S : StronglySorted before (spans text)).
  { destruct (spans_built text) as [[_ ->]|[T _]]; [repeat constructor|].
    by eapply tiles_sorted. }
  destruct (sorted_pair before _ _ _ S Hm He) as [E|[[B1 B2]|[B1 B2]]]; [done|..];
    cbn [wholeSpan spanStart spanEnd] in B1, B2; lia.
Qed.

(** C1, as the design document states it, fails: the delimiters of a match
    are in the source and in no span. The paragraph [This is **bold** text]
    has the spans [This is ], [bold] and [ text]. *)
Lemma bold_markers_dropped :
  markdownToBlocks 2 "This is **bold** text"
    = Some [Paragraph (parseInlineFormatting "This is **bold** text")]
  ∧ concatContents (parseInlineFormatting "This is **bold** text")
    = "This is bold text"
  ∧ concatContents (parseInlineFormatting "This is **bold** text")
    ≠ "This is **bold** text".
Proof. split_and!; [reflexivity|reflexivity|]. vm_compute. discriminate. Qed.

(** C1, amended. Every block [markdownToBlocks] returns holds one plain
    span (a code block) or the spans of a text. The spans of a text lie on
    consecutive non-empty intervals from 0 to the length of the text (the
    empty text has one empty plain span), so every character of the text
    is in exactly one interval. A plain span is exactly the text of its
    interval. A formatted span is the text of its interval without its
    delimiters: three stars, two stars, one star, an underscore or a
    backtick on both sides of the content, or, for a link, the brackets
    around the content and the parenthesised URL after it; its
    annotations and its link are those of that kind. So the contents
    concatenate to the text when no span is formatted. *)
Theorem spans_reconstruct_source :
  (∀ fuel markdown blocks,
     markdownToBlocks fuel markdown = Some blocks →
     Forall segmentedBlock blocks)
  ∧ ∀ text,
      map spanItem (spans text) = parseInlineFormatting text
      ∧ ((text = "" ∧ spans text = [mkSpan 0 0 (plain "")])
         ∨ tiles 0 (String.length text) (spans text))
      ∧ concatSources text (spans text) = text
      ∧ Forall (faithful text) (spans text)
      ∧ Forall (exact text) (spans text)
      ∧ (Forall (λ item, annotations item = None) (parseInlineFormatting text) →
         concatContents (parseInlineFormatting text) = text).
Proof.
  split; [exact markdownToBlocks_segmented|]. intros text.
  split_and!;
    [apply spans_erase| |apply spans_sources|apply spans_faithful
    |apply spans_exact|].
  - destruct (spans_built text) as [H|[T _]]; [by left|by right].
  - rewrite <- spans_erase. intros H.
    rewrite (plain_contents text _ (spans_faithful text) H). apply spans_sources.
Qed.

Lemma spans_reconstruct_source_witness :
  Forall (λ item, annotations item = None) (parseInlineFormatting "plain words")
  ∧ concatContents (parseInlineFormatting "plain words") = "plain words".
Proof.
  assert (H : Forall (λ item, annotations item = None)
                (parseInlineFormatting "plain words")).
  { repeat constructor. }
  split; [exact H|].
  exact (proj2 (proj2 (proj2 (proj2 (proj2
    (proj2 spans_reconstruct_source "plain words"))))) H).
Defined.

(** C10. The spans of a text lie on intervals that are pairwise disjoint
    and strictly increasing. The candidates are put in the order of their
    starts, those with the same start staying in the order they were found
    in. The formatted spans are the candidates, in that order, that do not
    start before the end of the one emitted before them, each on its whole
    interval. So every candidate is a span, whole, or starts inside an
    emitted candidate that starts no later; and a candidate that starts
    inside another emitted one is no span: it is dropped, never cut. *)
Theorem spans_disjoint_increasing (text : string) :
  map spanItem (spans text) = parseInlineFormatting text
  ∧ StronglySorted before (spans text)
  ∧ List.filter formatted (spans text)
    = map wholeSpan (emitted 0 (sortByStart (allMatches text)))
  ∧ sortByStart (allMatches text) ≡ₚ allMatches text
  ∧ Sorted startLe (sortByStart (allMatches text))
  ∧ (∀ k, startingAt k (sortByStart (allMatches text))
          = startingAt k (allMatches text))
  ∧ (∀ m, m ∈ allMatches text →
       wholeSpan m ∈ spans text
       ∨ ∃ e, e ∈ allMatches text ∧ wholeSpan e ∈ spans text
              ∧ startsInside m e)
  ∧ ∀ m e, wholeSpan m ∈ spans text → wholeSpan e ∈ spans text →
      startsInside m e → wholeSpan m = wholeSpan e.
Proof.
  split_and!;
    [apply spans_erase| |apply spans_formatted|apply sortByStart_perm
    |apply sortByStart_sorted|intros k; apply sortByStart_stable
    |apply dropped_inside|apply emitted_apart].
  destruct (spans_built text) as [[_ ->]|[T _]].
  - repeat constructor.
  - by eapply tiles_sorted.
Qed.

Lemma spans_disjoint_increasing_witness :
  mkMatch 4 11 "b** c" None (Some true) None None ∈ allMatches "**a _b** c_"
  ∧ (wholeSpan (mkMatch 4 11 "b** c" None (Some true) None None)
       ∈ spans "**a _b** c_"
     ∨ ∃ e, e ∈ allMatches "**a _b** c_" ∧ wholeSpan e ∈ spans "**a _b** c_"
            ∧ startsInside (mkMatch 4 11 "b** c" None (Some true) None None) e).
Proof.
  assert (H : mkMatch 4 11 "b** c" None (Some true) None None
              ∈ allMatches "**a _b** c_").
  { apply list_elem_of_In. right. left. reflexivity. }
  split; [exact H|].
  exact (proj1 (proj2 (proj2 (proj2 (proj2 (proj2 (proj2
    (spans_disjoint_increasing "**a _b** c_")))))))
    (mkMatch 4 11 "b** c" None (Some true) None None) H).
Defined.

End Segmentor.

(* ================================================================= *)
(** ** The block tokenizer *)
(* ================================================================= *)

Section Tokenizer.

(** *** The loops over lines *)

Lemma collectWhile_stop {A} (g : string → option A) (l : string) (rest : list string) :
  g l = None → collectWhile g (l :: rest) = ([], l :: rest).
Proof. intros H. simpl. by rewrite H. Qed.

Lemma collectWhile_run {A} (g : string → option A) (run rest : list string)
    (out : list A) :
  Forall2 (λ l a, g l = Some a) run out → stopsAt g rest →
  collectWhile g (run ++ rest) = (out, rest).
Proof.
  intros Hrun Hrest. induction Hrun as [|l a run out Hl _ IH]; simpl.
  - destruct rest as [|l rest]; [done|]. simpl in *. by rewrite Hrest.
  - by rewrite Hl, IH.
Qed.

Lemma collectWhile_suffix {A} (g : string → option A) (lines : list string) :
  (collectWhile g lines).2 `suffix_of` lines.
Proof.
  induction lines as [|l rest IH]; simpl; [done|].
  destruct (g l); [|done].
  destruct (collectWhile g rest) as [acc r]. simpl in *.
  by apply suffix_cons_r.
Qed.

Lemma collectWhile_progress {A} (g : string → option A) (l : string)
    (rest : list string) (a : A) :
  g l = Some a → (collectWhile g (l :: rest)).2 `suffix_of` rest.
Proof.
  intros H. simpl. rewrite H.
  pose proof (collectWhile_suffix g rest) as S.
  by destruct (collectWhile g rest).
Qed.

Lemma bulletItems_suffix (fuel : nat) (lines : list string) :
  (bulletItems fuel lines).2 `suffix_of` lines.
Proof.
  revert lines. induction fuel as [|fuel IH]; intros lines; [by destruct lines|].
  destruct lines as [|l rest]; [done|]. cbn [bulletItems].
  destruct (testBullet l); [|done].
  pose proof (collectWhile_suffix nestedBullet rest) as S1.
  destruct (collectWhile nestedBullet rest) as [nested rest1].
  pose proof (collectWhile_suffix matchNestedQuote rest1) as S2.
  destruct (collectWhile matchNestedQuote rest1) as [qs rest2].
  pose proof (IH rest2) as S3.
  destruct (bulletItems fuel rest2) as [blocks rest3]. simpl in *.
  apply suffix_cons_r. by repeat (etrans; [eassumption|]).
Qed.

Lemma bulletItems_progress (fuel : nat) (l : string) (rest : list string) :
  testBullet l = true → (bulletItems (S fuel) (l :: rest)).2 `suffix_of` rest.
Proof.
  intros H. cbn [bulletItems]. rewrite H.
  pose proof (collectWhile_suffix nestedBullet rest) as S1.
  destruct (collectWhile nestedBullet rest) as [nested rest1].
  pose proof (collectWhile_suffix matchNestedQuote rest1) as S2.
  destruct (collectWhile matchNestedQuote rest1) as [qs rest2].
  pose proof (bulletItems_suffix fuel rest2) as S3.
  destruct (bulletItems fuel rest2) as [blocks rest3]. simpl in *.
  by repeat (etrans; [eassumption|]).
Qed.

Lemma suffix_tail {A} (l k : list A) : l `suffix_of` k → tail l `suffix_of` k.
Proof.
  intros H. etrans; [|exact H]. destruct l; [done|]. simpl.
  by apply suffix_cons_r.
Qed.

Lemma testBullet_marker (c : ascii) (s : string) :
  isBulletMarker c = false → testBullet (String c s) = false.
Proof. intros H. destruct s; [done|]. simpl. by rewrite H. Qed.

(** *** Lines the main loop never gets past *)

Lemma iteration_stuck (line : string) (rest : list string) :
  stuckLine line = true → iteration (line :: rest) = ([], line :: rest).
Proof.
  unfold stuckLine. intros H.
  apply andb_true_iff in H as [H H3]. apply andb_true_iff in H as [H H2].
  apply andb_true_iff in H as [H0 H1].
  apply negb_true_iff in H1, H2, H3.
  destruct line as [|c s]; [done|].
  apply startsWith_head in H0 as <-.
  unfold iteration. rewrite trim_nonempty by done.
  rewrite H1, H2, H3.
  change (startsWith (String "#" s) "```") with false.
  rewrite testBullet_marker by done.
  change (testNumbered (String "#" s)) with false.
  change (startsWith (String "#" s) "> ") with false.
  cbv iota. rewrite collectWhile_stop; [done|].
  unfold paragraphLine. 
  change (startsWith (String "#" s) "#") with true.
  by rewrite andb_false_r.
Qed.

Lemma loop_stuck (lines : list string) :
  lines ≠ [] → iteration lines = ([], lines) →
  ∀ fuel blocks, loop fuel lines blocks = None.
Proof.
  intros Hne Hit fuel. induction fuel as [|fuel IH]; intros blocks.
  - by destruct lines.
  - destruct lines as [|l ls]; [done|]. cbn [loop]. rewrite Hit. apply IH.
Qed.

Lemma four_hashes_stuck (line : string) :
  startsWith line "####" = true → stuckLine line = true.
Proof.
  intros H.
  destruct line as [|c0 [|c1 [|c2 [|c3 s]]]]; cbn [startsWith] in H;
    rewrite ?andb_false_r in H; try discriminate H.
  repeat (apply andb_true_iff in H as [?%Ascii.eqb_eq H]); subst.
  reflexivity.
Qed.

(** Every pass over a line that is not stuck takes that line. *)
Lemma iteration_progress (l : string) (rest : list string) :
  stuckLine l = false → (iteration (l :: rest)).2 `suffix_of` rest.
Proof.
  intros Hs. unfold iteration.
  destruct (isEmpty (trim l)) eqn:Eblank; [done|].
  destruct (startsWith l "```") eqn:Efence.
  { pose proof (collectWhile_suffix codeLine rest) as S.
    destruct (collectWhile codeLine rest) as [codeLines rest1]. simpl in *.
    by apply suffix_tail. }
  destruct (startsWith l "# ") eqn:E1; [done|].
  destruct (startsWith l "## ") eqn:E2; [done|].
  destruct (startsWith l "### ") eqn:E3; [done|].
  destruct (testBullet l) eqn:Eb.
  { by apply bulletItems_progress. }
  destruct (testNumbered l) eqn:En.
  { unfold testNumbered in En. destruct (matchNumbered l) as [a|] eqn:Em; [|done].
    pose proof (collectWhile_progress matchNumbered l rest a Em) as S.
    by destruct (collectWhile matchNumbered (l :: rest)). }
  destruct (startsWith l "> ") eqn:Eq.
  { assert (Hq : quoteLine l = Some (sliceFrom 2 l)).
    { unfold quoteLine. by rewrite Eq. }
    pose proof (collectWhile_progress quoteLine l rest _ Hq) as S.
    by destruct (collectWhile quoteLine (l :: rest)). }
  assert (Hp : paragraphLine l = Some l).
  { unfold paragraphLine. rewrite Eblank, Efence, Eq, Eb, En.
    unfold stuckLine in Hs. rewrite E1, E2, E3 in Hs. cbn [negb] in Hs.
    rewrite !andb_true_r in Hs. by rewrite Hs. }
  pose proof (collectWhile_progress paragraphLine l rest _ Hp) as S.
  by destruct (collectWhile paragraphLine (l :: rest)).
Qed.

(** Without a stuck line the main loop ends within one pass per line. *)
Lemma loop_terminates (fuel : nat) (lines : list string) (blocks : list Block) :
  Forall (λ l, stuckLine l = false) lines → length lines ≤ fuel →
  is_Some (loop fuel lines blocks).
Proof.
  revert lines blocks. induction fuel as [|fuel IH]; intros lines blocks Hl Hf.
  - destruct lines; [by eexists|simpl in Hf; lia].
  - destruct lines as [|l rest]; [by eexists|]. cbn [loop].
    apply Forall_cons in Hl as [Hs Hl].
    pose proof (iteration_progress l rest Hs) as S.
    destruct (iteration (l :: rest)) as [pushed rest']. simpl in S.
    apply IH.
    + destruct S as [k ->]. by apply Forall_app in Hl as [_ ?].
    + apply suffix_length in S. simpl in Hf. lia.
Qed.

(** examples *)
(** More fuel never changes an answer. *)
Lemma loop_fuel_mono (fuel fuel' : nat) (lines : list string)
    (blocks out : list Block) :
  fuel ≤ fuel' → loop fuel lines blocks = Some out →
  loop fuel' lines blocks = Some out.
Proof.
  revert fuel' lines blocks.
  induction fuel as [|fuel IH]; intros fuel' lines blocks Hle.
  - destruct lines; [|done]. intros [= <-]. by destruct fuel'.
  - destruct lines as [|l rest]; [intros [= <-]; by destruct fuel'|].
    destruct fuel' as [|fuel']; [lia|]. cbn [loop].
    destruct (iteration (l :: rest)) as [pushed rest']. apply IH. lia.
Qed.

Example empty_input : markdownToBlocks 1 "" = Some [].
Proof. reflexivity. Qed.

Example heading_one :
  markdownToBlocks 2 "# Heading One" = Some [Heading1 [plain "Heading One"]].
Proof. reflexivity. Qed.

(** C2. The design document asks for a total function. On the one-line
    input [#### text] no amount of fuel is enough: the line is no heading,
    the paragraph loop refuses it, and the main loop comes back to it with
    [i] unchanged. *)
Theorem markdownToBlocks_never_returns_on_hashes (fuel : nat) :
  markdownToBlocks fuel "#### text" = None.
Proof.
  unfold markdownToBlocks.
  change (split LF "#### text") with ["#### text"].
  apply loop_stuck; [done|]. by apply iteration_stuck.
Qed.

(** C3. A line of four or more hashes is no heading and reaches the
    paragraph branch, but the paragraph loop refuses every line that starts
    with a hash: the pass pushes nothing and leaves the line in place, so
    the main loop never ends and the line is never made a paragraph. *)
Theorem four_hashes_never_consumed (line : string) (rest : list string) :
  startsWith line "####" = true →
  paragraphLine line = None
  ∧ iteration (line :: rest) = ([], line :: rest)
  ∧ ∀ fuel blocks, loop fuel (line :: rest) blocks = None.
Proof.
  intros H. pose proof (four_hashes_stuck _ H) as Hs.
  pose proof (iteration_stuck line rest Hs) as Hi.
  split_and!; [|done|by apply loop_stuck].
  destruct line as [|c s]; [done|]. apply startsWith_head in H as <-.
  unfold paragraphLine. change (startsWith (String "#" s) "#") with true.
  by rewrite andb_false_r.
Qed.

Lemma four_hashes_never_consumed_witness :
  startsWith "#### text" "####" = true
  ∧ iteration ["#### text"; "next"] = ([], ["#### text"; "next"]).
Proof.
  split; [reflexivity|].
  exact (proj1 (proj2 (four_hashes_never_consumed "#### text" ["next"] eq_refl))).
Defined.

(** *** Fenced code *)

Lemma codeLine_run (body : list string) :
  Forall (λ l, startsWith l "```" = false) body →
  Forall2 (λ l a, codeLine l = Some a) body body.
Proof.
  induction 1 as [|l body Hl _ IH]; constructor; [|done].
  unfold codeLine. by rewrite Hl.
Qed.

Lemma fence_iteration (line : string) (rest : list string) :
  startsWith line "```" = true →
  iteration (line :: rest) =
    (let '(codeLines, rest1) := collectWhile codeLine rest in
     ([Code [plain (join nl codeLines)]
         (mapLanguage (orElse (trim (sliceFrom 3 line)) "plain text"))],
      tail rest1)).
Proof.
  intros H. unfold iteration. rewrite H.
  destruct line as [|c s]; [done|].
  cbn [startsWith] in H. apply andb_true_iff in H as [<-%Ascii.eqb_eq _].
  by rewrite trim_nonempty.
Qed.

(** C8. From a line that starts with three backticks, the lines up to the
    next such line (taken as the closer) or up to the end of the input are
    taken as they are; the pass pushes one code block whose only span is
    those lines joined by a line feed, not parsed for inline formatting. An
    unterminated fence takes every line that is left and the call returns
    that one block. An empty language token gives [plain text]. *)
Theorem code_fence_consumes_verbatim (line : string) (body rest : list string) :
  startsWith line "```" = true →
  Forall (λ l, startsWith l "```" = false) body →
  let language := mapLanguage (orElse (trim (sliceFrom 3 line)) "plain text") in
  let block := Code [plain (join nl body)] language in
  (∀ closer, startsWith closer "```" = true →
     iteration (line :: body ++ closer :: rest) = ([block], rest))
  ∧ iteration (line :: body) = ([block], [])
  ∧ (∀ fuel blocks, loop (S fuel) (line :: body) blocks = Some (blocks ++ [block]))
  ∧ (Forall (λ l, noLF l = true) (line :: body) →
     ∀ fuel, markdownToBlocks (S fuel) (join nl (line :: body)) = Some [block])
  ∧ (trim (sliceFrom 3 line) = "" → language = "plain text").
Proof.
  intros Hopen Hbody language block.
  assert (Hclosed : ∀ closer, startsWith closer "```" = true →
     iteration (line :: body ++ closer :: rest) = ([block], rest)).
  { intros closer Hc. rewrite fence_iteration by done.
    rewrite (collectWhile_run codeLine body (closer :: rest) body).
    - done.
    - by apply codeLine_run.
    - simpl. unfold codeLine. by rewrite Hc. }
  assert (Hopened : iteration (line :: body) = ([block], [])).
  { rewrite fence_iteration by done.
    rewrite <- (app_nil_r body) at 1.
    rewrite (collectWhile_run codeLine body [] body); [done| |done].
    by apply codeLine_run. }
  assert (Hloop : ∀ fuel blocks,
    loop (S fuel) (line :: body) blocks = Some (blocks ++ [block])).
  { intros fuel blocks. cbn [loop]. rewrite Hopened. by destruct fuel. }
  split_and!; try done.
  - intros Hlf fuel. unfold markdownToBlocks.
    rewrite split_join by done. apply Hloop.
  - intros Hempty. subst language. rewrite Hempty. reflexivity.
Qed.

Lemma code_fence_consumes_verbatim_witness :
  iteration ("```js" :: ["let **x**;"; "# y"] ++ "```" :: ["after"])
    = ([Code [plain ("let **x**;" +:+ nl +:+ "# y")] "javascript"], ["after"])
  ∧ markdownToBlocks 1 (join nl ["```js"; "let **x**;"; "# y"])
    = Some [Code [plain ("let **x**;" +:+ nl +:+ "# y")] "javascript"].
Proof.
  assert (Hopen : startsWith "```js" "```" = true) by reflexivity.
  assert (Hbody : Forall (λ l, startsWith l "```" = false) ["let **x**;"; "# y"]).
  { repeat constructor. }
  destruct (code_fence_consumes_verbatim "```js" ["let **x**;"; "# y"] ["after"]
              Hopen Hbody) as (Hclosed & _ & _ & Hwhole & _).
  split.
  - exact (Hclosed "```" eq_refl).
  - apply Hwhole. repeat constructor.
Defined.

(** *** Bullet runs *)

Lemma bullet_not_nested (l : string) :
  testBullet l = true → matchNestedBullet l = None ∧ matchNestedQuote l = None.
Proof.
  destruct l as [|c [|w s]]; try done. cbn [testBullet].
  intros [Hc _]%andb_true_iff.
  assert (Hw : isWhiteSpace c = false).
  { unfold isBulletMarker in Hc.
    apply orb_true_iff in Hc as [->%Ascii.eqb_eq| ->%Ascii.eqb_eq]; done. }
  unfold matchNestedBullet, matchNestedQuote. cbn [leading]. by rewrite Hw.
Qed.

Lemma quote_not_nested_bullet (l r : string) :
  matchNestedQuote l = Some r → matchNestedBullet l = None.
Proof.
  unfold matchNestedQuote, matchNestedBullet.
  destruct (1 <=? leading isWhiteSpace l); [|done].
  destruct (sliceFrom (leading isWhiteSpace l) l) as [|c s]; [done|].
  destruct (Ascii.eqb_spec c ">") as [->|]; [|done]. intros _.
  destruct (2 <=? _); [|done]. by destruct s.
Qed.

Lemma nestedBullet_run (src : list (string * string)) :
  Forall (λ p, matchNestedBullet p.1 = Some p.2) src →
  Forall2 (λ l a, nestedBullet l = Some a) (map fst src)
    (map (λ p, BulletedListItem (parseInlineFormatting p.2) []) src).
Proof.
  induction 1 as [|p src Hp _ IH]; constructor; [|done].
  unfold nestedBullet. by rewrite Hp.
Qed.

Lemma nestedQuote_run (src : list (string * string)) :
  Forall (λ p, matchNestedQuote p.1 = Some p.2) src →
  Forall2 (λ l a, matchNestedQuote l = Some a) (map fst src) (map snd src).
Proof. induction 1; by constructor. Qed.

Lemma quoteChild_spec (src : list (string * string)) :
  quoteChild (map snd src) =
    match src with
    | [] => []
    | _ :: _ => [Quote (parseInlineFormatting (join nl (map snd src)))]
    end.
Proof. by destruct src. Qed.

Lemma nestedBullet_None (l : string) :
  matchNestedBullet l = None ↔ nestedBullet l = None.
Proof. unfold nestedBullet. by destruct (matchNestedBullet l). Qed.

Lemma endsRun_tail (it : ItemSource) (items : list ItemSource) (rest : list string) :
  endsRun (it :: items) rest → endsRun items rest.
Proof.
  destruct rest as [|l rest]; [done|]. simpl. intros [Hb H]. split; [done|].
  destruct items as [|it' items]; [done|]. exact H.
Qed.

(** What follows the quote lines of an item stops the quote loop, and what
    follows an item without quote lines stops the nested bullet loop. *)
Lemma after_item_stops (it : ItemSource) (items : list ItemSource)
    (rest : list string) :
  Forall wellFormedItem items → endsRun (it :: items) rest →
  stopsAt matchNestedQuote (flat_map itemLines items ++ rest)
  ∧ (quoteSource it = [] →
     stopsAt nestedBullet (flat_map itemLines items ++ rest)).
Proof.
  intros Hitems Hrest. destruct items as [|it' items]; simpl.
  - destruct rest as [|l rest]; [done|]. simpl in *.
    destruct Hrest as (_ & Hq & Hb). split; [done|].
    intros H. by apply nestedBullet_None, Hb.
  - apply Forall_cons in Hitems as [(Hb & _) _].
    apply bullet_not_nested in Hb as [Hn Hq]. split; [done|].
    intros _. by apply nestedBullet_None.
Qed.

Lemma bulletItems_run (items : list ItemSource) (rest : list string) (fuel : nat) :
  Forall wellFormedItem items → endsRun items rest →
  length items ≤ fuel →
  bulletItems fuel (flat_map itemLines items ++ rest) = (map itemBlock items, rest).
Proof.
  intros Hitems. revert fuel.
  induction Hitems as [|it items Hit Hitems IH]; intros fuel Hrest Hfuel.
  - simpl. destruct fuel as [|fuel]; [done|]. destruct rest as [|l rest]; [done|].
    simpl in *. destruct Hrest as (-> & _). done.
  - destruct fuel as [|fuel]; [simpl in Hfuel; lia|].
    destruct (after_item_stops it items rest Hitems Hrest) as [Sq Sn].
    destruct Hit as (Hb & Hn & Hq).
    cbn [flat_map]. unfold itemLines at 1.
    rewrite <- !app_comm_cons, <- !app_assoc.
    cbn [bulletItems map]. rewrite Hb.
    rewrite (collectWhile_run nestedBullet _ _ _ (nestedBullet_run _ Hn)).
    2:{ destruct (quoteSource it) as [|q qs]; [by apply Sn|]. simpl.
        apply Forall_cons in Hq as [Hq _]. apply nestedBullet_None.
        by eapply quote_not_nested_bullet. }
    rewrite (collectWhile_run matchNestedQuote _ _ _ (nestedQuote_run _ Hq) Sq).
    rewrite IH; [|by eapply endsRun_tail|simpl in Hfuel; lia].
    rewrite quoteChild_spec. reflexivity.
Qed.

Lemma length_flat_map_itemLines (items : list ItemSource) :
  length items ≤ length (flat_map itemLines items).
Proof.
  induction items as [|it items IH]; simpl; [lia|].
  rewrite length_app. lia.
Qed.

Lemma bullet_iteration (line : string) (rest : list string) :
  testBullet line = true → iteration (line :: rest) = bulletRun (line :: rest).
Proof.
  intros H. unfold iteration. rewrite H.
  destruct line as [|c [|w s]]; try done.
  cbn [testBullet] in H. apply andb_true_iff in H as [Hc _].
  unfold isBulletMarker in Hc.
  apply orb_true_iff in Hc as [->%Ascii.eqb_eq| ->%Ascii.eqb_eq];
    by rewrite trim_nonempty.
Qed.

(** Every list of lines is a bullet run (empty when the first line is no
    bullet line) followed by lines that end it. *)
Lemma collectWhile_split {A} (g : string → option A) (lines : list string) :
  ∃ run, lines = run ++ (collectWhile g lines).2
         ∧ Forall2 (λ l a, g l = Some a) run (collectWhile g lines).1
         ∧ stopsAt g (collectWhile g lines).2.
Proof.
  induction lines as [|l rest (run & E & F & S)]; simpl.
  - by exists [].
  - destruct (g l) as [a|] eqn:Eg.
    + destruct (collectWhile g rest) as [acc r]. simpl in *.
      exists (l :: run). split_and!; [by rewrite E at 1|by constructor|done].
    + by exists [].
Qed.

Lemma nested_sources (run : list string) (out : list Block) :
  Forall2 (λ l a, nestedBullet l = Some a) run out →
  ∃ src, run = map fst src ∧ Forall (λ p, matchNestedBullet p.1 = Some p.2) src.
Proof.
  induction 1 as [|l a run out Hl _ (src & -> & F)]; [by exists []|].
  unfold nestedBullet in Hl. destruct (matchNestedBullet l) as [t|] eqn:E; [|done].
  exists ((l, t) :: src). split; [done|]. by constructor.
Qed.

Lemma quote_sources (run out : list string) :
  Forall2 (λ l a, matchNestedQuote l = Some a) run out →
  ∃ src, run = map fst src ∧ Forall (λ p, matchNestedQuote p.1 = Some p.2) src.
Proof.
  induction 1 as [|l a run out Hl _ (src & -> & F)]; [by exists []|].
  exists ((l, a) :: src). split; [done|]. by constructor.
Qed.

Lemma bullet_run_decomposition (fuel : nat) (lines : list string) :
  length lines ≤ fuel →
  ∃ items rest,
    lines = flat_map itemLines items ++ rest
    ∧ Forall wellFormedItem items ∧ endsRun items rest.
Proof.
  revert lines. induction fuel as [|fuel IH]; intros lines Hf.
  { destruct lines; [|simpl in Hf; lia]. by exists [], []. }
  destruct lines as [|l rest]; [by exists [], []|].
  destruct (testBullet l) eqn:Hb; [|by exists [], (l :: rest)].
  destruct (collectWhile_split nestedBullet rest) as (nrun & E1 & F1 & S1).
  destruct (collectWhile nestedBullet rest) as [nested rest1]. simpl in *.
  destruct (collectWhile_split matchNestedQuote rest1) as (qrun & E2 & F2 & S2).
  destruct (collectWhile matchNestedQuote rest1) as [qs rest2]. simpl in *.
  destruct (nested_sources _ _ F1) as (nsrc & -> & Hn).
  destruct (quote_sources _ _ F2) as (qsrc & -> & Hq).
  destruct (IH rest2) as (items & rest' & E3 & Hitems & Hrest).
  { subst rest rest1. rewrite !length_app in Hf. simpl in Hf. lia. }
  exists (mkItemSource l nsrc qsrc :: items), rest'. split_and!.
  - cbn [flat_map]. unfold itemLines at 1. simpl.
    rewrite E1, E2, E3. by rewrite <- !app_assoc.
  - constructor; [|done]. by split_and!.
  - destruct items as [|it' items].
    + simpl in E3. subst rest2. destruct rest' as [|l' rest']; [done|].
      simpl in Hrest |- *. destruct Hrest as [Hb' _]. split; [done|].
      simpl in S2. split; [done|]. intros ->. simpl in E2. subst rest1.
      simpl in S1. by apply nestedBullet_None.
    + destruct rest' as [|l' rest']; [done|]. exact Hrest.
Qed.

(** The fuel of [bulletItems] is idle: any amount from the number of lines
    on gives the same answer. *)
Lemma bulletItems_fuel (fuel fuel' : nat) (lines : list string) :
  length lines ≤ fuel → length lines ≤ fuel' →
  bulletItems fuel lines = bulletItems fuel' lines.
Proof.
  intros H H'.
  destruct (bullet_run_decomposition fuel lines H) as (items & rest & -> & Hi & Hr).
  pose proof (length_flat_map_itemLines items) as L.
  rewrite length_app in H, H'.
  rewrite !bulletItems_run; try done; lia.
Qed.

(** So every input of the bullet branch is covered by the item view. *)
Lemma bulletRun_items (lines : list string) :
  ∃ items rest,
    lines = flat_map itemLines items ++ rest
    ∧ Forall wellFormedItem items ∧ endsRun items rest
    ∧ bulletRun lines = (map itemBlock items, rest).
Proof.
  destruct (bullet_run_decomposition (length lines) lines (le_n _))
    as (items & rest & E & Hi & Hr).
  exists items, rest. split_and!; try done.
  unfold bulletRun. rewrite E at 2. apply bulletItems_run; try done.
  rewrite E, length_app. pose proof (length_flat_map_itemLines items). lia.
Qed.

(** Lines indented by spaces, as the design document describes them. *)
Lemma leading_spaces (n : nat) (c : ascii) (s : string) :
  isWhiteSpace c = false →
  leading isWhiteSpace (spaces n +:+ String c s) = n
  ∧ sliceFrom n (spaces n +:+ String c s) = String c s.
Proof.
  intros Hc. induction n as [|n [IH1 IH2]].
  - simpl. by rewrite Hc.
  - cbn [spaces]. rewrite append_cons. cbn [leading sliceFrom].
    change (isWhiteSpace " ") with true. cbv iota. by rewrite IH1, IH2.
Qed.

Lemma bulletMarker_not_space (c : ascii) :
  isBulletMarker c = true → isWhiteSpace c = false.
Proof.
  unfold isBulletMarker.
  by intros [->%Ascii.eqb_eq| ->%Ascii.eqb_eq]%orb_true_iff.
Qed.

Lemma matchNestedBullet_spaces (n : nat) (marker : ascii) (text : string) :
  2 ≤ n → isBulletMarker marker = true →
  matchNestedBullet (spaces n +:+ String marker (String " " text)) = Some text.
Proof.
  intros Hn Hm. unfold matchNestedBullet.
  destruct (leading_spaces n marker (String " " text)) as [-> ->].
  { by apply bulletMarker_not_space. }
  rewrite Hm. apply Nat.leb_le in Hn. by rewrite Hn.
Qed.

Lemma matchNestedQuote_spaces (n : nat) (text : string) :
  1 ≤ n →
  matchNestedQuote (spaces n +:+ String ">" (String " " text)) = Some text.
Proof.
  intros Hn. unfold matchNestedQuote.
  destruct (leading_spaces n ">" (String " " text)) as [-> ->]; [done|].
  apply Nat.leb_le in Hn. by rewrite Hn.
Qed.

Example nested_quote_child :
  markdownToBlocks 3
    ("- [Page Title](https://example.com)" +:+ nl +:+ "  > quoted text")
  = Some
      [BulletedListItem
         [mkRichTextItem "Page Title" (Some "https://example.com")
            (Some (mkAnnotations false false false false false "default"))]
         [Quote [plain "quoted text"]]].
Proof. reflexivity. Qed.

(** C5. In a bullet run, each item gets as children one bullet item per
    nested bullet line right after its own line, then, when nested quote
    lines follow, one quote block made of their texts joined by a line
    feed; an item with neither has no children, and the quote goes to the
    item right before it and to no other. *)
Theorem bullet_run_children (items : list ItemSource) (rest : list string) :
  Forall wellFormedItem items → endsRun items rest → items ≠ [] →
  bulletRun (flat_map itemLines items ++ rest) = (map itemBlock items, rest)
  ∧ iteration (flat_map itemLines items ++ rest) = (map itemBlock items, rest)
  ∧ (Forall (λ l, noLF l = true) (flat_map itemLines items) →
     ∀ fuel,
       markdownToBlocks (S fuel) (join nl (flat_map itemLines items))
       = Some (map itemBlock items)).
Proof.
  intros Hitems Hrest Hne.
  assert (R : ∀ rest, endsRun items rest →
    bulletRun (flat_map itemLines items ++ rest) = (map itemBlock items, rest)).
  { intros rest' Hrest'. unfold bulletRun. apply bulletItems_run; [done..|].
    rewrite length_app. pose proof (length_flat_map_itemLines items). lia. }
  assert (I : ∀ rest, endsRun items rest →
    iteration (flat_map itemLines items ++ rest) = (map itemBlock items, rest)).
  { intros rest' Hrest'. specialize (R rest' Hrest').
    destruct items as [|it items]; [done|].
    apply Forall_cons in Hitems as [(Hb & _) _].
    cbn [flat_map] in *. unfold itemLines at 1. unfold itemLines in R at 1.
    rewrite <- !app_comm_cons in *.
    by rewrite bullet_iteration. }
  split_and!; [by apply R|by apply I|].
  intros Hlf fuel. unfold markdownToBlocks.
  assert (Hlines : flat_map itemLines items ≠ []).
  { destruct items as [|it items]; [done|]. discriminate. }
  rewrite split_join by done.
  specialize (I [] Logic.I). rewrite app_nil_r in I.
  destruct (flat_map itemLines items) as [|l ls]; [done|].
  cbn [loop]. rewrite I. by destruct fuel.
Qed.

Lemma bullet_run_children_witness :
  iteration ["- a"; "  - n"; "  > q1"; " > q2"; "* b"; "para"]
  = ([BulletedListItem [plain "a"]
        [BulletedListItem [plain "n"] [];
         Quote [plain ("q1" +:+ nl +:+ "q2")]];
      BulletedListItem [plain "b"] []],
     ["para"]).
Proof.
  pose (a := mkItemSource "- a" [("  - n", "n")] [("  > q1", "q1"); (" > q2", "q2")]).
  pose (b := mkItemSource "* b" [] []).
  assert (Hitems : Forall wellFormedItem [a; b]).
  { repeat constructor. }
  assert (Hrest : endsRun [a; b] ["para"]).
  { repeat constructor. }
  assert (Hne : [a; b] ≠ []) by discriminate.
  exact (proj1 (proj2 (bullet_run_children [a; b] ["para"] Hitems Hrest Hne))).
Defined.

End Tokenizer.

(* ================================================================= *)
(** ** The HTML normalizer *)
(* ================================================================= *)

Section Normalizer.

(** *** Tables *)

Lemma fold_left_append (f : list string → string) (l : list (list string)) (acc : string) :
  fold_left (λ result row, result +:+ f row) l acc
  = acc +:+ foldr String.append "" (map f l).
Proof.
  revert acc. induction l as [|r l IH]; intros acc; simpl.
  - by rewrite append_empty_r.
  - rewrite IH. by rewrite append_assoc.
Qed.

Lemma collectRow_loop (l rows0 : list (list string)) (m0 : nat) :
  fold_left collectRow l (rows0, m0)
  = (rows0 ++ survivingRows l, Nat.max m0 (columnCount (survivingRows l))).
Proof.
  revert rows0 m0. induction l as [|cells l IH]; intros rows0 m0; simpl.
  - by rewrite app_nil_r, Nat.max_0_r.
  - unfold survivingRows, columnCount in *. destruct cells as [|c cells]; simpl.
    + rewrite IH. rewrite filter_cons_False; [done|]. by intros [].
    + rewrite IH. rewrite filter_cons_True by done. simpl.
      rewrite <- app_assoc. simpl. f_equal. lia.
Qed.

Lemma length_padRow (n : nat) (row : list string) :
  length row ≤ n → length (padRow n row) = n.
Proof. intros H. unfold padRow. rewrite length_app, length_replicate. lia. Qed.

Lemma columnCount_bound (rows : list (list string)) (r : list string) :
  r ∈ rows → length r ≤ columnCount rows.
Proof.
  unfold columnCount. induction 1 as [r l|r r' l _ IH]; simpl; lia.
Qed.

Lemma replaceChar_escaped (b : bool) (s : string) :
  pipesEscapedFrom b (replaceChar "|" "\|" s) = true.
Proof.
  revert b. induction s as [|c s IH]; intros b; [done|]. simpl.
  destruct (Ascii.eqb_spec c "|") as [->|Hc].
  - unfold String.app. simpl. rewrite IH. by destruct b.
  - simpl. rewrite IH. apply Ascii.eqb_neq in Hc. rewrite Hc. done.
Qed.

Lemma cellsWith_escaped rec (trChildren : list Node) :
  Forall (λ c, pipesEscaped c = true) (cellsWith rec trChildren).
Proof.
  unfold cellsWith.
  assert (G : ∀ acc, Forall (λ c, pipesEscaped c = true) acc →
    Forall (λ c, pipesEscaped c = true)
      (fold_left
        (λ cells cell,
          match cell with
          | ElementNode tagName _ cellChildren =>
              let tag := toLowerCase tagName in
              if String.eqb tag "td" || String.eqb tag "th" then
                cells ++ [replaceChar "|" "\|" (trim (processNodeWith rec tag cellChildren))]
              else cells
          | _ => cells
          end) trChildren acc)).
  { induction trChildren as [|cell l IH]; intros acc Hacc; simpl; [done|].
    apply IH. destruct cell as [|t a cs|]; try done. simpl.
    destruct (_ || _); [|done]. apply Forall_app. split; [done|].
    constructor; [|done]. apply replaceChar_escaped. }
  by apply G.
Qed.

Lemma cellsWith_spec (trChildren : list Node) :
  cellsWith processElement trChildren
  = map renderCell (List.filter isCell trChildren).
Proof.
  unfold cellsWith.
  assert (G : ∀ acc,
    fold_left
      (λ cells cell,
        match cell with
        | ElementNode tagName _ cellChildren =>
            let tag := toLowerCase tagName in
            if String.eqb tag "td" || String.eqb tag "th" then
              cells ++ [replaceChar "|" "\|"
                          (trim (processNodeWith processElement tag cellChildren))]
            else cells
        | _ => cells
        end) trChildren acc
    = acc ++ map renderCell (List.filter isCell trChildren)).
  { induction trChildren as [|cell l IH]; intros acc; simpl.
    - by rewrite app_nil_r.
    - rewrite IH. destruct cell as [d|t a cs|d]; simpl; try done.
      destruct (_ || _); [|done]. simpl. by rewrite <- app_assoc. }
  apply G.
Qed.

Lemma trCellsWith_escaped rec (node : Node) :
  Forall (Forall (λ c, pipesEscaped c = true)) (trCellsWith rec node).
Proof.
  revert node. fix IH 1. intros [d|t a cs|d]; simpl; try constructor.
  apply Forall_app. split.
  - destruct (String.eqb _ _); [|constructor]. constructor; [|constructor].
    apply cellsWith_escaped.
  - induction cs as [|c cs IHcs]; simpl; [constructor|].
    apply Forall_app. split; [apply IH|apply IHcs].
Qed.

Lemma tableCells_escaped (tableEl : Node) :
  Forall (Forall (λ c, pipesEscaped c = true)) (tableCells tableEl).
Proof.
  destruct tableEl as [d|t a cs|d]; simpl; try constructor.
  induction cs as [|c cs IHcs]; simpl; [constructor|].
  apply Forall_app. split; [apply trCellsWith_escaped|apply IHcs].
Qed.

Example table_rows_padded :
  processTable
    (ElementNode "TABLE" []
       [ElementNode "TR" [] [ElementNode "TH" [] [TextNode "A|a"];
                             ElementNode "TH" [] [TextNode "B"]];
        ElementNode "TR" [] [];
        ElementNode "TR" [] [ElementNode "TD" [] [TextNode " 1 "]]])
  = "| A\|a | B |" +:+ nl +:+ "| --- | --- |" +:+ nl +:+ "| 1 |  |" +:+ nl.
Proof. reflexivity. Qed.

(** *** The table, written out *)

Lemma trCellsWith_rows (node : Node) :
  trCellsWith processElement node = map rowCells (trElements node).
Proof.
  revert node. fix IH 1. intros [d|t a cs|d]; [done| |done].
  cbn [trCellsWith trElements]. rewrite map_app. f_equal.
  - destruct (String.eqb _ _); [|done]. cbn [map rowCells].
    by rewrite cellsWith_spec.
  - induction cs as [|c cs IHcs]; [done|]. cbn [flat_map].
    by rewrite map_app, IH, IHcs.
Qed.

Lemma tableCells_rows (tableEl : Node) : tableCells tableEl = htmlRows tableEl.
Proof.
  destruct tableEl as [d|t a cs|d]; [done| |done]. cbn [tableCells htmlRows].
  induction cs as [|c cs IH]; [done|]. cbn [flat_map].
  by rewrite map_app, trCellsWith_rows, IH.
Qed.

Lemma emitRow_rowLine (cells : list string) :
  cells ≠ [] → emitRow cells = rowLine cells.
Proof.
  intros Hne. unfold emitRow, rowLine.
  change ("| " +:+ join " | " cells +:+ " |" +:+ nl)
    with ("|" +:+ (" " +:+ join " | " cells +:+ " |" +:+ nl)).
  f_equal. destruct cells as [|c cells]; [done|]. clear Hne.
  revert c. induction cells as [|c' cells IH]; intros c; [done|].
  change (join " | " (c :: c' :: cells)) with (c +:+ " | " +:+ join " | " (c' :: cells)).
  cbn [foldr] in IH |- *. rewrite <- (IH c'). by rewrite !append_assoc.
Qed.

Lemma barePipes_cell (cell rest : string) (escaped : bool) :
  pipesEscapedFrom escaped cell = true →
  barePipesFrom escaped (cell +:+ String " " rest) = barePipesFrom false rest.
Proof.
  revert escaped. induction cell as [|c cell IH]; intros escaped; [done|].
  cbn [pipesEscapedFrom]. intros [H1 H2]%andb_prop.
  rewrite append_cons. cbn [barePipesFrom]. rewrite (IH _ H2).
  destruct (c =? "|")%char, escaped; done.
Qed.

Lemma barePipes_cells (cells : list string) (escaped : bool) :
  Forall (λ cell, pipesEscaped cell = true) cells →
  barePipesFrom escaped (foldr (λ cell rest, " " +:+ cell +:+ " |" +:+ rest) nl cells)
  = length cells.
Proof.
  intros H. revert escaped. induction H as [|cell cells Hc _ IH]; intros escaped.
  - by destruct escaped.
  - cbn [foldr length].
    change (" " +:+ cell +:+ " |" +:+ ?r) with (String " " (cell +:+ String " " (String "|" r))).
    cbn [barePipesFrom]. change (" " =? "|")%char with false.
    change (" " =? "\")%char with false. cbn [andb Nat.add].
    rewrite (barePipes_cell _ _ _ Hc). cbn [barePipesFrom].
    change ("|" =? "|")%char with true. change ("|" =? "\")%char with false.
    cbn [negb andb]. by rewrite IH.
Qed.

Lemma barePipes_rowLine (cells : list string) :
  Forall (λ cell, pipesEscaped cell = true) cells →
  barePipes (rowLine cells) = length cells + 1.
Proof.
  intros H. unfold barePipes, rowLine.
  change ("|" +:+ ?r) with (String "|" r). cbn [barePipesFrom].
  change ("|" =? "|")%char with true. change ("|" =? "\")%char with false.
  cbn [negb andb]. rewrite (barePipes_cells _ _ H). lia.
Qed.

Lemma survivingRows_nonempty (l : list (list string)) :
  Forall (λ row, row ≠ []) (survivingRows l).
Proof.
  unfold survivingRows. apply Forall_forall. intros r Hr.
  apply list_elem_of_filter in Hr. tauto.
Qed.

Lemma processTable_text (tableEl : Node) :
  let rows := survivingRows (htmlRows tableEl) in
  let columns := columnCount rows in
  processTable tableEl = tableMarkdown (map (padded columns) rows) columns.
Proof.
  intros rows columns. subst rows columns. rewrite <- tableCells_rows.
  destruct tableEl as [d|t a cs|d]; [done| |done].
  unfold processTable, processTableWith, renderTable.
  rewrite collectRow_loop. cbn [app Nat.max].
  change (flat_map (trCellsWith processElement) cs)
    with (tableCells (ElementNode t a cs)).
  pose proof (survivingRows_nonempty (tableCells (ElementNode t a cs))) as Hne.
  set (rows := survivingRows (tableCells (ElementNode t a cs))) in *.
  set (columns := columnCount rows).
  assert (Hb : ∀ r, r ∈ rows → length r ≤ columns).
  { intros r Hr. by apply columnCount_bound. }
  clearbody columns. clearbody rows.
  destruct rows as [|first others]; [done|].
  apply Forall_cons in Hne as [Hf Ho].
  cbn [map tableMarkdown].
  assert (P : ∀ r, padRow columns r = padded columns r) by done.
  assert (N : ∀ r, r ≠ [] → padded columns r ≠ []).
  { intros r Hr. unfold padded. by destruct r. }
  assert (Hb1 : length first ≤ columns) by (apply Hb; left).
  assert (L : length (padded columns first) = columns).
  { unfold padded. rewrite length_app, length_replicate. lia. }
  assert (C1 : 1 ≤ columns).
  { destruct first; [done|]. simpl in Hb1. lia. }
  rewrite fold_left_append, !P.
  rewrite (emitRow_rowLine (padded columns first)) by auto.
  replace (map (λ _, "---") (padded columns first)) with (replicate columns "---").
  2:{ rewrite <- L at 1. generalize (padded columns first).
      intros l. induction l; simpl; congruence. }
  rewrite (emitRow_rowLine (replicate columns "---")) by (by destruct columns; [lia|]).
  rewrite <- append_assoc. f_equal.
  clear Hb L Hf. induction Ho as [|r others Hr _ IH]; [done|].
  cbn [map foldr]. rewrite P, emitRow_rowLine by auto. by rewrite IH.
Qed.

(** C4. The rows of the emitted table are the rows of the HTML table
    (its [tr] elements in document order, each with its [td] and [th]
    children rendered) that have at least one cell, each padded with empty
    cells to the largest cell count among them. With no such row nothing
    is emitted. Otherwise the text is, written out: the first row as the
    header, a separator row with one [---] per column, then the other
    rows, each row as a pipe, then a space, the cell, a space and a pipe
    for every cell, then a line feed. Every pipe in a cell has a backslash
    before it, so every emitted row, the separator too, has exactly one
    pipe without a backslash more than there are columns. *)
Theorem processTable_normalized (tableEl : Node) :
  let rows := survivingRows (htmlRows tableEl) in
  let columns := columnCount rows in
  let emittedRows := map (padded columns) rows in
  processTable tableEl = tableMarkdown emittedRows columns
  ∧ Forall (λ row, length row = columns) emittedRows
  ∧ Forall (Forall (λ cell, pipesEscaped cell = true)) emittedRows
  ∧ Forall (λ row, barePipes (rowLine row) = columns + 1)
      (emittedRows ++ [replicate columns "---"])
  ∧ (rows = [] → processTable tableEl = "").
Proof.
  intros rows columns emittedRows.
  pose proof (processTable_text tableEl) as E. cbn zeta in E.
  fold rows columns emittedRows in E.
  assert (L : Forall (λ row, length row = columns) emittedRows).
  { apply Forall_forall. intros r Hr.
    apply list_elem_of_fmap in Hr as (r0 & -> & Hr0).
    unfold padded. rewrite length_app, length_replicate.
    pose proof (columnCount_bound rows r0 Hr0). fold columns in H. lia. }
  assert (P : Forall (Forall (λ cell, pipesEscaped cell = true)) emittedRows).
  { apply Forall_forall. intros r Hr.
    apply list_elem_of_fmap in Hr as (r0 & -> & Hr0).
    unfold padded. apply Forall_app. split.
    - pose proof (tableCells_escaped tableEl) as F.
      rewrite tableCells_rows, Forall_forall in F. apply F.
      subst rows. unfold survivingRows in Hr0.
      apply list_elem_of_filter in Hr0. tauto.
    - by apply Forall_replicate. }
  split_and!; [exact E|exact L|exact P| |].
  - apply Forall_app. split.
    + apply Forall_forall. intros r Hr.
      rewrite Forall_forall in L, P.
      rewrite barePipes_rowLine by (by apply P). by rewrite (L r Hr).
    + constructor; [|constructor].
      rewrite barePipes_rowLine by (by apply Forall_replicate).
      by rewrite length_replicate.
  - intros Hr. rewrite E. unfold emittedRows. by rewrite Hr.
Qed.

Lemma processTable_normalized_witness :
  survivingRows (htmlRows (ElementNode "TABLE" [] [ElementNode "TR" [] []])) = []
  ∧ processTable (ElementNode "TABLE" [] [ElementNode "TR" [] []]) = "".
Proof.
  assert (H : survivingRows
                (htmlRows (ElementNode "TABLE" [] [ElementNode "TR" [] []])) = []).
  { reflexivity. }
  split; [exact H|].
  exact (proj2 (proj2 (proj2 (proj2
    (processTable_normalized (ElementNode "TABLE" [] [ElementNode "TR" [] []]))))) H).
Defined.

(** *** The entry point *)

Lemma stripHtml_returns pf (html : string) : ∃ text, stripHtml pf html = Normal text.
Proof.
  unfold stripHtml, createTemp. destruct (pf html); simpl; eauto.
Qed.

Example htmlToMarkdown_absent (pf : string → option (list Node)) :
  htmlToMarkdown pf VNull = Normal ""
  ∧ htmlToMarkdown pf VUndefined = Normal ""
  ∧ htmlToMarkdown pf (VString "") = Normal "".
Proof. by split_and!. Qed.

Example bold_text :
  processNode (ElementNode "DIV" [] [ElementNode "STRONG" [] [TextNode "bold text"]])
  = "**bold text**".
Proof. reflexivity. Qed.

(** C9. Whatever the DOM interface does, [htmlToMarkdown] completes
    normally: with the empty string for [null], [undefined], a value that
    is no string and the empty string; for any other string with the
    output of the normalizer, or, when that throws, with the output of
    [stripHtml]. *)
Theorem htmlToMarkdown_never_throws (pf : string → option (list Node)) (html : Value) :
  ∃ md, htmlToMarkdown pf html = Normal md ∧
    match html with
    | VString s =>
        if isEmpty s then md = ""
        else normalize pf s = Normal md
             ∨ (normalize pf s = Throw ∧ stripHtml pf s = Normal md)
    | _ => md = ""
    end.
Proof.
  destruct html as [| |b|n|s|o]; try (exists ""; split; [|done]).
  - done.
  - done.
  - unfold htmlToMarkdown. by destruct b.
  - unfold htmlToMarkdown. simpl. by destruct (n =? 0)%Z.
  - destruct s as [|c s]; [by exists ""|].
    unfold htmlToMarkdown. cbn [toBoolean truthy isEmpty negb isString orb].
    destruct (normalize pf (String c s)) as [md|] eqn:En; simpl.
    + exists md. auto.
    + destruct (stripHtml_returns pf (String c s)) as [text Ht].
      exists text. auto.
  - done.
Qed.

(** *** Emphasis *)

Lemma processElement_parent (p q : string) (el : Node) :
  String.eqb p "pre" = false → String.eqb q "pre" = false →
  processElement p el = processElement q el.
Proof.
  intros Hp Hq. destruct el as [d|t a cs|d]; [done| |done].
  cbn [processElement]. rewrite Hp, Hq. reflexivity.
Qed.

Lemma processNodeWith_parent (p q : string) (childNodes : list Node) :
  String.eqb p "pre" = false → String.eqb q "pre" = false →
  processNodeWith processElement p childNodes
  = processNodeWith processElement q childNodes.
Proof.
  intros Hp Hq. unfold processNodeWith. generalize "". 
  induction childNodes as [|c cs IH]; intros acc; simpl; [done|].
  destruct c as [d|t a gs|d]; try apply IH.
  rewrite (processElement_parent p q _ Hp Hq). apply IH.
Qed.

Lemma processNodeWith_single rec (p : string) (el : Node) :
  processNodeWith rec p [el] =
    match el with
    | TextNode data => data
    | ElementNode _ _ _ => rec p el
    | OtherNode _ => ""
    end.
Proof. by destruct el. Qed.

(** C7. Bold around italic and italic around bold give the same Markdown,
    the content between two runs of three asterisks. *)
Theorem emphasis_nesting_commutes (pf : string → option (list Node))
    (html1 html2 strong em : string) (a1 a2 a3 a4 : list (string * string))
    (x : list Node) :
  tagIn (toLowerCase strong) ["strong"; "b"] = true →
  tagIn (toLowerCase em) ["em"; "i"] = true →
  html1 ≠ "" → html2 ≠ "" →
  pf html1 = Some [ElementNode strong a1 [ElementNode em a2 x]] →
  pf html2 = Some [ElementNode em a3 [ElementNode strong a4 x]] →
  let C := processNode (ElementNode em a2 x) in
  htmlToMarkdown pf (VString html1) = Normal ("***" +:+ C +:+ "***")
  ∧ htmlToMarkdown pf (VString html2) = Normal ("***" +:+ C +:+ "***")
  ∧ (∀ s, x = [TextNode s] → C = s).
Proof.
  intros Hs He H1 H2 P1 P2 C.
  assert (Hsp : String.eqb (toLowerCase strong) "pre" = false).
  { simpl in Hs. destruct (String.eqb_spec (toLowerCase strong) "strong") as [->|_]; [done|].
    destruct (String.eqb_spec (toLowerCase strong) "b") as [->|_]; done. }
  assert (Hep : String.eqb (toLowerCase em) "pre" = false).
  { simpl in He. destruct (String.eqb_spec (toLowerCase em) "em") as [->|_]; [done|].
    destruct (String.eqb_spec (toLowerCase em) "i") as [->|_]; done. }
  assert (Hes : tagIn (toLowerCase em) ["strong"; "b"] = false).
  { simpl in He |- *. destruct (String.eqb_spec (toLowerCase em) "em") as [->|_]; [done|].
    destruct (String.eqb_spec (toLowerCase em) "i") as [->|_]; done. }
  assert (R1 : ∀ p a, processElement p (ElementNode strong a [ElementNode em a2 x])
                 = "***" +:+ C +:+ "***").
  { intros p a. cbn [processElement]. rewrite Hs.
    rewrite processNodeWith_single. cbn [processElement]. rewrite Hes, He.
    subst C. cbn [processNode]. by rewrite !append_assoc. }
  assert (R2 : ∀ p a, processElement p (ElementNode em a [ElementNode strong a4 x])
                 = "***" +:+ C +:+ "***").
  { intros p a. cbn [processElement]. rewrite Hes, He.
    rewrite processNodeWith_single. cbn [processElement]. rewrite Hs.
    subst C. cbn [processNode].
    rewrite (processNodeWith_parent _ _ x Hsp Hep). by rewrite !append_assoc. }
  assert (T : ∀ html el, html ≠ "" → pf html = Some [el] →
     (∀ p, processElement p el = "***" +:+ C +:+ "***") →
     match el with ElementNode _ _ _ => True | _ => False end →
     htmlToMarkdown pf (VString html) = Normal ("***" +:+ C +:+ "***")).
  { intros html el Hne Hpf Hel Hk. unfold htmlToMarkdown.
    destruct html as [|c0 html]; [done|].
    cbn [toBoolean truthy isEmpty negb isString orb].
    unfold normalize, createTemp. rewrite Hpf. cbn [tryCatch processNode].
    rewrite processNodeWith_single. destruct el; try done.
    rewrite Hel. by rewrite trim_stars. }
  split_and!.
  - by apply (T html1 _ H1 P1).
  - by apply (T html2 _ H2 P2).
  - intros s ->. reflexivity.
Qed.

Lemma emphasis_nesting_commutes_witness :
  htmlToMarkdown emphasisParser (VString "<strong><em>x</em></strong>")
    = Normal "***x***"
  ∧ htmlToMarkdown emphasisParser (VString "<em><strong>x</strong></em>")
    = Normal "***x***".
Proof.
  destruct (emphasis_nesting_commutes emphasisParser
              "<strong><em>x</em></strong>" "<em><strong>x</strong></em>"
              "STRONG" "EM" [] [] [] [] [TextNode "x"]
              eq_refl eq_refl) as (H1 & H2 & _);
    [discriminate|discriminate|reflexivity|reflexivity|].
  split; [exact H1|exact H2].
Defined.

End Normalizer.

(* ================================================================= *)
(** ** More of the tokenizer: the other runs, blank lines, counting *)
(* ================================================================= *)

Section Runs.

Lemma digit_head (c : ascii) :
  isDigit c = true →
  isWhiteSpace c = false ∧ isBulletMarker c = false
  ∧ (c =? "`")%char = false ∧ (c =? "#")%char = false ∧ (c =? ">")%char = false.
Proof.
  destruct c as [[] [] [] [] [] [] [] []]; intros H; try discriminate H;
    by split_and!.
Qed.

Lemma startsWith_cons (c a : ascii) (s p : string) :
  startsWith (String c s) (String a p) = (a =? c)%char && startsWith s p.
Proof. reflexivity. Qed.

Lemma startsWith_head_ne (c a : ascii) (s p : string) :
  (a =? c)%char = false → startsWith (String c s) (String a p) = false.
Proof. intros H. by rewrite startsWith_cons, H. Qed.

Lemma leading_head (X : ascii → bool) (l : string) :
  1 ≤ leading X l → ∃ c s, l = String c s ∧ X c = true.
Proof.
  destruct l as [|c s]; simpl; [lia|]. destruct (X c) eqn:E; [|lia]. eauto.
Qed.

Lemma numbered_head (l t : string) :
  matchNumbered l = Some t → ∃ c s, l = String c s ∧ isDigit c = true.
Proof.
  unfold matchNumbered. destruct (1 <=? leading isDigit l) eqn:E; [|done].
  intros _. apply leading_head. by apply Nat.leb_le.
Qed.

Lemma numbered_iteration (l : string) (rest : list string) :
  testNumbered l = true →
  iteration (l :: rest) =
    (let '(items, rest1) := collectWhile matchNumbered (l :: rest) in
     (map (λ item, NumberedListItem (parseInlineFormatting item)) items, rest1)).
Proof.
  intros H. unfold iteration. rewrite H.
  unfold testNumbered in H. destruct (matchNumbered l) as [t|] eqn:E; [|done].
  destruct (numbered_head _ _ E) as (c & s & -> & Hd).
  destruct (digit_head c Hd) as (Hw & Hb & Hf & Hh & Hq).
  rewrite trim_nonempty by done.
  rewrite !startsWith_head_ne by (by rewrite Ascii.eqb_sym).
  by rewrite testBullet_marker.
Qed.

Lemma leading_all (X : ascii → bool) (d : string) (c : ascii) (s : string) :
  allOf X d = true → X c = false →
  leading X (d +:+ String c s) = String.length d
  ∧ sliceFrom (String.length d) (d +:+ String c s) = String c s.
Proof.
  intros Hd Hc. induction d as [|a d IH].
  - rewrite append_nil_l. simpl. by rewrite Hc.
  - cbn [allOf] in Hd. apply andb_true_iff in Hd as [Ha Hd].
    rewrite append_cons. cbn [leading String.length sliceFrom].
    rewrite Ha. destruct (IH Hd) as [-> ->]. done.
Qed.

Lemma matchNumbered_digits (digits text : string) :
  digits ≠ "" → allOf isDigit digits = true →
  matchNumbered (digits +:+ String "." (String " " text)) = Some text.
Proof.
  intros Hne Hd. unfold matchNumbered.
  destruct (leading_all isDigit digits "." (String " " text) Hd eq_refl) as [-> ->].
  destruct digits; [done|]. done.
Qed.

Lemma numberedLine_match (p : string * string) :
  p.1 ≠ "" → allOf isDigit p.1 = true →
  matchNumbered (numberedLine p) = Some p.2.
Proof.
  intros Hne Hd. unfold numberedLine.
  change (". " +:+ p.2) with (String "." (String " " p.2)).
  by apply matchNumbered_digits.
Qed.

(** X1. A run of numbered lines, each one or more digits, a full stop,
    a space and a text, that a line which is no numbered item follows (or
    the end of the input): one pass of the tokenizer pushes one numbered
    item per line, with the segmented text after the marker, and stops at
    the line after the run. The digits are dropped: the items carry no
    number. *)
Theorem numbered_run (src : list (string * string)) (rest : list string) :
  src ≠ [] →
  Forall (λ p, p.1 ≠ "" ∧ allOf isDigit p.1 = true) src →
  stopsAt matchNumbered rest →
  iteration (map numberedLine src ++ rest)
  = (map (λ p, NumberedListItem (parseInlineFormatting p.2)) src, rest).
Proof.
  intros Hne Hsrc Hrest.
  assert (R : Forall2 (λ l a, matchNumbered l = Some a)
                (map numberedLine src) (map snd src)).
  { clear Hne. induction Hsrc as [|p src [Hp Hd] _ IH]; constructor; [|done].
    by apply numberedLine_match. }
  destruct src as [|p src]; [done|].
  apply Forall_cons in Hsrc as [[Hp Hd] _].
  cbn [map]. rewrite <- app_comm_cons.
  rewrite numbered_iteration.
  2:{ unfold testNumbered. by rewrite numberedLine_match. }
  rewrite app_comm_cons.
  change (numberedLine p :: map numberedLine src) with (map numberedLine (p :: src)).
  rewrite (collectWhile_run matchNumbered _ _ _ R Hrest).
  by rewrite map_map.
Qed.

Lemma numbered_run_witness :
  iteration (map numberedLine [("1", "First"); ("22", "Second")] ++ ["para"])
  = (map (λ p, NumberedListItem (parseInlineFormatting p.2))
       [("1", "First"); ("22", "Second")],
     ["para"]).
Proof.
  apply (numbered_run [("1", "First"); ("22", "Second")] ["para"]).
  - discriminate.
  - repeat constructor; discriminate.
  - reflexivity.
Defined.

Lemma quote_iteration (t : string) (rest : list string) :
  iteration (("> " +:+ t) :: rest) =
    (let '(quoteLines, rest1) := collectWhile quoteLine (("> " +:+ t) :: rest) in
     ([Quote (parseInlineFormatting (join nl quoteLines))], rest1)).
Proof.
  change ("> " +:+ t) with (String ">" (String " " t)).
  unfold iteration. by rewrite trim_nonempty.
Qed.

(** X2. A run of lines that start with [>] and a space, that a line
    which does not start so follows (or the end of the input): one pass
    pushes a single quote block, whose text is the lines without their
    two-character marker joined by line feeds, and stops after the run. *)
Theorem quote_run (texts rest : list string) :
  texts ≠ [] → stopsAt quoteLine rest →
  iteration (map (λ t, "> " +:+ t) texts ++ rest)
  = ([Quote (parseInlineFormatting (join nl texts))], rest).
Proof.
  intros Hne Hrest.
  assert (R : Forall2 (λ l a, quoteLine l = Some a) (map (λ t, "> " +:+ t) texts) texts).
  { clear. induction texts; by constructor. }
  destruct texts as [|t texts]; [done|].
  cbn [map]. rewrite <- app_comm_cons, quote_iteration, app_comm_cons.
  change (("> " +:+ t) :: map _ texts) with (map (λ t, "> " +:+ t) (t :: texts)).
  by rewrite (collectWhile_run quoteLine _ _ _ R Hrest).
Qed.

Lemma quote_run_witness :
  iteration (map (λ t, "> " +:+ t) ["a"; "b"] ++ [""])
  = ([Quote (parseInlineFormatting (join nl ["a"; "b"]))], [""]).
Proof.
  apply (quote_run ["a"; "b"] [""]).
  - discriminate.
  - reflexivity.
Defined.

Lemma startsWith_hash (l p : string) :
  startsWith l "#" = false → startsWith l (String "#" p) = false.
Proof.
  destruct l as [|c s]; [done|]. rewrite !startsWith_cons.
  destruct (_ =? _)%char; done.
Qed.

Lemma paragraph_iteration (l : string) (rest : list string) :
  paragraphLine l = Some l →
  iteration (l :: rest) =
    (let '(paragraphLines, rest1) := collectWhile paragraphLine (l :: rest) in
     (if 0 <? length paragraphLines
      then [Paragraph (parseInlineFormatting (join " " paragraphLines))]
      else [], rest1)).
Proof.
  unfold paragraphLine.
  destruct (isEmpty (trim l)) eqn:E0; [done|].
  destruct (startsWith l "#") eqn:E1; [done|].
  destruct (startsWith l "```") eqn:E2; [done|].
  destruct (startsWith l "> ") eqn:E3; [done|].
  destruct (testBullet l) eqn:E4; [done|].
  destruct (testNumbered l) eqn:E5; [done|]. intros _.
  unfold iteration. rewrite E0, E2, E3, E4, E5.
  by rewrite !startsWith_hash.
Qed.

(** X3. A run of paragraph lines (not blank, not starting with [#], a
    fence or a quote marker, no bullet and no numbered item), that a line
    which is no paragraph line follows (or the end of the input): one
    pass pushes a single paragraph, whose text is the lines joined by one
    space, and stops after the run. *)
Theorem paragraph_run (ps rest : list string) :
  ps ≠ [] → Forall (λ l, paragraphLine l = Some l) ps →
  stopsAt paragraphLine rest →
  iteration (ps ++ rest)
  = ([Paragraph (parseInlineFormatting (join " " ps))], rest).
Proof.
  intros Hne Hps Hrest.
  assert (R : Forall2 (λ l a, paragraphLine l = Some a) ps ps).
  { clear Hne. induction Hps; by constructor. }
  destruct ps as [|l ps]; [done|].
  apply Forall_cons in Hps as [Hl _].
  rewrite <- app_comm_cons, paragraph_iteration, app_comm_cons by done.
  by rewrite (collectWhile_run paragraphLine _ _ _ R Hrest).
Qed.

Lemma paragraph_run_witness :
  iteration (["Hello"; "world"] ++ [""])
  = ([Paragraph (parseInlineFormatting (join " " ["Hello"; "world"]))], [""]).
Proof.
  apply (paragraph_run ["Hello"; "world"] [""]).
  - discriminate.
  - repeat constructor.
  - reflexivity.
Defined.

Lemma blank_iteration (l : string) (rest : list string) :
  blankLine l = true → iteration (l :: rest) = ([], rest).
Proof. unfold blankLine, iteration. by intros ->. Qed.

(** X4. An input all of whose lines are empty or whitespace gives no
    block at all, within one pass per line. *)
Theorem blank_lines_give_no_block (markdown : string) :
  Forall (λ l, blankLine l = true) (split LF markdown) →
  markdownToBlocks (length (split LF markdown)) markdown = Some [].
Proof.
  unfold markdownToBlocks. generalize (split LF markdown) as lines.
  intros lines H. generalize (@nil Block) as blocks.
  induction H as [|l lines Hl _ IH]; intros blocks; [done|].
  cbn [length loop]. rewrite (blank_iteration l lines Hl).
  rewrite app_nil_r. apply IH.
Qed.

Lemma blank_lines_give_no_block_witness :
  markdownToBlocks (length (split LF (String " " (String LF ""))))
    (String " " (String LF "")) = Some [].
Proof.
  apply (blank_lines_give_no_block (String " " (String LF ""))).
  repeat constructor.
Defined.

Lemma collectWhile_length {A} (g : string → option A) (lines : list string) :
  length (collectWhile g lines).1 + length (collectWhile g lines).2 = length lines.
Proof.
  induction lines as [|l rest IH]; simpl; [done|].
  destruct (g l); [|done]. destruct (collectWhile g rest). simpl in *. lia.
Qed.

Lemma bulletItems_count (fuel : nat) (lines : list string) :
  length (bulletItems fuel lines).1 + length (bulletItems fuel lines).2 ≤ length lines.
Proof.
  revert lines. induction fuel as [|fuel IH]; intros lines; [by destruct lines|].
  destruct lines as [|l rest]; [done|]. cbn [bulletItems].
  destruct (testBullet l); [|done].
  pose proof (collectWhile_suffix nestedBullet rest) as S1.
  destruct (collectWhile nestedBullet rest) as [nested rest1].
  pose proof (collectWhile_suffix matchNestedQuote rest1) as S2.
  destruct (collectWhile matchNestedQuote rest1) as [qs rest2].
  pose proof (IH rest2) as C.
  destruct (bulletItems fuel rest2) as [blocks rest3]. simpl in *.
  apply suffix_length in S1, S2. lia.
Qed.

Lemma iteration_count (lines : list string) :
  length (iteration lines).1 + length (iteration lines).2 ≤ length lines.
Proof.
  destruct lines as [|l rest]; [done|]. unfold iteration.
  destruct (isEmpty (trim l)); [simpl; lia|].
  destruct (startsWith l "```").
  { pose proof (collectWhile_suffix codeLine rest) as S.
    destruct (collectWhile codeLine rest) as [c r]. simpl in *.
    apply suffix_tail, suffix_length in S. lia. }
  destruct (startsWith l "# "); [simpl; lia|].
  destruct (startsWith l "## "); [simpl; lia|].
  destruct (startsWith l "### "); [simpl; lia|].
  destruct (testBullet l); [apply bulletItems_count|].
  destruct (testNumbered l).
  { pose proof (collectWhile_length matchNumbered (l :: rest)) as C.
    destruct (collectWhile matchNumbered (l :: rest)). simpl in *.
    rewrite length_map. lia. }
  destruct (startsWith l "> ") eqn:Eq.
  { assert (Hq : quoteLine l = Some (sliceFrom 2 l)) by (unfold quoteLine; by rewrite Eq).
    pose proof (collectWhile_progress quoteLine l rest _ Hq) as S.
    destruct (collectWhile quoteLine (l :: rest)). simpl in *.
    apply suffix_length in S. lia. }
  pose proof (collectWhile_length paragraphLine (l :: rest)) as C.
  destruct (collectWhile paragraphLine (l :: rest)) as [ps r]. simpl in *.
  destruct ps; simpl in *; lia.
Qed.

Lemma loop_count (fuel : nat) (lines : list string) (blocks out : list Block) :
  loop fuel lines blocks = Some out →
  length out ≤ length blocks + length lines.
Proof.
  revert lines blocks. induction fuel as [|fuel IH]; intros lines blocks.
  - destruct lines; [|done]. intros [= <-]. simpl. lia.
  - destruct lines as [|l rest]; [intros [= <-]; simpl; lia|]. cbn [loop].
    pose proof (iteration_count (l :: rest)) as C.
    destruct (iteration (l :: rest)) as [pushed rest']. simpl in C.
    intros H%IH. rewrite length_app in H. simpl. lia.
Qed.

(** X5. Whenever [markdownToBlocks] returns, it returns at most one
    top-level block per line of the input. *)
Theorem block_count_bounded (fuel : nat) (markdown : string) (blocks : list Block) :
  markdownToBlocks fuel markdown = Some blocks →
  length blocks ≤ length (split LF markdown).
Proof. intros H%loop_count. simpl in H. lia. Qed.

Lemma block_count_bounded_witness :
  length [Heading1 (parseInlineFormatting "a")] ≤ length (split LF "# a").
Proof.
  apply (block_count_bounded 1 "# a" [Heading1 (parseInlineFormatting "a")]).
  reflexivity.
Defined.

(** X6. When no line of the input starts with [#] without being a
    heading of level one to three, [markdownToBlocks] returns: one pass
    per line is enough, and more passes give the same blocks. *)
Theorem markdownToBlocks_returns (markdown : string) :
  Forall (λ l, stuckLine l = false) (split LF markdown) →
  ∃ blocks,
    markdownToBlocks (length (split LF markdown)) markdown = Some blocks
    ∧ ∀ fuel, length (split LF markdown) ≤ fuel →
        markdownToBlocks fuel markdown = Some blocks.
Proof.
  intros H. unfold markdownToBlocks.
  destruct (loop_terminates (length (split LF markdown)) _ [] H (le_n _)) as [out E].
  exists out. split; [done|]. intros fuel Hf. by eapply loop_fuel_mono.
Qed.

Lemma markdownToBlocks_returns_witness :
  ∃ blocks,
    markdownToBlocks (length (split LF "# a")) "# a" = Some blocks
    ∧ ∀ fuel, length (split LF "# a") ≤ fuel →
        markdownToBlocks fuel "# a" = Some blocks.
Proof.
  apply (markdownToBlocks_returns "# a"). repeat constructor.
Defined.

End Runs.

(* ================================================================= *)
(** ** More of the language tags *)
(* ================================================================= *)

Section CanonicalTags.

Lemma toLowerChar_idemp (c : ascii) : toLowerChar (toLowerChar c) = toLowerChar c.
Proof. by destruct c as [[] [] [] [] [] [] [] []]. Qed.

Lemma toLowerCase_idemp (s : string) : toLowerCase (toLowerCase s) = toLowerCase s.
Proof.
  induction s as [|c s IH]; [done|].
  cbn [toLowerCase]. by rewrite toLowerChar_idemp, IH.
Qed.

Lemma mapLanguage_valid (lang : string) : mapLanguage lang ∈ validLanguages.
Proof.
  unfold mapLanguage. generalize sentinel_valid.
  generalize validLanguages as V. intros V HS.
  destruct (orValue _ _) as [| | | |s|]; cbn [setHas]; try done.
  by case_bool_decide.
Qed.

Lemma canonical_fixed (lang : string) :
  lang ∈ validLanguages → mapLanguage lang = lang.
Proof.
  assert (H : set_Forall (λ v, mapLanguage v = v) validLanguages).
  { apply (bool_decide_unpack _). vm_compute. reflexivity. }
  intros Hl. exact (H lang Hl).
Qed.

(** X7. A tag of the closed vocabulary is mapped to itself: no alias
    and no lower-casing changes a canonical tag. *)
Theorem canonical_tag_kept (lang : string) :
  lang ∈ validLanguages → mapLanguage lang = lang.
Proof. apply canonical_fixed. Qed.

Lemma canonical_tag_kept_witness :
  "python" ∈ validLanguages ∧ mapLanguage "python" = "python".
Proof.
  assert (H : "python" ∈ validLanguages).
  { apply (bool_decide_unpack _). vm_compute. reflexivity. }
  split; [exact H|]. exact (canonical_tag_kept "python" H).
Defined.

(** X8. [mapLanguage] is idempotent: mapping its own result changes
    nothing. *)
Theorem mapLanguage_idempotent (lang : string) :
  mapLanguage (mapLanguage lang) = mapLanguage lang.
Proof. apply canonical_fixed, mapLanguage_valid. Qed.

(** X9. [mapLanguage] does not see the case of its input: a tag and its
    lower-casing are mapped to the same tag. *)
Theorem mapLanguage_ignores_case (lang : string) :
  mapLanguage (toLowerCase lang) = mapLanguage lang.
Proof. unfold mapLanguage. by rewrite toLowerCase_idemp. Qed.

End CanonicalTags.

(* ================================================================= *)
(** ** More of the segmentor: text without markers, a bare link *)
(* ================================================================= *)

Section Links.

Lemma opener_cases (c : ascii) :
  isOpener c = false →
  ("*" =? c)%char = false ∧ ("_" =? c)%char = false
  ∧ ("`" =? c)%char = false ∧ (c =? "[")%char = false ∧ isStar c = false.
Proof. by destruct c as [[] [] [] [] [] [] [] []]. Qed.

Lemma delimited_closed (o : ascii) (opener closer : string) :
  isOpener o = true → closedAt (delimited (String o opener) closer).
Proof.
  intros Ho prev c s Hc. unfold delimited. cbn [startsWith].
  destruct (Ascii.eqb_spec o c) as [->|]; [congruence|done].
Qed.

Lemma reItalic_closed : closedAt reItalic.
Proof.
  intros prev c s Hc. unfold reItalic.
  destruct (opener_cases c Hc) as (_ & _ & _ & _ & ->). done.
Qed.

Lemma reLink_closed : closedAt reLink.
Proof.
  intros prev c s Hc. unfold reLink.
  destruct (opener_cases c Hc) as (_ & _ & _ & -> & _). done.
Qed.

Lemma scan_closed (re : RegExp) (s : string) (prev : option ascii) (i : nat) :
  closedAt re → allOf notOpener s = true → scan re prev i 0 s = [].
Proof.
  intros Hre. revert prev i. induction s as [|c s IH]; intros prev i H; [done|].
  cbn [allOf] in H. apply andb_prop in H as [Hc Hs].
  apply negb_true_iff in Hc.
  cbn [scan]. rewrite (Hre prev c s Hc). by apply IH.
Qed.

(** X10. A text without a star, an underscore, a backtick and an
    opening bracket is one plain span that holds the whole text. *)
Theorem unmarked_text_single_span (text : string) :
  allOf notOpener text = true →
  parseInlineFormatting text = [plain text].
Proof.
  intros H. unfold parseInlineFormatting, allMatches, matchAll.
  rewrite (scan_closed reBoldItalic), (scan_closed reBold),
    (scan_closed reItalic), (scan_closed reUnderscore),
    (scan_closed reCode), (scan_closed reLink);
    auto using reItalic_closed, reLink_closed;
    try (by apply delimited_closed).
  cbn. by destruct text.
Qed.

Lemma unmarked_text_single_span_witness :
  parseInlineFormatting "Hello, world (1 < 2)" = [plain "Hello, world (1 < 2)"].
Proof.
  apply (unmarked_text_single_span "Hello, world (1 < 2)"). reflexivity.
Defined.

Lemma allOf_and (X Y : ascii → bool) (s : string) :
  allOf (λ c, X c && Y c) s = allOf X s && allOf Y s.
Proof.
  induction s as [|c s IH]; [done|]. cbn [allOf]. rewrite IH.
  destruct (X c), (Y c), (allOf X s); done.
Qed.

Lemma lazyPlus_first {A} (X Y : ascii → bool) (k : string → option A)
    (pre rest : string) (a : A) :
  (∀ c s, Y c = true → k (String c s) = None) →
  pre ≠ "" → allOf X pre = true → allOf Y pre = true → k rest = Some a →
  lazyPlus X k (pre +:+ rest) = Some (String.length pre, a).
Proof.
  intros HY Hne HX HYs Hk. induction pre as [|c pre IH]; [done|].
  cbn [allOf] in HX, HYs.
  apply andb_prop in HX as [Hc HX]. apply andb_prop in HYs as [_ HYs].
  rewrite append_cons. cbn [lazyPlus String.length]. rewrite Hc.
  destruct pre as [|c' pre].
  - rewrite append_nil_l, Hk. done.
  - rewrite append_cons. cbn [allOf] in HYs.
    apply andb_prop in HYs as [Hc' HYs'].
    rewrite (HY c' _ Hc'). rewrite <- append_cons.
    rewrite IH; [done|done|done|]. cbn [allOf]. by rewrite Hc', HYs'.
Qed.

Lemma scan_skip_all (re : RegExp) (s : string) (prev : option ascii) (i skip : nat) :
  String.length s ≤ skip → scan re prev i skip s = [].
Proof.
  revert prev i skip. induction s as [|c s IH]; intros prev i skip H; [done|].
  cbn [String.length] in H. destruct skip as [|k]; [lia|].
  cbn [scan]. apply IH. lia.
Qed.

Lemma scan_index (re : RegExp) (s : string) (prev : option ascii) (i skip : nat) :
  Forall (λ r, i ≤ index r) (scan re prev i skip s).
Proof.
  revert prev i skip. induction s as [|c s IH]; intros prev i skip; [constructor|].
  cbn [scan].
  assert (K : ∀ p k, Forall (λ r, i ≤ index r) (scan re p (S i) k s)).
  { intros p k. eapply Forall_impl; [apply IH|]. cbn. lia. }
  destruct skip as [|k]; [|apply K].
  destruct (re prev (String c s)) as [[[len g1] g2]|]; [|apply K].
  constructor; [done|apply K].
Qed.

Lemma pushMatches_later (check : bool) b i c l (ms : list RegExpMatch)
    (all : list Match) :
  Forall (λ r, 1 ≤ index r) ms → Forall (λ m, 1 ≤ m_start m) all →
  Forall (λ m, 1 ≤ m_start m) (pushMatches check (candidate b i c l) all ms).
Proof.
  unfold pushMatches. intros Hms. revert all.
  induction Hms as [|r ms Hr _ IH]; intros all Hall; [done|].
  cbn [fold_left]. apply IH.
  destruct (check && covered all (index r) (index r + matchLength r)); [done|].
  apply Forall_app. split; [done|]. by repeat constructor.
Qed.

Lemma matchAll_later (re : RegExp) (c : ascii) (s : string) :
  re None (String c s) = None →
  Forall (λ r, 1 ≤ index r) (matchAll re (String c s)).
Proof.
  intros H. unfold matchAll. cbn [scan]. rewrite H. apply scan_index.
Qed.

Lemma covered_later (all : list Match) (b : nat) :
  Forall (λ m, 1 ≤ m_start m) all → covered all 0 b = false.
Proof.
  unfold covered. induction 1 as [|m all Hm _ IH]; [done|].
  cbn [existsb]. rewrite IH, orb_false_r.
  apply andb_false_intro1. apply Nat.leb_gt. lia.
Qed.

Lemma sortByStart_first (others : list Match) (m : Match) :
  m_start m = 0 → Forall (λ o, 1 ≤ m_start o) others →
  sortByStart (others ++ [m]) = m :: sortByStart others.
Proof.
  intros Hm. unfold sortByStart.
  induction 1 as [|o others Ho _ IH]; [done|].
  cbn [app foldr]. rewrite IH. cbn [insertByStart].
  replace (m_start o <=? m_start m) with false; [done|].
  symmetry. apply Nat.leb_gt. lia.
Qed.

Lemma buildStep_skips (text : string) (ms : list Match) (pos : nat)
    (result : list RichTextItem) :
  Forall (λ m, m_start m < pos) ms →
  fold_left (buildStep text) ms (pos, result) = (pos, result).
Proof.
  induction 1 as [|m ms Hm _ IH]; [done|].
  cbn [fold_left buildStep].
  replace (m_start m <? pos) with true; [done|].
  symmetry. by apply Nat.ltb_lt.
Qed.

Lemma reLink_whole (label url : string) :
  label ≠ "" → url ≠ "" →
  allOf labelChar label = true → allOf urlChar url = true →
  reLink None ("[" +:+ label +:+ "](" +:+ url +:+ ")")
  = Some (String.length ("[" +:+ label +:+ "](" +:+ url +:+ ")"), label, url).
Proof.
  intros Hl Hu Al Au. unfold labelChar in Al. unfold urlChar in Au.
  rewrite allOf_and in Al, Au.
  apply andb_prop in Al as [Dl Nl]. apply andb_prop in Au as [Du Nu].
  assert (Tail : linkTail ("](" +:+ url +:+ ")") = Some (String.length url, ())).
  { unfold linkTail.
    change ("](" +:+ url +:+ ")") with (String "]" (String "(" (url +:+ ")"))).
    cbn [startsWith Ascii.eqb Bool.eqb andb sliceFrom].
    apply (lazyPlus_first dot (λ c, negb (c =? ")")%char)); try done.
    intros c s Hc. unfold lit. cbn [startsWith].
    rewrite Ascii.eqb_sym. apply negb_true_iff in Hc. by rewrite Hc. }
  rewrite append_cons, append_nil_l. unfold reLink.
  cbn [Ascii.eqb Bool.eqb].
  rewrite (lazyPlus_first dot (λ c, negb (c =? "]")%char) linkTail label _
             (String.length url, ())); try done.
  2:{ intros c s Hc. unfold linkTail. cbn [startsWith].
      rewrite Ascii.eqb_sym. apply negb_true_iff in Hc. by rewrite Hc. }
  rewrite sliceTo_prefix.
  rewrite <- (sliceFrom_sliceFrom 2 (String.length label)).
  rewrite sliceFrom_append.
  change (sliceFrom 2 ("](" +:+ url +:+ ")")) with (url +:+ ")").
  rewrite sliceTo_prefix.
  repeat f_equal.
  cbn [String.length]. rewrite !length_append. cbn [String.length]. lia.
Qed.

Lemma bare_link_span (label url : string) :
  label ≠ "" → url ≠ "" →
  allOf labelChar label = true → allOf urlChar url = true →
  parseInlineFormatting ("[" +:+ label +:+ "](" +:+ url +:+ ")")
  = [linkSpan label url].
Proof.
  intros Hl Hu Al Au.
  pose proof (reLink_whole label url Hl Hu Al Au) as Hre.
  pose proof (allMatches_good ("[" +:+ label +:+ "](" +:+ url +:+ ")")) as Good.
  revert Hre Good.
  rewrite (append_cons "[" "" _), append_nil_l.
  set (body := label +:+ "](" +:+ url +:+ ")").
  intros Hre Good.
  unfold parseInlineFormatting.
  assert (E : ∃ others,
             allMatches (String "[" body)
             = others ++ [candidate None None None true
                            (mkRegExpMatch 0 (String.length (String "[" body)) label url)]
             ∧ Forall (λ m, 1 ≤ m_start m) others).
  { unfold allMatches.
    set (others :=
      pushMatches true (candidate None None (Some true) false)
        (pushMatches true (candidate None (Some true) None false)
          (pushMatches true (candidate None (Some true) None false)
            (pushMatches true (candidate (Some true) None None false)
              (pushMatches false (candidate (Some true) (Some true) None false) []
                 (matchAll reBoldItalic (String "[" body)))
              (matchAll reBold (String "[" body)))
            (matchAll reItalic (String "[" body)))
          (matchAll reUnderscore (String "[" body)))
        (matchAll reCode (String "[" body))).
    assert (Later : Forall (λ m, 1 ≤ m_start m) others).
    { unfold others.
      repeat (apply pushMatches_later; [by apply matchAll_later|]).
      constructor. }
    exists others. split; [|done].
    unfold matchAll at 1. cbn [scan]. rewrite Hre.
    rewrite scan_skip_all by (cbn [String.length]; lia).
    unfold pushMatches at 1. cbn [fold_left index matchLength].
    rewrite (covered_later _ _ Later). done. }
  destruct E as (others & Eq & Later). rewrite Eq in Good |- *.
  rewrite sortByStart_first; [|done|done].
  remember (String.length (String "[" body)) as n eqn:En.
  cbn [fold_left]. unfold buildStep at 2.
  cbn [candidate m_start m_end index matchLength Nat.add].
  change (0 <? 0) with false. cbn iota.
  rewrite buildStep_skips.
  - rewrite Nat.ltb_irrefl. cbn [app length Nat.eqb].
    unfold richTextOf, linkSpan. cbn.
    unfold truthy. by destruct url.
  - apply sortByStart_Forall.
    rewrite Forall_app in Good. destruct Good as [Good _].
    eapply Forall_impl; [exact Good|].
    intros m (H1 & H2 & _). lia.
Qed.

(** X11. A text that is one link, a label in brackets and a URL in
    parentheses, the label without a closing bracket, the URL without a
    closing parenthesis, both non-empty and without a line terminator,
    is one span: its content is the label, its link the URL, no
    annotation is set. Whatever the other patterns match inside the label
    or the URL is dropped. *)
Theorem link_only_text (label url : string) :
  label ≠ "" → url ≠ "" →
  allOf labelChar label = true → allOf urlChar url = true →
  parseInlineFormatting ("[" +:+ label +:+ "](" +:+ url +:+ ")")
  = [linkSpan label url].
Proof. apply bare_link_span. Qed.

Lemma link_only_text_witness :
  parseInlineFormatting ("[" +:+ "a **b** c" +:+ "](" +:+ "https://example.com/_x_" +:+ ")")
  = [linkSpan "a **b** c" "https://example.com/_x_"].
Proof.
  apply (link_only_text "a **b** c" "https://example.com/_x_");
    [discriminate|discriminate|reflexivity|reflexivity].
Defined.

End Links.

(* ================================================================= *)
(** ** More of the normalizer: the fallback, lists, the final trim *)
(* ================================================================= *)

Section Fallback.

Lemma indexOf_stripTagsFrom (c : ascii) (s : string) (skip : nat) :
  indexOf c s = None → indexOf c (stripTagsFrom skip s) = None.
Proof.
  revert skip. induction s as [|a s IH]; intros skip; [done|].
  cbn [indexOf]. destruct (Ascii.eqb a c) eqn:E; [done|].
  destruct (indexOf c s) eqn:Ei; [done|]. intros _.
  cbn [stripTagsFrom]. destruct skip as [|k]; [|by apply IH].
  assert (K : indexOf c (String a (stripTagsFrom 0 s)) = None).
  { cbn [indexOf]. rewrite E. by rewrite IH. }
  destruct (Ascii.eqb a "<"); [|done].
  destruct (indexOf ">" s); [by apply IH|done].
Qed.

Lemma stripTagsFrom_tagFree (s : string) (skip : nat) :
  tagFree (stripTagsFrom skip s) = true.
Proof.
  revert skip. induction s as [|a s IH]; intros skip; [done|].
  cbn [stripTagsFrom]. destruct skip as [|k]; [|by apply IH].
  destruct (Ascii.eqb a "<") eqn:E.
  - destruct (indexOf ">" s) eqn:Ei; [by apply IH|].
    cbn [tagFree]. rewrite IH, andb_true_r.
    unfold hasChar. rewrite (indexOf_stripTagsFrom _ _ _ Ei).
    apply orb_true_r.
  - cbn [tagFree]. by rewrite E, IH.
Qed.

Lemma tagFree_stripTags (s : string) :
  tagFree s = true → stripTagsFrom 0 s = s.
Proof.
  induction s as [|a s IH]; [done|].
  cbn [tagFree stripTagsFrom]. intros [H1 H2]%andb_prop.
  rewrite (IH H2). destruct (Ascii.eqb a "<"); [|done].
  unfold hasChar in H1. destruct (indexOf ">" s); [done|done].
Qed.

(** X12. What the last-resort tag stripper returns holds no tag any
    more: no [<] with a [>] after it. Stripping it again changes
    nothing. *)
Theorem stripTags_removes_every_tag (html : string) :
  tagFree (stripTags html) = true
  ∧ stripTags (stripTags html) = stripTags html.
Proof.
  split; [apply stripTagsFrom_tagFree|].
  apply tagFree_stripTags, stripTagsFrom_tagFree.
Qed.

(** X13. The tag stripper keeps a text without a tag as it is, a
    lone [<] or [>] included. *)
Theorem stripTags_keeps_plain_text (html : string) :
  tagFree html = true → stripTags html = html.
Proof. apply tagFree_stripTags. Qed.

Lemma stripTags_keeps_plain_text_witness : stripTags "1 > 0 < 2" = "1 > 0 < 2".
Proof. apply (stripTags_keeps_plain_text "1 > 0 < 2"). reflexivity. Defined.

Lemma processList_loop (type : string) (children : list Node)
    (result : string) (index : nat) :
  fold_left
    (λ '(result, index) child,
      match child with
      | ElementNode tagName _ grandChildren =>
          if String.eqb (toLowerCase tagName) "li" then
            let prefix :=
              if String.eqb type "ol" then pretty index +:+ ". " else "- " in
            let content :=
              trim (processNodeWith processElement "li" grandChildren) in
            (result +:+ prefix +:+ content +:+ nl, S index)
          else (result, index)
      | _ => (result, index)
      end)
    children (result, index)
  = (result +:+ concatStrings (imap (λ k, itemText type (index + k)) (filter isItem children)),
     index + length (filter isItem children)).
Proof.
  revert result index.
  induction children as [|child children IH]; intros result index.
  - cbn. rewrite append_empty_r. f_equal. lia.
  - cbn [fold_left]. destruct child as [d|tagName attrs gc|d].
    + rewrite IH. rewrite filter_cons_False; [done|]. cbn. by intros [].
    + destruct (String.eqb (toLowerCase tagName) "li") eqn:E.
      * rewrite IH. rewrite filter_cons_True; [|cbn; by rewrite E].
        cbn [imap length concatStrings foldr]. f_equal; [|lia].
        apply String.eqb_eq in E.
        rewrite Nat.add_0_r.
        assert (Hi : itemText type index (ElementNode tagName attrs gc)
                     = (if String.eqb type "ol" then pretty index +:+ ". " else "- ")
                       +:+ trim (processNodeWith processElement "li" gc) +:+ nl).
        { unfold itemText, processNode. by rewrite E. }
        rewrite Hi, !append_assoc. do 4 f_equal.
        unfold concatStrings. f_equal. apply imap_ext. intros k x _. cbn. by rewrite Nat.add_succ_r.
      * rewrite IH. rewrite filter_cons_False; [done|]. cbn. rewrite E. by intros [].
    + rewrite IH. rewrite filter_cons_False; [done|]. cbn. by intros [].
Qed.

(** X14. [processList] gives one line per [li] child, in order: the
    marker, the trimmed rendering of the item, a line feed. In an [ol]
    the markers are the numbers 1, 2, 3, ... of the items; children that
    are no [li] give no line and take no number. *)
Theorem processList_numbers_items (listEl : Node) (type : string) :
  processList listEl type
  = concatStrings (imap (λ k, itemText type (S k))
              (filter isItem (match listEl with
                              | ElementNode _ _ childNodes => childNodes
                              | _ => []
                              end))).
Proof.
  destruct listEl as [d|tagName attrs children|d]; [done| |done].
  unfold processList, processListWith. rewrite processList_loop.
  cbn [fst]. apply append_nil_l.
Qed.






End Fallback.

(* ================================================================= *)
(** ** The clipper: from the selection to the blocks *)
(* ================================================================= *)

Section Capture.

Lemma hasChar_cons (c a : ascii) (s : string) :
  hasChar c (String a s) = (a =? c)%char || hasChar c s.
Proof.
  unfold hasChar. cbn [indexOf]. destruct (a =? c)%char; [done|].
  by destruct (indexOf c s).
Qed.

Lemma hasChar_append (c : ascii) (a b : string) :
  hasChar c (a +:+ b) = hasChar c a || hasChar c b.
Proof.
  induction a as [|x a IH]; [done|].
  rewrite append_cons, !hasChar_cons, IH. by rewrite orb_assoc.
Qed.

Lemma replaceChar_removes (c : ascii) (r s : string) :
  hasChar c r = false → hasChar c (replaceChar c r s) = false.
Proof.
  intros Hr. induction s as [|a s IH]; [done|]. cbn [replaceChar].
  destruct (a =? c)%char eqn:E.
  - by rewrite hasChar_append, Hr, IH.
  - by rewrite hasChar_cons, E, IH.
Qed.

Lemma replaceChar_keeps_absent (c d : ascii) (r s : string) :
  hasChar c r = false → hasChar c s = false →
  hasChar c (replaceChar d r s) = false.
Proof.
  intros Hr. induction s as [|a s IH]; [done|].
  rewrite hasChar_cons. intros [Ha Hs]%orb_false_elim. cbn [replaceChar].
  destruct (a =? d)%char.
  - by rewrite hasChar_append, Hr, IH.
  - by rewrite hasChar_cons, Ha, IH.
Qed.

(** X16. [escapeAttr] leaves no double quote and no single quote in
    its result. *)
Theorem escapeAttr_no_quote (text : string) :
  hasChar doubleQuote (escapeAttr text) = false
  ∧ hasChar "'" (escapeAttr text) = false.
Proof.
  unfold escapeAttr. split.
  - apply replaceChar_keeps_absent; [done|]. by apply replaceChar_removes.
  - by apply replaceChar_removes.
Qed.

Lemma noLF_hasChar (s : string) : noLF s = negb (hasChar LF s).
Proof.
  induction s as [|a s IH]; [done|]. cbn [noLF].
  rewrite hasChar_cons, IH. by destruct (a =? LF)%char.
Qed.

Lemma noLF_append (a b : string) : noLF (a +:+ b) = noLF a && noLF b.
Proof. rewrite !noLF_hasChar, hasChar_append. apply negb_orb. Qed.

Lemma noLF_replaceChar (d : ascii) (r s : string) :
  noLF r = true → noLF s = true → noLF (replaceChar d r s) = true.
Proof.
  rewrite !noLF_hasChar, !negb_true_iff. apply replaceChar_keeps_absent.
Qed.

Lemma noLF_sourceLink (pageTitle pageUrl : string) :
  noLF pageTitle = true → noLF pageUrl = true →
  noLF (sourceLink pageTitle pageUrl) = true.
Proof.
  intros Ht Hu. unfold sourceLink. rewrite !noLF_append, Hu.
  rewrite noLF_replaceChar; [done|done|].
  by apply noLF_replaceChar.
Qed.

Lemma split_nonempty (sep : ascii) (s : string) : split sep s ≠ [].
Proof.
  destruct s as [|c s]; [done|]. cbn [split].
  destruct (split sep s); [done|]. by destruct (c =? sep)%char.
Qed.

Lemma split_noLF (s : string) : Forall (λ l, noLF l = true) (split LF s).
Proof.
  induction s as [|c s IH]; [by repeat constructor|]. cbn [split].
  pose proof (split_nonempty LF s) as Hne.
  destruct (split LF s) as [|l ls]; [done|].
  apply Forall_cons in IH as [Hl Hls].
  destruct (c =? LF)%char eqn:E; repeat constructor; try done.
  cbn [noLF]. by rewrite E, Hl.
Qed.

Lemma join_split (s : string) : join nl (split LF s) = s.
Proof.
  induction s as [|c s IH]; [done|]. cbn [split].
  pose proof (split_nonempty LF s) as Hne.
  destruct (split LF s) as [|l ls]; [done|].
  destruct (Ascii.eqb_spec c LF) as [->|Hc].
  - change (join nl ("" :: l :: ls)) with ("" +:+ nl +:+ join nl (l :: ls)).
    by rewrite IH.
  - destruct ls as [|l' ls].
    + cbn [join] in *. by rewrite IH.
    + change (join nl (String c l :: l' :: ls))
        with (String c l +:+ nl +:+ join nl (l' :: ls)).
      rewrite <- IH.
      change (join nl (l :: l' :: ls)) with (l +:+ nl +:+ join nl (l' :: ls)).
      by rewrite append_cons.
Qed.

Lemma join_cons (sep x : string) (l : list string) :
  l ≠ [] → join sep (x :: l) = x +:+ sep +:+ join sep l.
Proof. by destruct l. Qed.

Lemma quoted_lines (ls : list string) :
  Forall (λ p, matchNestedQuote p.1 = Some p.2)
    (map (λ l, ("  > " +:+ l, l)) ls).
Proof.
  apply Forall_map, Forall_true. intros l. cbn [fst snd].
  exact (matchNestedQuote_spaces 2 l (le_S _ _ (le_n 1))).
Qed.

Lemma bullet_item_alone (text : string) (qs : list (string * string)) (fuel : nat) :
  Forall (λ p, matchNestedQuote p.1 = Some p.2) qs →
  loop (S fuel) (("- " +:+ text) :: map fst qs) []
  = Some [BulletedListItem (parseInlineFormatting text)
            match qs with
            | [] => []
            | _ :: _ => [Quote (parseInlineFormatting (join nl (map snd qs)))]
            end].
Proof.
  intros Hq. cbn [loop].
  rewrite bullet_iteration by done.
  pose proof (bulletItems_run [mkItemSource ("- " +:+ text) [] qs] []
                (length (("- " +:+ text) :: map fst qs))) as R.
  cbn [flat_map itemLines itemLine nestedSource quoteSource map app] in R.
  rewrite !app_nil_r in R. unfold bulletRun.
  rewrite R; [by destruct fuel| |done|cbn; lia].
  repeat constructor; done.
Qed.

(** X17. What the clipper sends for a page whose title and URL hold
    no line feed: [markdownToBlocks] returns, in one pass, exactly one
    bullet item with the segmented source link; it has no child when the
    selection is blank, and else one quote child with the segmented
    Markdown of the whole selection, whatever its lines start with. *)
Theorem captured_selection_blocks (markdown pageTitle pageUrl : string) (fuel : nat) :
  noLF pageTitle = true → noLF pageUrl = true →
  markdownToBlocks (S fuel) (formatCapturedContent markdown pageTitle pageUrl)
  = Some [BulletedListItem
            (parseInlineFormatting (sourceLink pageTitle pageUrl))
            (selectionChildren markdown)].
Proof.
  intros Ht Hu. pose proof (noLF_sourceLink _ _ Ht Hu) as Hs.
  unfold markdownToBlocks, formatCapturedContent, selectionChildren, truthy.
  rewrite negb_involutive.
  destruct (isEmpty (trim markdown)).
  - rewrite split_line by (by rewrite noLF_append, Hs).
    exact (bullet_item_alone _ [] fuel (Forall_nil_2 _)).
  - set (ls := split LF markdown).
    pose proof (split_nonempty LF markdown) as Hne. fold ls in Hne.
    replace ("- " +:+ sourceLink pageTitle pageUrl +:+ nl
             +:+ join nl (map (λ line, "  > " +:+ line) ls))
      with (join nl (("- " +:+ sourceLink pageTitle pageUrl)
                     :: map (λ line, "  > " +:+ line) ls))
      by (rewrite join_cons, append_assoc; [done|by destruct ls]).
    rewrite split_join; [|done|].
    2:{ constructor; [by rewrite noLF_append, Hs|].
        apply Forall_map. eapply Forall_impl; [apply split_noLF|].
        intros l Hl. cbn. by rewrite noLF_append, Hl. }
    replace (map (λ line, "  > " +:+ line) ls)
      with (map fst (map (λ l, ("  > " +:+ l, l)) ls))
      by (rewrite map_map; by apply map_ext).
    rewrite (bullet_item_alone _ _ fuel (quoted_lines ls)).
    rewrite map_map. cbn [snd]. rewrite map_id.
    unfold ls at 2. rewrite join_split.
    destruct ls; [done|]. done.
Qed.

Lemma captured_selection_blocks_witness :
  markdownToBlocks 1
    (formatCapturedContent "#### Title" "Page" "https://example.com/a")
  = Some [BulletedListItem
            (parseInlineFormatting (sourceLink "Page" "https://example.com/a"))
            (selectionChildren "#### Title")].
Proof.
  apply (captured_selection_blocks "#### Title" "Page" "https://example.com/a" 0);
    reflexivity.
Defined.

Lemma replaceChar_absent (c : ascii) (r s : string) :
  hasChar c s = false → replaceChar c r s = s.
Proof.
  induction s as [|a s IH]; [done|]. rewrite hasChar_cons.
  intros [Ha Hs]%orb_false_elim. cbn [replaceChar]. by rewrite Ha, IH.
Qed.

Lemma labelChar_no_bracket (s : string) :
  allOf labelChar s = true → hasChar "]" s = false.
Proof.
  induction s as [|a s IH]; [done|]. cbn [allOf]. rewrite hasChar_cons.
  intros [Ha Hs]%andb_prop. rewrite (IH Hs), orb_false_r.
  unfold labelChar in Ha. apply andb_prop in Ha as [_ Ha].
  by apply negb_true_iff in Ha.
Qed.

Lemma labelChar_escaped (s : string) :
  allOf labelChar s = true → allOf labelChar (replaceChar "[" "\[" s) = true.
Proof.
  induction s as [|a s IH]; [done|]. cbn [allOf replaceChar].
  intros [Ha Hs]%andb_prop. destruct (a =? "[")%char.
  - change ("\[" +:+ replaceChar "[" "\[" s)
      with (String "\" (String "[" (replaceChar "[" "\[" s))).
    cbn [allOf]. by rewrite (IH Hs).
  - cbn [allOf]. by rewrite Ha, (IH Hs).
Qed.

Lemma replaceChar_nonempty (c : ascii) (r s : string) :
  r ≠ "" → s ≠ "" → replaceChar c r s ≠ "".
Proof.
  intros Hr Hs. destruct s as [|a s]; [done|]. cbn [replaceChar].
  destruct (a =? c)%char; [|done]. destruct r; [done|]. by rewrite append_cons.
Qed.

(** X18. For a page whose title is not empty and holds no closing
    bracket and no line terminator, and whose URL is not empty and holds
    no closing parenthesis and no line terminator, the source link of
    the clipper is segmented into one link span to the URL; its content
    is the title with a backslash before every opening bracket: the
    escape stays in the text. *)
Theorem captured_source_link (pageTitle pageUrl : string) :
  pageTitle ≠ "" → pageUrl ≠ "" →
  allOf labelChar pageTitle = true → allOf urlChar pageUrl = true →
  parseInlineFormatting (sourceLink pageTitle pageUrl)
  = [linkSpan (replaceChar "[" "\[" pageTitle) pageUrl].
Proof.
  intros Ht Hu At Au. unfold sourceLink.
  rewrite (replaceChar_absent "]").
  - apply bare_link_span; [by apply replaceChar_nonempty|done| |done].
    by apply labelChar_escaped.
  - by apply labelChar_no_bracket, labelChar_escaped.
Qed.

Lemma captured_source_link_witness :
  parseInlineFormatting (sourceLink "Notes [draft" "https://example.com/a")
  = [linkSpan "Notes \[draft" "https://example.com/a"].
Proof.
  apply (captured_source_link "Notes [draft" "https://example.com/a");
    [discriminate|discriminate|reflexivity|reflexivity].
Defined.

End Capture.

(* ================================================================= *)
(** ** The page lists: duplicates *)
(* ================================================================= *)

Section Pages.

#[local] Set Warnings "-clear-no-such-hyp".

Lemma keepUnseen_loop (pages : list Api.PageInfo) (seen : gset string)
    (kept : list Api.PageInfo) :
  fold_left Api.keepUnseen pages (seen, kept)
  = (seen ∪ list_to_set (ids pages), kept ++ firstOccurrences seen pages).
Proof.
  revert seen kept. induction pages as [|p pages IH]; intros seen kept.
  - cbn. rewrite app_nil_r. f_equal. set_solver.
  - cbn [fold_left Api.keepUnseen firstOccurrences ids map list_to_set].
    case_bool_decide as Hp; rewrite IH.
    + f_equal. unfold ids. set_solver.
    + rewrite <- app_assoc. f_equal. unfold ids. set_solver.
Qed.

Lemma firstOccurrences_ids (pages : list Api.PageInfo) (seen : gset string) :
  NoDup (ids (firstOccurrences seen pages))
  ∧ ∀ x, x ∈ ids (firstOccurrences seen pages) ↔ x ∈ ids pages ∧ x ∉ seen.
Proof.
  revert seen. induction pages as [|p pages IH]; intros seen.
  - split; [constructor|]. cbn. set_solver.
  - cbn [firstOccurrences]. case_bool_decide as Hp.
    + destruct (IH seen) as [N M]. split; [done|].
      intros x. rewrite M. unfold ids. cbn [map]. set_solver.
    + destruct (IH ({[Api.id p]} ∪ seen)) as [N M]. split.
      * unfold ids in *. cbn [map]. constructor; [|done].
        rewrite M. set_solver.
      * intros x. unfold ids in *. cbn [map]. rewrite elem_of_cons, M.
        destruct (decide (x = Api.id p)) as [->|]; set_solver.
Qed.

Lemma firstOccurrences_sublist (pages : list Api.PageInfo) (seen : gset string) :
  sublist (firstOccurrences seen pages) pages.
Proof.
  revert seen. induction pages as [|p pages IH]; intros seen; [constructor|].
  cbn [firstOccurrences]. case_bool_decide.
  - by apply sublist_cons.
  - by apply sublist_skip.
Qed.

Lemma firstOccurrences_first (pages : list Api.PageInfo) (seen : gset string)
    (x : string) :
  firstWithId x (firstOccurrences seen pages)
  = if bool_decide (x ∈ seen) then None else firstWithId x pages.
Proof.
  unfold firstWithId. revert seen.
  induction pages as [|p pages IH]; intros seen.
  - cbn. by case_bool_decide.
  - cbn [firstOccurrences]. case_bool_decide as Hp.
    + rewrite IH. case_bool_decide as Hx; [done|].
      rewrite filter_cons_False; [done|]. congruence.
    + destruct (decide (Api.id p = x)) as [E|E].
      * rewrite !filter_cons_True by done. cbn [head].
        rewrite bool_decide_eq_false_2; [done|congruence].
      * rewrite !filter_cons_False by done. rewrite IH.
        repeat case_bool_decide; set_solver.
Qed.

(** X19. The pages the route [/searchable-pages] answers: no id
    twice, in the order of the collected pages, and for every id the
    first collected page with that id (so a page of the whitelist wins
    over a child page with its id, and no id is lost). *)
Theorem uniquePages_first_occurrences (pages : list Api.PageInfo) :
  NoDup (ids (Api.uniquePages pages))
  ∧ sublist (Api.uniquePages pages) pages
  ∧ ∀ x, firstWithId x (Api.uniquePages pages) = firstWithId x pages.
Proof.
  unfold Api.uniquePages. rewrite keepUnseen_loop. cbn [snd app].
  split; [apply firstOccurrences_ids|].
  split; [apply firstOccurrences_sublist|].
  intros x. rewrite firstOccurrences_first.
  rewrite bool_decide_eq_false_2; [done|set_solver].
Qed.

Lemma recent_loop (recentPages : list Api.PageInfo) (seen : gset string)
    (allPages : list Overlay.Suggestion) :
  fold_left
    (λ '(seen, allPages) p,
      ({[ Api.id p ]} ∪ seen, allPages ++ [Overlay.mkSuggestion p "recent"]))
    recentPages (seen, allPages)
  = (seen ∪ list_to_set (ids recentPages),
     allPages ++ map (λ p, Overlay.mkSuggestion p "recent") recentPages).
Proof.
  revert seen allPages.
  induction recentPages as [|p ps IH]; intros seen allPages.
  - cbn. rewrite app_nil_r. f_equal. set_solver.
  - cbn [fold_left]. rewrite IH. cbn [map ids].
    rewrite <- app_assoc. f_equal. unfold ids. set_solver.
Qed.

Lemma searchable_loop (searchablePages : list Api.PageInfo) (seen : gset string)
    (allPages : list Overlay.Suggestion) :
  fold_left
    (λ '(seen, allPages) p,
      if negb (bool_decide (Api.id p ∈ seen))
      then ({[ Api.id p ]} ∪ seen, allPages ++ [Overlay.mkSuggestion p "whitelist"])
      else (seen, allPages))
    searchablePages (seen, allPages)
  = (seen ∪ list_to_set (ids searchablePages),
     allPages ++ map (λ p, Overlay.mkSuggestion p "whitelist")
                   (firstOccurrences seen searchablePages)).
Proof.
  revert seen allPages.
  induction searchablePages as [|p ps IH]; intros seen allPages.
  - cbn. rewrite app_nil_r. f_equal. set_solver.
  - cbn [fold_left firstOccurrences]. case_bool_decide as Hp; cbn [negb].
    + rewrite IH. f_equal. unfold ids. set_solver.
    + rewrite IH. cbn [map]. rewrite <- app_assoc. f_equal.
      unfold ids. set_solver.
Qed.

(** X20. The suggestions of the overlay: all the recent pages first,
    as they came and marked [recent], then, marked [whitelist] and in
    their order, the searchable pages whose id is no id of a recent page,
    each id once. *)
Theorem mergePages_recent_first (recentPages searchablePages : list Api.PageInfo) :
  ∃ added,
    Overlay.mergePages recentPages searchablePages
    = map (λ p, Overlay.mkSuggestion p "recent") recentPages
      ++ map (λ p, Overlay.mkSuggestion p "whitelist") added
    ∧ sublist added searchablePages
    ∧ NoDup (ids added)
    ∧ ∀ x, x ∈ ids added ↔ x ∈ ids searchablePages ∧ x ∉ ids recentPages.
Proof.
  exists (firstOccurrences (list_to_set (ids recentPages)) searchablePages).
  unfold Overlay.mergePages. rewrite recent_loop, searchable_loop.
  cbn [snd app]. rewrite union_empty_l_L.
  split; [done|]. split; [apply firstOccurrences_sublist|].
  destruct (firstOccurrences_ids searchablePages (list_to_set (ids recentPages)))
    as [N M].
  split; [done|]. intros x. rewrite M. set_solver.
Qed.

End Pages.

(* ================================================================= *)
(** ** Page identifiers *)
(* ================================================================= *)

Section PageIds.

Variable pathname : string → option string.

Lemma isHex_lower (c : ascii) : isHex c = true → isHex (toLowerChar c) = true.
Proof. by destruct c as [[] [] [] [] [] [] [] []]. Qed.

Lemma isHex_plain (c : ascii) :
  isHex c = true → (c =? "-")%char = false ∧ isWhiteSpace c = false.
Proof. by destruct c as [[] [] [] [] [] [] [] []]. Qed.

Lemma hexRun_lower (n : nat) (s r : string) :
  hexRun n s = Some r → hexRun n (toLowerCase s) = Some (toLowerCase r).
Proof.
  revert s. induction n as [|n IH]; intros s; [by intros [= ->]|].
  destruct s as [|c s]; [done|]. cbn [hexRun toLowerCase].
  destruct (isHex c) eqn:Hc; [|done]. rewrite (isHex_lower c Hc). apply IH.
Qed.

Lemma isPageId_lower (s : string) :
  isPageId s = true → isPageId (toLowerCase s) = true.
Proof.
  unfold isPageId, hexGroups. destruct (hexRun 32 s) as [r|] eqn:E; [|done].
  rewrite (hexRun_lower _ _ _ E). by destruct r.
Qed.

Lemma hexRun_add (n m : nat) (s r r' : string) :
  hexRun n s = Some r → hexRun m (removeDashes r) = Some r' →
  hexRun (n + m) (removeDashes s) = Some r'.
Proof.
  revert s. induction n as [|n IH]; intros s; [by intros [= ->]|].
  destruct s as [|c s]; [done|]. cbn [hexRun].
  destruct (isHex c) eqn:Hc; [|done]. intros Hs Hr.
  unfold removeDashes. cbn [replaceChar].
  destruct (isHex_plain c Hc) as [-> _]. cbn [Nat.add hexRun].
  rewrite Hc. by apply IH.
Qed.

Lemma hexGroups_joined (groups : list nat) (s : string) :
  hexGroups groups s = true →
  hexRun (sum_list groups) (removeDashes s) = Some "".
Proof.
  revert s. induction groups as [|n rest IH]; intros s.
  - by destruct s.
  - cbn [hexGroups sum_list]. destruct (hexRun n s) as [r|] eqn:E; [|done].
    destruct rest as [|m rest].
    + destruct r; [|done]. intros _. by apply (hexRun_add n 0 s "").
    + destruct r as [|c r]; [done|].
      destruct (Ascii.eqb_spec c "-") as [->|]; [|done]. cbn [andb].
      intros H%IH. by apply (hexRun_add n _ s (String "-" r)).
Qed.

Lemma isUuid_joined (s : string) :
  isUuid s = true → isPageId (removeDashes s) = true.
Proof.
  intros H%hexGroups_joined. unfold isPageId, hexGroups.
  change (sum_list [8; 4; 4; 4; 12]) with 32 in H. by rewrite H.
Qed.

Lemma isPageId_joined (s : string) :
  isPageId s = true → removeDashes s = s.
Proof.
  unfold isPageId, hexGroups. generalize 32 as n. intros n.
  destruct (hexRun n s) as [r|] eqn:E; [|done]. destruct r; [|done]. intros _.
  revert s E. induction n as [|n IH]; intros s; [by intros [= ->]|].
  destruct s as [|c s]; [done|]. cbn [hexRun].
  destruct (isHex c) eqn:Hc; [|done]. intros H%IH.
  unfold removeDashes in *. cbn [replaceChar].
  destruct (isHex_plain c Hc) as [-> _]. by rewrite H.
Qed.

(** X21. Whatever [parsePageIdentifier] returns, for an id, a UUID or
    a URL, is exactly 32 hex digits, without a dash. *)
Theorem parsePageIdentifier_page_id (input pageId : string) :
  parsePageIdentifier pathname input = Some pageId →
  isPageId pageId = true ∧ removeDashes pageId = pageId.
Proof.
  assert (K : ∀ s, isPageId s = true →
                isPageId s = true ∧ removeDashes s = s).
  { intros s H. split; [done|by apply isPageId_joined]. }
  unfold parsePageIdentifier.
  destruct (isPageId (trim input)) eqn:E1.
  { intros [= <-]. by apply K, isPageId_lower. }
  destruct (isUuid (trim input)) eqn:E2.
  { intros [= <-]. by apply K, isPageId_lower, isUuid_joined. }
  destruct (startsWith (trim input) "http"); [|done].
  unfold extractPageIdFromUrl.
  destruct (pathname (trim input)) as [path|]; [|done].
  unfold matchAtEnd.
  destruct ((32 <=? String.length path) && isPageId (takeLast 32 path)) eqn:M1.
  { apply andb_prop in M1 as [_ M1]. intros [= <-].
    rewrite (isPageId_joined _ M1). by apply K. }
  destruct ((36 <=? String.length path) && isUuid (takeLast 36 path)) eqn:M2;
    [|done].
  apply andb_prop in M2 as [_ M2]. intros [= <-].
  by apply K, isUuid_joined.
Qed.

Lemma trim_plain (s : string) : allOf notSpace s = true → trim s = s.
Proof.
  intros H. unfold trim.
  assert (E : trimEnd s = s).
  { induction s as [|c s IH]; [done|]. cbn [allOf] in H.
    apply andb_prop in H as [Hc Hs]. apply negb_true_iff in Hc.
    cbn [trimEnd]. by rewrite Hc, IH. }
  destruct s as [|c s]; [done|]. cbn [allOf] in H.
  apply andb_prop in H as [Hc _]. apply negb_true_iff in Hc.
  cbn [trimStart]. by rewrite Hc.
Qed.

Lemma hexRun_plain (n : nat) (s r : string) :
  hexRun n s = Some r → allOf notSpace r = true → allOf notSpace s = true.
Proof.
  revert s. induction n as [|n IH]; intros s; [by intros [= ->]|].
  destruct s as [|c s]; [done|]. cbn [hexRun].
  destruct (isHex c) eqn:Hc; [|done]. intros H Hr. cbn [allOf].
  unfold notSpace at 1. destruct (isHex_plain c Hc) as [_ ->].
  by apply IH.
Qed.

Lemma hexGroups_plain (groups : list nat) (s : string) :
  hexGroups groups s = true → allOf notSpace s = true.
Proof.
  revert s. induction groups as [|n rest IH]; intros s; [by destruct s|].
  cbn [hexGroups]. destruct (hexRun n s) as [r|] eqn:E; [|done].
  destruct rest as [|m rest].
  - destruct r; [|done]. intros _. by apply (hexRun_plain n s "").
  - destruct r as [|c r]; [done|].
    destruct (Ascii.eqb_spec c "-") as [->|]; [|done]. cbn [andb].
    intros H%IH. apply (hexRun_plain n s _ E). cbn [allOf]. by rewrite H.
Qed.

Lemma hexRun_stops (n m : nat) (s r : string) (c : ascii) :
  hexRun n s = Some (String c r) → isHex c = false →
  hexRun (n + S m) s = None.
Proof.
  revert s. induction n as [|n IH]; intros s.
  - intros [= ->] Hc. cbn. by rewrite Hc.
  - destruct s as [|a s]; [done|]. cbn [hexRun Nat.add].
    destruct (isHex a); [|done]. apply IH.
Qed.

Lemma isUuid_not_page_id (s : string) : isUuid s = true → isPageId s = false.
Proof.
  unfold isUuid, isPageId. cbn [hexGroups].
  destruct (hexRun 8 s) as [r|] eqn:E; [|done].
  destruct r as [|c r]; [done|].
  destruct (Ascii.eqb_spec c "-") as [->|]; [|done]. intros _.
  pose proof (hexRun_stops 8 23 s r "-" E eq_refl) as K.
  change (8 + 24) with 32 in K. by rewrite K.
Qed.

Lemma hexRun_length (n : nat) (s : string) :
  hexRun n s = Some "" → String.length s = n.
Proof.
  revert s. induction n as [|n IH]; intros s; [by intros [= ->]|].
  destruct s as [|c s]; [done|]. cbn [hexRun String.length].
  destruct (isHex c); [|done]. by intros ->%IH.
Qed.

Lemma isPageId_length (s : string) : isPageId s = true → String.length s = 32.
Proof.
  unfold isPageId, hexGroups. destruct (hexRun 32 s) as [r|] eqn:E; [|done].
  destruct r; [|done]. intros _. by apply hexRun_length.
Qed.

(** X22. An id given as a UUID with dashes and the same id given
    without them are parsed to the same identifier: the 32 digits in
    lower case. *)
Theorem dashed_id_agrees (uuid : string) :
  isUuid uuid = true →
  parsePageIdentifier pathname uuid = Some (toLowerCase (removeDashes uuid))
  ∧ parsePageIdentifier pathname (removeDashes uuid)
    = Some (toLowerCase (removeDashes uuid)).
Proof.
  intros H. unfold parsePageIdentifier. split.
  - rewrite (trim_plain uuid) by (by eapply hexGroups_plain).
    by rewrite (isUuid_not_page_id uuid H), H.
  - pose proof (isUuid_joined uuid H) as J.
    rewrite (trim_plain (removeDashes uuid)) by (by eapply hexGroups_plain).
    by rewrite J.
Qed.

(** X23. The link the settings page shows for a stored page id, with
    or without dashes, is parsed back to that id without its dashes, when
    the URL parser answers the path of the link. *)
Theorem notionUrl_round_trip (pageId : string) :
  isPageId pageId = true ∨ isUuid pageId = true →
  pathname (notionUrl pageId) = Some ("/" +:+ removeDashes pageId) →
  parsePageIdentifier pathname (notionUrl pageId) = Some (removeDashes pageId).
Proof.
  intros Hid Hpath.
  assert (J : isPageId (removeDashes pageId) = true).
  { destruct Hid as [H|H]; [by rewrite isPageId_joined|by apply isUuid_joined]. }
  revert Hpath. unfold notionUrl.
  set (x := removeDashes pageId) in *. intros Hpath.
  unfold parsePageIdentifier.
  rewrite trim_plain.
  2:{ change ("https://www.notion.so/" +:+ x)
        with (String "h" (String "t" (String "t" (String "p" (String "s"
             (String ":" (String "/" (String "/" (String "w" (String "w"
             (String "w" (String "." (String "n" (String "o" (String "t"
             (String "i" (String "o" (String "n" (String "." (String "s"
             (String "o" (String "/" x)))))))))))))))))))))).
      cbn [allOf]. rewrite (hexGroups_plain _ _ J). done. }
  change (isPageId ("https://www.notion.so/" +:+ x)) with false.
  change (isUuid ("https://www.notion.so/" +:+ x)) with false.
  change (startsWith ("https://www.notion.so/" +:+ x) "http") with true.
  cbn iota. unfold extractPageIdFromUrl. rewrite Hpath.
  unfold matchAtEnd, takeLast.
  change ("/" +:+ x) with (String "/" x). cbn [String.length].
  rewrite (isPageId_length x J).
  change (33 - 32) with 1. cbn [sliceFrom Nat.leb andb].
  rewrite J. cbn iota. by rewrite (isPageId_joined x J).
Qed.

End PageIds.

Lemma parsePageIdentifier_page_id_witness :
  isPageId "0123abcd456789abcdef0123456789ab" = true
  ∧ removeDashes "0123abcd456789abcdef0123456789ab"
    = "0123abcd456789abcdef0123456789ab".
Proof.
  apply (parsePageIdentifier_page_id notionPathname
           " 0123ABCD-4567-89ab-cdef-0123456789ab "
           "0123abcd456789abcdef0123456789ab").
  reflexivity.
Defined.

Lemma dashed_id_agrees_witness :
  parsePageIdentifier notionPathname "0123ABCD-4567-89ab-cdef-0123456789ab"
  = Some (toLowerCase (removeDashes "0123ABCD-4567-89ab-cdef-0123456789ab"))
  ∧ parsePageIdentifier notionPathname
      (removeDashes "0123ABCD-4567-89ab-cdef-0123456789ab")
    = Some (toLowerCase (removeDashes "0123ABCD-4567-89ab-cdef-0123456789ab")).
Proof.
  apply (dashed_id_agrees notionPathname "0123ABCD-4567-89ab-cdef-0123456789ab").
  reflexivity.
Defined.

Lemma notionUrl_round_trip_witness :
  parsePageIdentifier notionPathname
    (notionUrl "0123abcd-4567-89ab-cdef-0123456789ab")
  = Some "0123abcd456789abcdef0123456789ab".
Proof.
  apply (notionUrl_round_trip notionPathname "0123abcd-4567-89ab-cdef-0123456789ab").
  - right. reflexivity.
  - reflexivity.
Defined.

(* ================================================================= *)
(** ** Access to the server, and the URL of the server *)
(* ================================================================= *)

Section Access.

Variable validateSession : string → option bool.
Variable createSession : option string.
Variable atob : string → option string.
Variable AUTH_PASSWORD : string.

Lemma indexOf_first (c : ascii) (a b : string) :
  hasChar c a = false →
  indexOf c (a +:+ String c b) = Some (String.length a).
Proof.
  unfold hasChar. induction a as [|x a IH].
  - intros _. rewrite append_nil_l. cbn [indexOf]. by rewrite Ascii.eqb_refl.
  - rewrite append_cons. cbn [indexOf String.length].
    destruct (x =? c)%char; [done|].
    destruct (indexOf c a); [done|]. intros _. by rewrite IH.
Qed.

(** X24. Basic authentication looks at the password only: for
    credentials that decode to a user name without a colon, a colon and a
    password, the request goes on (with a new session) exactly when the
    password is the configured one, character for character, colons in
    it included; the user name is ignored. *)
Theorem basicAuth_password_only (c : Auth.Request) (payload user password : string) :
  Auth.authorization c = Some ("Basic " +:+ payload) →
  atob payload = Some (user +:+ ":" +:+ password) →
  hasChar ":" user = false →
  Auth.basicAuth createSession atob AUTH_PASSWORD c
  = if String.eqb password AUTH_PASSWORD
    then match createSession with
         | Some sessionId => Auth.Next (Some sessionId)
         | None => Auth.Failed
         end
    else Auth.Unauthorized "Invalid credentials".
Proof.
  intros Hh Ha Hu. unfold Auth.basicAuth. rewrite Hh.
  change (truthy ("Basic " +:+ payload)) with true.
  change (startsWith ("Basic " +:+ payload) "Basic ") with true.
  change (sliceFrom 6 ("Basic " +:+ payload)) with payload.
  cbn [negb orb]. rewrite Ha.
  change (":" +:+ password) with (String ":" password).
  rewrite (indexOf_first ":" user password Hu).
  rewrite <- sliceFrom_sliceFrom, sliceFrom_append. cbn [sliceFrom].
  by destruct (String.eqb password AUTH_PASSWORD).
Qed.

(** X25. The middleware lets a request through only with a session
    cookie that the session store validates, or with a Basic header
    whose decoded credentials hold the configured password after their
    first colon; a new session is set in the second case only. *)
Theorem authMiddleware_sound (c : Auth.Request) (newSession : option string)
    (deleted : bool) :
  Auth.authMiddleware validateSession createSession atob AUTH_PASSWORD c
  = (Auth.Next newSession, deleted) →
  (∃ cookie, Auth.sessionCookie c = Some cookie
             ∧ validateSession cookie = Some true ∧ newSession = None)
  ∨ (∃ payload credentials colonIndex,
       Auth.authorization c = Some ("Basic " +:+ payload)
       ∧ atob payload = Some credentials
       ∧ indexOf ":" credentials = Some colonIndex
       ∧ sliceFrom (colonIndex + 1) credentials = AUTH_PASSWORD
       ∧ newSession = createSession ∧ is_Some createSession).
Proof.
  assert (B : ∀ d, (Auth.basicAuth createSession atob AUTH_PASSWORD c, d)
                   = (Auth.Next newSession, deleted) →
    ∃ payload credentials colonIndex,
       Auth.authorization c = Some ("Basic " +:+ payload)
       ∧ atob payload = Some credentials
       ∧ indexOf ":" credentials = Some colonIndex
       ∧ sliceFrom (colonIndex + 1) credentials = AUTH_PASSWORD
       ∧ newSession = createSession ∧ is_Some createSession).
  { intros d. unfold Auth.basicAuth.
    destruct (Auth.authorization c) as [h|]; [|done].
    destruct (truthy h); [|done]. cbn [negb orb].
    destruct (startsWith h "Basic ") eqn:Hs; [|done]. cbn [negb].
    apply startsWith_split in Hs. cbn [String.length] in Hs.
    destruct (atob (sliceFrom 6 h)) as [credentials|] eqn:Ha; [|done].
    destruct (indexOf ":" credentials) as [k|] eqn:Hk; [|done].
    destruct (String.eqb_spec (sliceFrom (k + 1) credentials) AUTH_PASSWORD)
      as [Hp|]; [|done]. cbn [negb].
    destruct createSession as [sid|] eqn:Hc; [|done].
    intros [= <- <-]. exists (sliceFrom 6 h), credentials, k.
    rewrite <- Hs. by eauto 10. }
  unfold Auth.authMiddleware.
  destruct (Auth.sessionCookie c) as [cookie|]; [|right; by eapply B].
  destruct (truthy cookie); [|right; by eapply B].
  destruct (validateSession cookie) as [[]|] eqn:Hv; [|right; by eapply B|done].
  intros [= <- <-]. left. by exists cookie.
Qed.

End Access.

Lemma basicAuth_password_only_witness :
  Auth.basicAuth (Some "s1") plainPayload "se:cret"
    (Auth.mkRequest None (Some "Basic anyone:se:cret"))
  = Auth.Next (Some "s1").
Proof.
  apply (basicAuth_password_only (Some "s1") plainPayload "se:cret"
           (Auth.mkRequest None (Some "Basic anyone:se:cret"))
           "anyone:se:cret" "anyone" "se:cret");
    reflexivity.
Defined.

Lemma authMiddleware_sound_witness :
  (∃ cookie, Some "old" = Some cookie
             ∧ noSession cookie = Some true ∧ Some "s1" = None)
  ∨ (∃ payload credentials colonIndex,
       Some "Basic :secret" = Some ("Basic " +:+ payload)
       ∧ plainPayload payload = Some credentials
       ∧ indexOf ":" credentials = Some colonIndex
       ∧ sliceFrom (colonIndex + 1) credentials = "secret"
       ∧ Some "s1" = Some "s1" ∧ is_Some (Some "s1")).
Proof.
  apply (authMiddleware_sound noSession (Some "s1") plainPayload "secret"
           (Auth.mkRequest (Some "old") (Some "Basic :secret")) (Some "s1") true).
  reflexivity.
Defined.

Section Urls.

Lemma dropSlashes_last (s : string) : lastChar (Options.dropSlashes s) ≠ Some "/"%char.
Proof.
  induction s as [|c s IH]; [done|]. cbn [Options.dropSlashes].
  destruct (Ascii.eqb_spec c "/") as [->|Hc]; cbn [andb].
  - destruct (Options.dropSlashes s) as [|a t] eqn:E; [done|].
    cbn [isEmpty]. cbn [lastChar]. exact IH.
  - destruct (Options.dropSlashes s) as [|a t] eqn:E.
    + cbn. congruence.
    + cbn [lastChar]. exact IH.
Qed.

(** X26. The URL of the server as the options page stores it never
    ends with a slash, so the paths the clipper appends to it start with
    exactly one. *)
Theorem normalizeUrl_no_trailing_slash (url : string) :
  endsWith "/" (Options.normalizeUrl url) = false.
Proof.
  unfold endsWith, Options.normalizeUrl.
  pose proof (dropSlashes_last (trim url)) as H.
  destruct (lastChar (Options.dropSlashes (trim url))) as [a|]; [|done].
  apply Ascii.eqb_neq. congruence.
Qed.

End Urls.
